(** * Garden: log dispatch, debug-logfile retention and the users listing

  A shallow embedding of
  - [src/commands/logs.ts]: [LogsCommand.action] and [dummyLogStreamer];
  - [core/src/commands/cloud/users/users-list.ts]: [UsersListCommand.action];
  - the debug-logfile helpers [prepareDebugLogfiles] and [makeLogfileName].

  Asynchronous code is modelled by explicit state passing: every promise
  chain becomes a task that advances one step at a time, and the order in
  which tasks advance is an explicit schedule, so a statement quantified
  over schedules covers every interleaving of the collectors. *)

From Stdlib Require Import ZArith Lia Ascii String Permutation Sorted.
From stdpp Require Import gmap strings list fin_maps pretty.

Open Scope string_scope.
Open Scope list_scope.

(** ** JavaScript strings

  Strings are sequences of 8-bit code units; the operations below are
  the ones the sources use. *)
Module JsString.

(** [s.includes(c)] for a one-character needle. *)
Fixpoint includes_char (c : ascii) (s : string) : bool :=
  match s with
  | EmptyString => false
  | String a s' => if Ascii.eqb a c then true else includes_char c s'
  end.

(** Number of occurrences of the character [c] in [s]. *)
Fixpoint count_char (c : ascii) (s : string) : nat :=
  match s with
  | EmptyString => 0
  | String a s' => (if Ascii.eqb a c then 1 else 0) + count_char c s'
  end.

(** [s.replace(c, r)] with a one-character string pattern [c]: only the
    first occurrence is replaced.  The replacement [r] is taken
    literally (the sources pass no [$] patterns). *)
Fixpoint replace_char (c : ascii) (r : string) (s : string) : string :=
  match s with
  | EmptyString => EmptyString
  | String a s' =>
      if Ascii.eqb a c then r +:+ s' else String a (replace_char c r s')
  end.

(** [s.split(c)] for a one-character separator. *)
Fixpoint split_go (c : ascii) (cur : string) (s : string) : list string :=
  match s with
  | EmptyString => [String.rev cur]
  | String a s' =>
      if Ascii.eqb a c then String.rev cur :: split_go c EmptyString s'
      else split_go c (String a cur) s'
  end.
Definition split (c : ascii) (s : string) : list string :=
  split_go c EmptyString s.

(** [s.includes(needle)]. *)
Fixpoint includes (needle : string) (s : string) : bool :=
  String.prefix needle s
  || match s with
     | EmptyString => false
     | String _ s' => includes needle s'
     end.

(** The rest of [s] after the prefix [p], when [s] starts with [p]. *)
Fixpoint strip_prefix (p : string) (s : string) : option string :=
  match p, s with
  | EmptyString, _ => Some s
  | String a p', String b s' => if Ascii.eqb a b then strip_prefix p' s' else None
  | String _ _, EmptyString => None
  end.

(** The characters that [.] of a regular expression does not match
    (line feed and carriage return, among 8-bit code units). *)
Definition is_line_terminator (a : ascii) : bool :=
  Ascii.eqb a "010"%char || Ascii.eqb a "013"%char.

(** [/.*post/] matched at the start of [s]. *)
Fixpoint dot_star_then (post : string) (s : string) : bool :=
  String.prefix post s
  || match s with
     | EmptyString => false
     | String a s' => negb (is_line_terminator a) && dot_star_then post s'
     end.

(** [s.match(/pre.*post/)] is not null, for literal [pre] and [post]:
    the match may start anywhere in [s]. *)
Fixpoint matches_pre_any_post (pre post : string) (s : string) : bool :=
  match strip_prefix pre s with
  | Some rest => dot_star_then post rest
  | None => false
  end
  || match s with
     | EmptyString => false
     | String _ s' => matches_pre_any_post pre post s'
     end.

(** Truthiness of a possibly undefined string: [undefined] and the
    empty string are falsy. *)
Definition truthy (o : option string) : option string :=
  match o with
  | Some EmptyString => None
  | Some s => Some s
  | None => None
  end.

End JsString.

(** ** [chalk] colour wrappers (ANSI escape sequences) *)
Module Chalk.
Definition esc : string := String (ascii_of_nat 27) EmptyString.
Definition white (s : string) : string := esc +:+ "[37m" +:+ s +:+ esc +:+ "[39m".
Definition yellow (s : string) : string := esc +:+ "[33m" +:+ s +:+ esc +:+ "[39m".
End Chalk.

(** ** [src/commands/logs.ts] *)
Module Logs.

(** *** Data: services, log entries, the display logger *)

Definition Error := string.
Definition Env := string.
(** A [Date], as milliseconds since the epoch: a valid date (the
    invalid date, on which [toISOString] throws, has no value here). *)
Definition Date := Z.

(** [service.module.type] and [service.name] of [types/service]. *)
Record ModuleInfo := { module_type : string }.
Record Service := { service_name : string; service_module : ModuleInfo }.

(** [ServiceLogEntry] of [types/plugin]. *)
Record ServiceLogEntry :=
  { serviceName : string; timestamp : Date; msg : string }.

(** One line handed to [ctx.log]: the level, the [section] and the
    [msg] parts (an array for [info], a single string for [warn]). *)
Inductive Level := LInfo | LWarn.
Record LogLine := { level : Level; section : string; parts : list string }.

(** The state of the context that the command touches: the selected
    environment and what [ctx.log] has received (the display sink and
    the diagnostics sink). *)
Record CtxState := { environment : Env; log : list LogLine }.

Definition log_info (sec : string) (ps : list string) (c : CtxState) : CtxState :=
  {| environment := environment c;
     log := log c ++ [{| level := LInfo; section := sec; parts := ps |}] |}.

Definition log_warn (sec : string) (m : string) (c : CtxState) : CtxState :=
  {| environment := environment c;
     log := log c ++ [{| level := LWarn; section := sec; parts := [m] |}] |}.

(** Modelled from the spec: [ctx.setEnvironment] and
    [ctx.getEnvironment] (context.ts is not among the sources).
    Environment selection is an external collaborator; the selected
    environment is a cell of the context. *)
Definition setEnvironment (e : Env) (c : CtxState) : CtxState :=
  {| environment := e; log := log c |}.
Definition getEnvironment (c : CtxState) : Env := environment c.

(** *** The [ts-stream] stream shared by the collectors

    A reader is a callback acting on the context; [write] hands the
    entry to the reader when one is attached and otherwise leaves the
    entry waiting; [forEach] attaches the reader and drains what is
    waiting; [end_] marks the stream as ended. *)
Definition Reader := ServiceLogEntry -> CtxState -> CtxState.

Record Stream :=
  { reader : option Reader; ended : bool; waiting : list ServiceLogEntry }.

Definition new_Stream : Stream :=
  {| reader := None; ended := false; waiting := [] |}.

Definition forEach (r : Reader) (s : Stream) (c : CtxState) : Stream * CtxState :=
  ({| reader := Some r; ended := ended s; waiting := [] |},
   foldl (fun c e => r e c) c (waiting s)).

Definition write (e : ServiceLogEntry) (s : Stream) (c : CtxState) : Stream * CtxState :=
  match reader s with
  | Some r => (s, r e c)
  | None =>
      ({| reader := None; ended := ended s; waiting := waiting s ++ [e] |}, c)
  end.

Definition end_ (s : Stream) : Stream :=
  {| reader := reader s; ended := true; waiting := waiting s |}.

(** *** Handlers

    What a [getServiceLogs] handler does once invoked: a finite
    sequence of effects on the shared stream and the logger, and then
    it resolves, rejects, or stays pending (a tailing handler).
    [StreamWrite e] is an awaited write, [await stream.write(e)]: the
    handler goes on once the reader has handled the entry, so for the
    handler the entry is displayed before its next effect.  A write
    that is not awaited is not among the effects. *)
Inductive Effect :=
| StreamWrite (e : ServiceLogEntry)
| WarnLog (sec : string) (m : string).

Inductive Ending := Finishes | Throws (err : Error) | Hangs.

Record Behaviour := { effects : list Effect; ending : Ending }.

(** [GetServiceLogsParams]; [ctx] and [stream] are the shared state
    that the effects act on. *)
Record GetServiceLogsParams :=
  { p_service : Service; p_env : Env; p_tail : option bool }.

Definition Handler := GetServiceLogsParams -> Behaviour.

(** [dummyLogStreamer]: one warning, nothing written. *)
Definition dummyLogStreamer : Handler := fun p =>
  {| effects :=
       [WarnLog (service_name (p_service p))
          (Chalk.yellow
             ("No handler for log retrieval available for module type "
                +:+ module_type (service_module (p_service p))))];
     ending := Finishes |}.

(** The collaborators reached through [ctx]: service resolution, which
    may fail, and the [getServiceLogs] handlers registered per module
    type. *)
Record Collaborators :=
  { getServices : option (list string) -> Error + list Service;
    serviceLogHandlers : gmap string Handler }.

(** Modelled from the spec: [ctx.getActionHandler] (context.ts is not
    among the sources).  The handler registered for the module type is
    returned, and the default when none is registered; the lookup
    never fails. *)
Definition getActionHandler (c : Collaborators) (moduleType : string)
    (defaultHandler : Handler) : Handler :=
  default defaultHandler (serviceLogHandlers c !! moduleType).


(** *** The collectors as scheduled tasks

    [Bluebird.map] starts one promise chain per service.  A chain is
    either not yet started, running with the effects it still has to
    perform, resolved, or rejected. *)
Inductive Status :=
| Unspawned
| Running (todo : list Effect) (fin : Ending)
| Done
| Failed (err : Error).

Record Task := { task_service : Service; task_status : Status }.

(** The promise returned by [Bluebird.map]. *)
Inductive Promise := Pending | Fulfilled | Rejected (err : Error).

(** What the trace records, in the order it happens. *)
Inductive Event :=
| EvSubscribe
| EvInvoke (i : nat)
| EvEffect (i : nat) (eff : Effect)
| EvDone (i : nat)
| EvThrow (i : nat) (err : Error).

Record State :=
  { ctx : CtxState;
    stream : Stream;
    pool : list Task;
    promise : Promise;
    events : list Event }.

Definition is_Done (t : Task) : bool :=
  match task_status t with Done => true | _ => false end.

(** [Bluebird.map] fulfils once every mapper promise has resolved (at
    once for an empty array) and rejects with the first rejection. *)
Definition settle (st : State) : State :=
  match promise st with
  | Pending =>
      if forallb is_Done (pool st)
      then {| ctx := ctx st; stream := stream st; pool := pool st;
              promise := Fulfilled; events := events st |}
      else st
  | _ => st
  end.

(** The state in which [action] creates the stream: no reader, no
    collector, nothing recorded. *)
Definition fresh (c : CtxState) : State :=
  {| ctx := c; stream := new_Stream; pool := []; promise := Pending; events := [] |}.

(** [stream.forEach(reader)] in a dispatch: the reader is attached and
    handed what was waiting, and the subscription is recorded in the
    trace at the moment it happens. *)
Definition subscribe (r : Reader) (st : State) : State :=
  let '(s, c) := forEach r (stream st) (ctx st) in
  {| ctx := c; stream := s; pool := pool st; promise := promise st;
     events := events st ++ [EvSubscribe] |}.

(** [Bluebird.map(values(services), mapper)]: one task per service,
    none of them started. *)
Definition bluebird_map (services : list Service) (st : State) : State :=
  settle
    {| ctx := ctx st; stream := stream st;
       pool := map (fun s => {| task_service := s; task_status := Unspawned |}) services;
       promise := Pending;
       events := events st |}.

Definition reject (err : Error) (p : Promise) : Promise :=
  match p with Pending => Rejected err | _ => p end.

Definition perform (eff : Effect) (s : Stream) (c : CtxState) : Stream * CtxState :=
  match eff with
  | StreamWrite e => write e s c
  | WarnLog sec m => (s, log_warn sec m c)
  end.

Section Dispatch.

(** [Date.prototype.toISOString]. *)
Variable toISOString : Date -> string.

(** The callback given to [stream.forEach]. *)
Definition display : Reader := fun entry =>
  log_info (serviceName entry) [toISOString (timestamp entry); Chalk.white (msg entry)].

Variable collab : Collaborators.
Variable env : Env.
Variable tail : option bool.

(** The mapper of [Bluebird.map]: look the handler up, call it. *)
Definition collector (service : Service) : Behaviour :=
  let handler :=
    getActionHandler collab (module_type (service_module service)) dummyLogStreamer in
  handler {| p_service := service; p_env := env; p_tail := tail |}.

Definition set_task (i : nat) (s : Status) (t : Task) (st : State) (p : Promise)
    (ev : Event) (sc : Stream * CtxState) : State :=
  {| ctx := sc.2; stream := sc.1;
     pool := <[i := {| task_service := task_service t; task_status := s |}]> (pool st);
     promise := p;
     events := events st ++ [ev] |}.

(** One step of the [i]-th collector. *)
Definition step (i : nat) (st : State) : State :=
  match pool st !! i with
  | None => st
  | Some t =>
      match task_status t with
      | Unspawned =>
          let b := collector (task_service t) in
          set_task i (Running (effects b) (ending b)) t st (promise st)
            (EvInvoke i) (stream st, ctx st)
      | Running (eff :: todo) fin =>
          set_task i (Running todo fin) t st (promise st)
            (EvEffect i eff) (perform eff (stream st) (ctx st))
      | Running [] Finishes =>
          settle (set_task i Done t st (promise st) (EvDone i) (stream st, ctx st))
      | Running [] (Throws err) =>
          set_task i (Failed err) t st (reject err (promise st))
            (EvThrow i err) (stream st, ctx st)
      | Running [] Hangs => st
      | Done | Failed _ => st
      end
  end.

Definition run (sched : list nat) (st : State) : State :=
  foldl (fun st i => step i st) st sched.

End Dispatch.

(** *** [LogsCommand.action] *)

Record Args := { arg_service : option string }.
Record Opts := { opt_env : option Env; opt_tail : option bool }.

(** How the call stands when the schedule is used up: the promise of
    [action] resolved with the result, rejected, or is still awaiting
    the collectors. *)
Inductive Outcome :=
| Returned (result : list ServiceLogEntry)
| Raised (err : Error)
| Awaiting.

(** [final] is [None] when the call never created its stream. *)
Record Result :=
  { outcome : Outcome; final_ctx : CtxState; final : option State }.

Definition action (toISOString : Date -> string) (collab : Collaborators)
    (args : Args) (opts : Opts) (sched : list nat) (c : CtxState) : Result :=
  let c :=
    match JsString.truthy (opt_env opts) with
    | Some e => setEnvironment e c
    | None => c
    end in
  let env := getEnvironment c in
  let names :=
    match JsString.truthy (arg_service args) with
    | Some s => Some (JsString.split "," s)
    | None => None
    end in
  match getServices collab names with
  | inl err => {| outcome := Raised err; final_ctx := c; final := None |}
  | inr services =>
      let result : list ServiceLogEntry := [] in
      let st := fresh c in
      let st := subscribe (display toISOString) st in
      let st := bluebird_map services st in
      let st := run collab env (opt_tail opts) sched st in
      {| outcome :=
           match promise st with
           | Fulfilled => Returned result
           | Rejected err => Raised err
           | Pending => Awaiting
           end;
         final_ctx := ctx st;
         final := Some st |}
  end.

(** *** Reading a trace *)

(** The effects the [i]-th collector has performed, in order. *)
Definition effects_of (i : nat) (evs : list Event) : list Effect :=
  omap (fun ev =>
          match ev with
          | EvEffect j eff => if Nat.eqb j i then Some eff else None
          | _ => None
          end) evs.

(** All effects performed, in order of arrival. *)
Definition all_effects (evs : list Event) : list Effect :=
  omap (fun ev => match ev with EvEffect _ eff => Some eff | _ => None end) evs.

(** The entries among some effects. *)
Definition entries_of (effs : list Effect) : list ServiceLogEntry :=
  omap (fun eff => match eff with StreamWrite e => Some e | WarnLog _ _ => None end) effs.

(** The line an effect leaves in [ctx.log] when the display reader is
    attached to the stream. *)
Definition line_of (toISOString : Date -> string) (eff : Effect) : LogLine :=
  match eff with
  | StreamWrite e =>
      {| level := LInfo; section := serviceName e;
         parts := [toISOString (timestamp e); Chalk.white (msg e)] |}
  | WarnLog sec m => {| level := LWarn; section := sec; parts := [m] |}
  end.

Definition is_subscribe (ev : Event) : bool :=
  match ev with EvSubscribe => true | _ => false end.

(** The collector an event belongs to, and the part of a trace that
    belongs to the [i]-th collector. *)
Definition owned_by (i : nat) (ev : Event) : bool :=
  match ev with
  | EvSubscribe => false
  | EvInvoke j | EvEffect j _ | EvDone j | EvThrow j _ => Nat.eqb j i
  end.

Definition life (i : nat) (evs : list Event) : list Event :=
  List.filter (owned_by i) evs.

(** What the trace of a collector must be, given the status of its
    task: the call, then a prefix of the effects of its handler, then
    how it settled. *)
Definition task_ok (b : Behaviour) (i : nat) (s : Status) (evs : list Event) : Prop :=
  match s with
  | Unspawned => evs = []
  | Running todo fin =>
      exists performed,
        evs = EvInvoke i :: map (EvEffect i) performed
        /\ performed ++ todo = effects b /\ fin = ending b
  | Done =>
      evs = EvInvoke i :: map (EvEffect i) (effects b) ++ [EvDone i]
      /\ ending b = Finishes
  | Failed err =>
      evs = EvInvoke i :: map (EvEffect i) (effects b) ++ [EvThrow i err]
      /\ ending b = Throws err
  end.

(** Steps a collector takes to run to its end: the call, one step per
    effect, and the step that settles it (none for one that hangs). *)
Definition steps_needed (b : Behaviour) : nat :=
  1 + length (effects b) + match ending b with Hangs => 0 | _ => 1 end.

(** Steps a task still has to take. *)
Definition need (collab : Collaborators) (env : Env) (tail : option bool)
    (t : Task) : nat :=
  match task_status t with
  | Unspawned => steps_needed (collector collab env tail (task_service t))
  | Running todo fin => length todo + match fin with Hangs => 0 | _ => 1 end
  | Done | Failed _ => 0
  end.

(** A schedule is adequate when it gives every collector the steps it
    needs to run to its end. *)
Fixpoint adequate_from (collab : Collaborators) (env : Env) (tail : option bool)
    (i : nat) (services : list Service) (sched : list nat) : bool :=
  match services with
  | [] => true
  | s :: rest =>
      (steps_needed (collector collab env tail s) <=? count_occ Nat.eq_dec sched i)%nat
      && adequate_from collab env tail (S i) rest sched
  end.

Definition adequate (collab : Collaborators) (env : Env) (tail : option bool)
    (services : list Service) (sched : list nat) : bool :=
  adequate_from collab env tail 0 services sched.

(** The context after [opts.env && ctx.setEnvironment(opts.env)]. *)
Definition prepared (opts : Opts) (c : CtxState) : CtxState :=
  match JsString.truthy (opt_env opts) with
  | Some e => setEnvironment e c
  | None => c
  end.

(** The state in which [action] awaits [Bluebird.map]: the reader is
    attached and no collector has been called yet. *)
Definition start (toISOString : Date -> string) (services : list Service)
    (c : CtxState) : State :=
  bluebird_map services (subscribe (display toISOString) (fresh c)).

(** The error of the first collector that threw, in a trace. *)
Fixpoint first_throw (evs : list Event) : option Error :=
  match evs with
  | [] => None
  | EvThrow _ err :: _ => Some err
  | _ :: evs' => first_throw evs'
  end.

Definition outcome_of (p : Promise) : Outcome :=
  match p with
  | Fulfilled => Returned []
  | Rejected err => Raised err
  | Pending => Awaiting
  end.

(** [env] and [names] as [action] computes them. *)
Definition env_of (opts : Opts) (c : CtxState) : Env :=
  getEnvironment (prepared opts c).

Definition names_of (args : Args) : option (list string) :=
  match JsString.truthy (arg_service args) with
  | Some s => Some (JsString.split "," s)
  | None => None
  end.

(** *** Invariants of a dispatch *)

(** A step of collector [i] is one of five transitions, or leaves the
    state as it is. *)
Inductive step_spec (collab : Collaborators) (env : Env) (tail : option bool)
    (i : nat) (st : State) : State -> Prop :=
| step_idle : 
    (forall t, pool st !! i = Some t -> need collab env tail t = 0) ->
    step_spec collab env tail i st st
| step_invoke t :
    pool st !! i = Some t -> task_status t = Unspawned ->
    step_spec collab env tail i st
      (set_task i (Running (effects (collector collab env tail (task_service t)))
                           (ending (collector collab env tail (task_service t))))
         t st (promise st) (EvInvoke i) (stream st, ctx st))
| step_effect t eff todo fin :
    pool st !! i = Some t -> task_status t = Running (eff :: todo) fin ->
    step_spec collab env tail i st
      (set_task i (Running todo fin) t st (promise st) (EvEffect i eff)
         (perform eff (stream st) (ctx st)))
| step_done t :
    pool st !! i = Some t -> task_status t = Running [] Finishes ->
    step_spec collab env tail i st
      (settle (set_task i Done t st (promise st) (EvDone i) (stream st, ctx st)))
| step_throw t err :
    pool st !! i = Some t -> task_status t = Running [] (Throws err) ->
    step_spec collab env tail i st
      (set_task i (Failed err) t st (reject err (promise st)) (EvThrow i err)
         (stream st, ctx st)).

(** The reader is attached, nothing waits, the stream is never ended,
    and the display log is the trace of effects, line for line. *)
Definition wired (toISOString : Date -> string) (c0 : CtxState) (st : State) : Prop :=
  reader (stream st) = Some (display toISOString)
  /\ waiting (stream st) = []
  /\ ended (stream st) = false
  /\ environment (ctx st) = environment c0
  /\ log (ctx st) = log c0 ++ map (line_of toISOString) (all_effects (events st)).

(** The trace starts with the subscription, which happens once. *)
Definition subscribed_first (st : State) : Prop :=
  exists evs, events st = EvSubscribe :: evs
              /\ forallb (fun ev => negb (is_subscribe ev)) evs = true.

(** Every task carries its service, and the trace of every collector
    fits the status of its task. *)
Definition pool_ok (collab : Collaborators) (env : Env) (tail : option bool)
    (services : list Service) (st : State) : Prop :=
  map task_service (pool st) = services
  /\ forall i,
      match pool st !! i with
      | Some t =>
          task_ok (collector collab env tail (task_service t)) i
            (task_status t) (life i (events st))
      | None => life i (events st) = []
      end.

(** A task that can still take a step. *)
Definition active (s : Status) : Prop :=
  match s with Unspawned | Running _ _ => True | Done | Failed _ => False end.

(** The promise of [Bluebird.map] against the pool. *)
Definition weak_ok (st : State) : Prop :=
  match promise st with
  | Pending =>
      forall i t, pool st !! i = Some t -> forall e, task_status t <> Failed e
  | Fulfilled => forall i t, pool st !! i = Some t -> task_status t = Done
  | Rejected e => exists i t, pool st !! i = Some t /\ task_status t = Failed e
  end.

Definition promise_ok (st : State) : Prop :=
  weak_ok st /\ (promise st = Pending -> forallb is_Done (pool st) = false).

(** The promise is rejected exactly with the error of the first
    collector that threw. *)
Definition thrown_ok (st : State) : Prop :=
  match first_throw (events st) with
  | Some err => promise st = Rejected err
  | None => forall err, promise st <> Rejected err
  end.

(** The diagnostic of [dummyLogStreamer] for a service. *)
Definition diagnostic (s : Service) : Effect :=
  WarnLog (service_name s)
    (Chalk.yellow ("No handler for log retrieval available for module type "
                     +:+ module_type (service_module s))).

End Logs.

(** ** Sample dispatches *)
Module LogsSamples.
Import Logs.

(** A stand-in for [toISOString]. *)
Definition iso : Date -> string := fun _ => "2018-04-01T00:00:00.000Z".

Definition svcA : Service :=
  {| service_name := "A"; service_module := {| module_type := "kindX" |} |}.
Definition svcB : Service :=
  {| service_name := "B"; service_module := {| module_type := "kindY" |} |}.
Definition svcC : Service :=
  {| service_name := "C"; service_module := {| module_type := "kindZ" |} |}.

Definition entry (s : Service) (t : Date) (m : string) : ServiceLogEntry :=
  {| serviceName := service_name s; timestamp := t; msg := m |}.

(** [kindX] writes two entries; [kindZ] fails; [kindY] has no handler. *)
Definition kindX_logs : Handler := fun p =>
  {| effects := [StreamWrite (entry (p_service p) 1%Z "hello");
                 StreamWrite (entry (p_service p) 2%Z "world")];
     ending := Finishes |}.
Definition kindZ_logs : Handler := fun p =>
  {| effects := []; ending := Throws "connection refused" |}.

Definition registry : gmap string Handler :=
  <["kindX" := kindX_logs]> (<["kindZ" := kindZ_logs]> ∅).

Definition resolving (services : list Service) : Collaborators :=
  {| getServices := fun _ => inr services; serviceLogHandlers := registry |}.
Definition not_resolving : Collaborators :=
  {| getServices := fun _ => inl "Could not find service(s)";
     serviceLogHandlers := registry |}.

Definition c0 : CtxState := {| environment := "dev"; log := [] |}.
Definition no_args : Args := {| arg_service := None |}.
Definition no_opts : Opts := {| opt_env := None; opt_tail := None |}.

End LogsSamples.

(** ** The debug-logfile helpers: [prepareDebugLogfiles], [makeLogfileName] *)
Module Logfiles.

Definition logfileExpiryDays : Z := 7.

(** [lstat]: only the birth time is read (milliseconds since the
    epoch). *)
Record Stats := { birthtime : Z }.

Inductive LogLevel := Debug | Warning.

(** The logs directory, when its path exists, maps the names of its
    entries to their stats; [fs_log] is what was given to [log]. *)
Record World :=
  { logsDir : option (gmap string Stats); fs_log : list (LogLevel * string) }.

(** [filename.match(/debug.*\.log/)] and [filename.match(/json.*\.log/)]. *)
Definition matches_debug (filename : string) : bool :=
  JsString.matches_pre_any_post "debug" ".log" filename.
Definition matches_json (filename : string) : bool :=
  JsString.matches_pre_any_post "json" ".log" filename.

(** Modelled from the spec: [listDirectory(logsDirPath, { recursive:
    false })] (util/fs is not among the sources) gives the names of the
    entries of the directory, which the job is keyed by. *)
Definition listDirectory (d : gmap string Stats) : list string :=
  (map_to_list d).*1.

(** Where a call of the mapper of [Bluebird.map(filenames, ...)] stands:
    not called yet, awaiting [lstat], awaiting [remove], returned, or
    rejected. *)
Inductive Phase :=
| Waiting
| Statting
| Removing
| Finished
| Rejected (message : string).

Record Job := { job_file : string; job_phase : Phase }.

(** The promise of [Bluebird.map] against its [.catch]: no mapper has
    rejected, one has and the handler is still to run, or the handler
    has run. *)
Inductive Catch :=
| Quiet
| Raised (message : string)
| Warned.

(** The cleanup that [prepareDebugLogfiles] starts: the directory and
    the log it acts on, one job per file name, and the state of
    [.catch]. *)
Record Cleanup :=
  { dir : gmap string Stats;
    lines : list (LogLevel * string);
    jobs : list Job;
    caught : Catch }.

Section Cleanup.

(** [moment(t).add(n, "days")], and the time [moment()] reads when the
    mapper handles a given file. *)
Variable add_days : Z -> Z -> Z.
Variable clock : string -> Z.

(** [moment(stat.birthtime).add(logfileExpiryDays, "days").isBefore(moment())]. *)
Definition expired (filename : string) (stat : Stats) : bool :=
  (add_days logfileExpiryDays (birthtime stat) <? clock filename)%Z.

(** Whether the cleanup removes the file [filename] with stats [stat]. *)
Definition doomed (filename : string) (stat : Stats) : bool :=
  (matches_debug filename || matches_json filename) && expired filename stat.

(** The errors with which [lstat] and [remove] reject for an entry of
    the directory, when they do, and the message of the error of
    [lstat] for a name that is not in the directory. *)
Variable lstat_error : string -> option string.
Variable remove_error : string -> option string.
Variable no_entry : string -> string.

Definition set_phase (i : nat) (j : Job) (ph : Phase) (cl : Cleanup)
    (d : gmap string Stats) (lg : list (LogLevel * string)) : Cleanup :=
  {| dir := d; lines := lg;
     jobs := <[i := {| job_file := job_file j; job_phase := ph |}]> (jobs cl);
     caught := caught cl |}.

(** A mapper rejects: the promise of [Bluebird.map] rejects with the
    first rejection; the other mappers go on. *)
Definition reject_job (i : nat) (j : Job) (message : string) (cl : Cleanup) : Cleanup :=
  {| dir := dir cl; lines := lines cl;
     jobs := <[i := {| job_file := job_file j; job_phase := Rejected message |}]>
               (jobs cl);
     caught := match caught cl with Quiet => Raised message | c => c end |}.

(** One step of the mapper for the [i]-th file name: the call, with the
    test of the name against the two patterns and the call of [lstat];
    the completion of [lstat], with the test of the birth time, the
    debug line and the call of [remove]; the completion of [remove]. *)
Definition mapper_step (i : nat) (j : Job) (cl : Cleanup) : Cleanup :=
  let filename := job_file j in
  match job_phase j with
  | Waiting =>
      if negb (matches_debug filename) && negb (matches_json filename)
      then set_phase i j Finished cl (dir cl) (lines cl)
      else set_phase i j Statting cl (dir cl) (lines cl)
  | Statting =>
      match lstat_error filename, dir cl !! filename with
      | Some message, _ => reject_job i j message cl
      | None, None => reject_job i j (no_entry filename) cl
      | None, Some stat =>
          if expired filename stat
          then set_phase i j Removing cl (dir cl)
                 (lines cl
                    ++ [(Debug, "file " +:+ filename +:+ " is older than "
                                  +:+ pretty logfileExpiryDays
                                  +:+ " days, deleting...")])
          else set_phase i j Finished cl (dir cl) (lines cl)
      end
  | Removing =>
      match remove_error filename with
      | Some message => reject_job i j message cl
      | None => set_phase i j Finished cl (delete filename (dir cl)) (lines cl)
      end
  | Finished | Rejected _ => cl
  end.

(** The handler of [.catch]: one warning, for the first rejection. *)
Definition catch_step (cl : Cleanup) : Cleanup :=
  match caught cl with
  | Raised message =>
      {| dir := dir cl;
         lines := lines cl
                    ++ [(Warning,
                         "An error occurred while cleaning up debug logfiles: "
                           +:+ message)];
         jobs := jobs cl; caught := Warned |}
  | Quiet | Warned => cl
  end.

(** One step of the cleanup: of the mapper for the [i]-th file name,
    or, for [i] the number of file names, of the handler of [.catch]. *)
Definition clean_step (i : nat) (cl : Cleanup) : Cleanup :=
  match jobs cl !! i with
  | Some j => mapper_step i j cl
  | None => if (i =? length (jobs cl))%nat then catch_step cl else cl
  end.

(** The mappers run concurrently: [sched] lists, in order, which of
    them takes its next step. *)
Definition clean_run (sched : list nat) (cl : Cleanup) : Cleanup :=
  foldl (fun cl i => clean_step i cl) cl sched.

(** The cleanup as [Bluebird.map] starts it. *)
Definition start_cleanup (d : gmap string Stats) (lg : list (LogLevel * string))
    : Cleanup :=
  {| dir := d; lines := lg;
     jobs := map (fun filename => {| job_file := filename; job_phase := Waiting |})
               (listDirectory d);
     caught := Quiet |}.

(** [makeLogfileName]; [nowISO] is [new Date().toISOString()]. *)
Definition makeLogfileName (nowISO : string)
    (logLevel commandFullName extension : string) : string :=
  JsString.replace_char " " "-" commandFullName
    +:+ "." +:+ logLevel +:+ "." +:+ nowISO +:+ "." +:+ extension.

Record LogfileNames := { debugLogfileName : string; jsonLogfileName : string }.

(** [prepareDebugLogfiles].  The cleanup is started and not awaited:
    the names are returned at once, and the world given with them is
    the one in which the cleanup has taken the steps of [sched], none
    of them at the moment the function returns. *)
Definition prepareDebugLogfiles (sched : list nat) (nowISO1 nowISO2 : string)
    (w : World) (commandFullName : string) : World * LogfileNames :=
  let w' :=
    match logsDir w with
    | Some d =>
        let cl := clean_run sched (start_cleanup d (fs_log w)) in
        {| logsDir := Some (dir cl); fs_log := lines cl |}
    | None => w
    end in
  (w', {| debugLogfileName := makeLogfileName nowISO1 "debug" commandFullName "log";
          jsonLogfileName := makeLogfileName nowISO2 "silly" commandFullName "jsonl" |}).

(** Every mapper gets the three steps it can take. *)
Definition complete (n : nat) (sched : list nat) : bool :=
  forallb (fun i => (3 <=? count_occ Nat.eq_dec sched i)%nat) (seq 0 n).

(** Where the mapper for [filename] stands after [n] steps of its own,
    and whether it has removed the file by then. *)
Definition phase_after (n : nat) (filename : string) (stat : Stats) : Phase :=
  match n with
  | 0 => Waiting
  | S n =>
      if negb (matches_debug filename) && negb (matches_json filename)
      then Finished
      else
        match n with
        | 0 => Statting
        | S n =>
            match lstat_error filename with
            | Some message => Rejected message
            | None =>
                if expired filename stat
                then
                  match n with
                  | 0 => Removing
                  | S _ =>
                      match remove_error filename with
                      | Some message => Rejected message
                      | None => Finished
                      end
                  end
                else Finished
            end
        end
  end.

Definition succeeds (error : string -> option string) (filename : string) : bool :=
  match error filename with Some _ => false | None => true end.

Definition removed_after (n : nat) (filename : string) (stat : Stats) : bool :=
  doomed filename stat && (3 <=? n)%nat
  && succeeds lstat_error filename && succeeds remove_error filename.

(** The cleanup of the directory [d] after the steps of [sched]: every
    mapper stands where its own steps have brought it, and the
    directory has lost the files removed so far and nothing else. *)
Definition cleanup_ok (d : gmap string Stats) (sched : list nat) (cl : Cleanup)
    : Prop :=
  length (jobs cl) = length (listDirectory d)
  /\ (forall i filename,
        listDirectory d !! i = Some filename ->
        exists stat,
          d !! filename = Some stat
          /\ jobs cl !! i
             = Some {| job_file := filename;
                       job_phase :=
                         phase_after (count_occ Nat.eq_dec sched i) filename stat |}
          /\ dir cl !! filename
             = if removed_after (count_occ Nat.eq_dec sched i) filename stat
               then None else Some stat)
  /\ (forall filename, d !! filename = None -> dir cl !! filename = None).

End Cleanup.

(** Day arithmetic without daylight-saving shifts. *)
Definition add_days_utc (n : Z) (t : Z) : Z := (t + n * 86400000)%Z.

End Logfiles.

(** ** [core/src/commands/cloud/users/users-list.ts] *)
Module Users.

(** [UserResult] of [../helpers]. *)
Record Group := { group_name : string }.
Record UserResult :=
  { user_id : Z;
    name : string;
    vcsUsername : option string;
    groups : list Group;
    createdAt : string }.

(** The second argument of [applyFilter]: a string or an array. *)
Inductive FilterValue := One (v : string) | Many (vs : list string).

(** What [action] throws: its own two errors, the rejection of an
    awaited API call, and the [RangeError] of a call with too many
    arguments. *)
Inductive Error :=
| ConfigurationError (message : string)
| CloudApiError (message : string)
| Rejection (message : string)
| RangeError (message : string).

Inductive Outcome :=
| Resolved (result : list UserResult)
| Thrown (err : Error)
| Fetching.

Inductive Level := LDebug | LInfo.

Record CloudProject := { repositoryUrl : string }.

(** [sortBy(users, "name")]: a stable sort, ascending in the order of
    the code units of the names. *)
Fixpoint insert_by_name (u : UserResult) (l : list UserResult) : list UserResult :=
  match l with
  | [] => [u]
  | v :: l' =>
      if String.leb (name u) (name v) then u :: l else v :: insert_by_name u l'
  end.

Definition sortBy_name (users : list UserResult) : list UserResult :=
  foldr insert_by_name [] users.

(** The order [sortBy] sorts in. *)
Definition name_le (u v : UserResult) : Prop :=
  String.leb (name u) (name v) = true.

Section UsersList.

(** The items of [ListUsersResponse], and the helpers and renderers
    that are not part of this file. *)
Variable UserResponse : Type.
Variable makeUserFromResponse : UserResponse -> UserResult.
Variable applyFilter : list string -> FilterValue -> bool.
Variable noApiMsg : string -> string -> string.
Variable getCloudDistributionName : string -> string.
Variable renderTable : list (list string) -> string.
Variable toUTCString : string -> string.
Variable bold : string -> string.
Variable cyan_bold : string -> string.

(** The number of arguments a call can take: [users.push(...items)]
    throws a [RangeError] beyond it. *)
Variable max_arguments : nat.

(** [garden.cloudApi]: [get_users page] is the [data] of
    [api.get("/users?page=" + page)].  Both calls are awaited and may
    reject ([inl], with the message of the error). *)
Record CloudApi :=
  { domain : string;
    getProjectById : string -> string + option CloudProject;
    get_users : nat -> string + list UserResponse }.

Record Garden :=
  { cloudApi : option CloudApi; projectId : option string; projectName : string }.

Record Opts :=
  { filter_names : option (list string); filter_groups : option (list string) }.

(** How the [while (hasMore)] loop ends: with the users of the pages,
    with an error, or not within the bound on the number of pages
    requested. *)
Inductive Fetch :=
| Fetched (users : list UserResult)
| Failed (err : Error)
| Unfinished.

Fixpoint fetch (api : CloudApi) (fuel : nat) (page : nat)
    (users : list UserResult) (lg : list (Level * string))
    : Fetch * list (Level * string) :=
  match fuel with
  | 0 => (Unfinished, lg)
  | S fuel' =>
      let lg := lg ++ [(LDebug, "Fetching page " +:+ pretty page)] in
      match get_users api page with
      | inl message => (Failed (Rejection message), lg)
      | inr [] => (Fetched users, lg)
      | inr res =>
          if (max_arguments <? length res)%nat
          then (Failed (RangeError "Maximum call stack size exceeded"), lg)
          else fetch api fuel' (S page) (users ++ map makeUserFromResponse res) lg
      end
  end.

Definition passes_names (nameFilter : list string) (user : UserResult) : bool :=
  applyFilter nameFilter (One (name user)).

Definition passes_groups (groupFilter : list string) (user : UserResult) : bool :=
  applyFilter groupFilter (Many (map group_name (groups user))).

Definition row (u : UserResult) : list string :=
  [cyan_bold (name u);
   pretty (user_id u);
   default "" (vcsUsername u);
   String.concat ", " (map group_name (groups u));
   toUTCString (createdAt u)].

(** [UsersListCommand.action]. *)
Definition action (fuel : nat) (garden : Garden) (opts : Opts)
    (lg : list (Level * string)) : Outcome * list (Level * string) :=
  let nameFilter := default [] (filter_names opts) in
  let groupFilter := default [] (filter_groups opts) in
  match cloudApi garden with
  | None => (Thrown (ConfigurationError (noApiMsg "list" "users")), lg)
  | Some api =>
      let project :=
        match JsString.truthy (projectId garden) with
        | Some pid => getProjectById api pid
        | None => inr None
        end in
      match project with
      | inl message => (Thrown (Rejection message), lg)
      | inr None =>
          (Thrown (CloudApiError
                     ("Project " +:+ projectName garden +:+ " is not a "
                        +:+ getCloudDistributionName (domain api) +:+ " project")),
           lg)
      | inr (Some project) =>
          let vcsProviderTitle :=
            if JsString.includes "github.com" (repositoryUrl project) then "GitHub"
            else if JsString.includes "gitlab.com" (repositoryUrl project) then "GitLab"
            else "VCS" in
          match fetch api fuel 0 [] lg with
          | (Unfinished, lg) => (Fetching, lg)
          | (Failed err, lg) => (Thrown err, lg)
          | (Fetched users, lg) =>
              let lg := lg ++ [(LInfo, "")] in
              if Nat.eqb (length users) 0
              then (Resolved [], lg ++ [(LInfo, "No users found in project.")])
              else
                let filtered :=
                  List.filter (passes_groups groupFilter)
                    (List.filter (passes_names nameFilter) (sortBy_name users)) in
                if Nat.eqb (length filtered) 0
                then (Resolved [],
                      lg ++ [(LInfo, "No users found in project that match filters.")])
                else
                  let lg :=
                    lg ++ [(LDebug, "Found " +:+ pretty (length filtered)
                                      +:+ " users that match filters")] in
                  let heading :=
                    map bold ["Name"; "ID"; vcsProviderTitle +:+ " Username";
                              "Groups"; "Created At"] in
                  let rows := map row filtered in
                  (Resolved filtered, lg ++ [(LInfo, renderTable (heading :: rows))])
          end
      end
  end.

(** The result of [action] once the pages are fetched. *)
Definition listing (opts : Opts) (users : list UserResult) : list UserResult :=
  List.filter (passes_groups (default [] (filter_groups opts)))
    (List.filter (passes_names (default [] (filter_names opts)))
       (sortBy_name users)).

(** The users of the pages before page [n]. *)
Definition fetched (api : CloudApi) (n : nat) : list UserResult :=
  flat_map (fun page =>
              match get_users api page with
              | inr res => map makeUserFromResponse res
              | inl _ => []
              end) (seq 0 n).

(** Page [n] is the first empty page: the requests up to it succeed,
    and the pages before it hold users, each few enough to be pushed in
    one call. *)
Definition first_empty_page (api : CloudApi) (n : nat) : Prop :=
  get_users api n = inr []
  /\ forall k, k < n ->
       exists res, get_users api k = inr res /\ res <> []
                   /\ length res <= max_arguments.

(** The project [action] looks up: none without a project id (an
    empty id counts as none). *)
Definition project_of (garden : Garden) (api : CloudApi) : string + option CloudProject :=
  match JsString.truthy (projectId garden) with
  | Some pid => getProjectById api pid
  | None => inr None
  end.

(** The title of the user name column. *)
Definition vcs_title (project : CloudProject) : string :=
  if JsString.includes "github.com" (repositoryUrl project) then "GitHub"
  else if JsString.includes "gitlab.com" (repositoryUrl project) then "GitLab"
  else "VCS".

End UsersList.

End Users.

(** ** Sample data for the logfile helpers and the users listing *)
Module Samples.

Definition logs_dir : gmap string Logfiles.Stats :=
  list_to_map
    [("deploy.debug.2023-01-01T00:00:00.000Z.log", {| Logfiles.birthtime := 0 |});
     ("deploy.debug.2023-02-01T00:00:00.000Z.log",
      {| Logfiles.birthtime := 1000000000 |});
     ("notes.txt", {| Logfiles.birthtime := 0 |})].

Definition at_day_eight : string -> Z := fun _ => 700000000%Z.

(** A run of the cleanup of [logs_dir]: the three mappers are called
    one after the other, then their calls of [lstat] and [remove]
    complete in some order. *)
Definition cleanup_schedule : list nat := [0; 1; 2; 2; 1; 1; 0; 0; 2]%nat.

Definition tools : Users.Group := {| Users.group_name := "tools" |}.
Definition devs : Users.Group := {| Users.group_name := "devs" |}.

Definition user (n : string) (gs : list Users.Group) : Users.UserResult :=
  {| Users.user_id := 1; Users.name := n; Users.vcsUsername := None;
     Users.groups := gs; Users.createdAt := "2023-01-01" |}.

(** Two pages of users, then an empty page. *)
Definition api : Users.CloudApi Users.UserResult :=
  {| Users.domain := "https://app.garden.io";
     Users.getProjectById := fun _ =>
       inr (Some {| Users.repositoryUrl := "https://github.com/garden-io/garden" |});
     Users.get_users := fun page =>
       inr match page with
           | 0 => [user "Gordon" [devs]; user "Alyx" [tools]]
           | 1 => [user "Eli" [devs; tools]]
           | _ => []
           end |}.

Definition garden : Users.Garden Users.UserResult :=
  {| Users.cloudApi := Some api; Users.projectId := Some "p1";
     Users.projectName := "demo" |}.

(** A stand-in for [applyFilter]: an empty filter passes everything,
    otherwise some value must be listed in the filter. *)
Definition member (v : string) (l : list string) : bool :=
  existsb (String.eqb v) l.
Definition listed (filter : list string) (v : Users.FilterValue) : bool :=
  match filter with
  | [] => true
  | _ =>
      match v with
      | Users.One s => member s filter
      | Users.Many vs => existsb (fun s => member s filter) vs
      end
  end.

Definition only_devs : Users.Opts :=
  {| Users.filter_names := None; Users.filter_groups := Some ["devs"] |}.

Definition run_list (fuel : nat) : Users.Outcome * list (Users.Level * string) :=
  Users.action Users.UserResult (fun u => u) listed
    (fun _ _ => "no api") (fun _ => "Garden Cloud")
    (String.concat ";" ∘ map (String.concat ",")) (fun s => s) (fun s => s)
    (fun s => s) 1000 fuel garden only_devs [].

End Samples.

(** ** Reading traces, file names and reports *)
Module Reading.

(** The calls of the handler of the [i]-th service in a trace. *)
Definition is_invoke_of (i : nat) (ev : Logs.Event) : bool :=
  match ev with Logs.EvInvoke j => Nat.eqb j i | _ => false end.

Definition invocations (i : nat) (evs : list Logs.Event) : list Logs.Event :=
  List.filter (is_invoke_of i) evs.

(** No code unit of [s] is a line terminator. *)
Fixpoint no_line_terminator (s : string) : bool :=
  match s with
  | EmptyString => true
  | String a s' => negb (JsString.is_line_terminator a) && no_line_terminator s'
  end.

(** [s] starts with the letter [l]; [s] has a dot directly followed by
    the letter [l]. *)
Definition starts_with_l (s : string) : bool :=
  match s with
  | EmptyString => false
  | String a _ => Ascii.eqb a "l"%char
  end.

Fixpoint has_dot_l (s : string) : bool :=
  match s with
  | EmptyString => false
  | String a s' => (Ascii.eqb a "."%char && starts_with_l s') || has_dot_l s'
  end.

(** The line [prepareDebugLogfiles] logs when it deletes a file. *)
Definition deleting_line (filename : string) : Logfiles.LogLevel * string :=
  (Logfiles.Debug,
   "file " +:+ filename +:+ " is older than "
     +:+ pretty Logfiles.logfileExpiryDays +:+ " days, deleting...").

(** Whether the cleanup removes the entry named [filename] of the
    directory [d]. *)
Definition doomed_in (add_days : Z -> Z -> Z) (clock : string -> Z)
    (d : gmap string Logfiles.Stats) (filename : string) : bool :=
  match d !! filename with
  | Some stat => Logfiles.doomed add_days clock filename stat
  | None => false
  end.

(** Whether a user passes the name filter and the group filter. *)
Definition passes_both (applyFilter : list string -> Users.FilterValue -> bool)
    (opts : Users.Opts) (u : Users.UserResult) : bool :=
  Users.passes_names applyFilter (default [] (Users.filter_names opts)) u
  && Users.passes_groups applyFilter (default [] (Users.filter_groups opts)) u.

(** The line [UsersListCommand.action] logs before it requests a page. *)
Definition fetch_line (page : nat) : Users.Level * string :=
  (Users.LDebug, "Fetching page " +:+ pretty page).

(** The lines of the cleanup, by level. *)
Definition is_debug (l : Logfiles.LogLevel * string) : bool :=
  match l.1 with Logfiles.Debug => true | Logfiles.Warning => false end.
Definition is_warning (l : Logfiles.LogLevel * string) : bool :=
  match l.1 with Logfiles.Debug => false | Logfiles.Warning => true end.

(** The warning of the handler of [.catch] for an error with the
    message [message]. *)
Definition warning_line (message : string) : Logfiles.LogLevel * string :=
  (Logfiles.Warning,
   "An error occurred while cleaning up debug logfiles: " +:+ message).

Section CleanupLines.

Variable add_days : Z -> Z -> Z.
Variable clock : string -> Z.
Variable lstat_error remove_error : string -> option string.

(** The mapper for [filename] has logged that it deletes the file: the
    file matches and is expired, [lstat] has not failed for it, and the
    mapper has taken its second step. *)
Definition logged (d : gmap string Logfiles.Stats) (sched : list nat)
    (filename : string) : Prop :=
  exists i stat,
    Logfiles.listDirectory d !! i = Some filename
    /\ d !! filename = Some stat
    /\ Logfiles.doomed add_days clock filename stat = true
    /\ lstat_error filename = None
    /\ 2 <= count_occ Nat.eq_dec sched i.

(** [message] is the message of a call of [lstat] or [remove] that
    fails for an entry of the directory. *)
Definition failure (d : gmap string Logfiles.Stats) (message : string) : Prop :=
  exists filename,
    filename ∈ Logfiles.listDirectory d
    /\ (lstat_error filename = Some message
        \/ remove_error filename = Some message).

(** The log while the cleanup runs: the lines given to it are the
    debug lines of the mappers that have logged, each once, and the
    warning of the handler of [.catch] once it has run. *)
Definition lines_ok (d : gmap string Logfiles.Stats)
    (lg : list (Logfiles.LogLevel * string)) (sched : list nat)
    (cl : Logfiles.Cleanup) : Prop :=
  exists ls fs,
    Logfiles.lines cl = lg ++ ls
    /\ List.filter is_debug ls = map deleting_line fs
    /\ NoDup fs
    /\ (forall filename, filename ∈ fs <-> logged d sched filename)
    /\ match Logfiles.caught cl with
       | Logfiles.Quiet => List.filter is_warning ls = []
       | Logfiles.Raised message =>
           List.filter is_warning ls = [] /\ failure d message
       | Logfiles.Warned =>
           exists message,
             List.filter is_warning ls = [warning_line message]
             /\ failure d message
       end.

End CleanupLines.

End Reading.

(** ** A sample dispatch in tail mode *)
Module TailSamples.
Import Logs.

(** A handler that writes what it has and, when tailing, stays
    pending. *)
Definition following : Handler := fun p =>
  {| effects := [StreamWrite (LogsSamples.entry (p_service p) 1%Z "started")];
     ending := match p_tail p with Some true => Hangs | _ => Finishes end |}.

Definition collab : Collaborators :=
  {| getServices := fun _ => inr [LogsSamples.svcA];
     serviceLogHandlers := <["kindX" := following]> ∅ |}.


End TailSamples.


(** ** Sample cloud APIs *)
Module UsersSamples.

Definition project : Users.CloudProject :=
  {| Users.repositoryUrl := "https://gitlab.com/garden-io/garden" |}.

(** An API that has users on every page. *)
Definition endless : Users.CloudApi Users.UserResult :=
  {| Users.domain := "https://app.garden.io";
     Users.getProjectById := fun _ => inr (Some project);
     Users.get_users := fun _ => inr [Samples.user "Gordon" [Samples.devs]] |}.

(** An API whose second page request is rejected. *)
Definition failing : Users.CloudApi Users.UserResult :=
  {| Users.domain := "https://app.garden.io";
     Users.getProjectById := fun _ => inr (Some project);
     Users.get_users := fun page =>
       match page with
       | 0 => inr [Samples.user "Gordon" [Samples.devs]]
       | _ => inl "503 Service Unavailable"
       end |}.

Definition garden_of (api : Users.CloudApi Users.UserResult)
    : Users.Garden Users.UserResult :=
  {| Users.cloudApi := Some api; Users.projectId := Some "p1";
     Users.projectName := "demo" |}.

Definition no_filters : Users.Opts :=
  {| Users.filter_names := None; Users.filter_groups := None |}.

(** A stand-in for [renderTable]. *)
Definition table (rows : list (list string)) : string :=
  String.concat ";" (map (String.concat ",") rows).

(** [Users.action] with the stand-ins of [Samples.run_list]. *)
Definition list_users (fuel : nat) (garden : Users.Garden Users.UserResult)
    (opts : Users.Opts) : Users.Outcome * list (Users.Level * string) :=
  Users.action Users.UserResult (fun u => u) Samples.listed
    (fun _ _ => "no api") (fun _ => "Garden Cloud") table (fun s => s) (fun s => s)
    (fun s => s) 1000 fuel garden opts [].

End UsersSamples.

(** * Facts about [LogsCommand.action] *)

Import Logs.

Lemma pool_settle st : pool (settle st) = pool st.
Proof. unfold settle. destruct (promise st); [|done..]. by destruct (forallb _ _). Qed.

Lemma events_settle st : events (settle st) = events st.
Proof. unfold settle. destruct (promise st); [|done..]. by destruct (forallb _ _). Qed.

Lemma ctx_settle st : ctx (settle st) = ctx st.
Proof. unfold settle. destruct (promise st); [|done..]. by destruct (forallb _ _). Qed.

Lemma stream_settle st : stream (settle st) = stream st.
Proof. unfold settle. destruct (promise st); [|done..]. by destruct (forallb _ _). Qed.

Lemma effects_of_snoc i evs ev :
  effects_of i (evs ++ [ev]) = effects_of i evs ++ effects_of i [ev].
Proof. unfold effects_of. by rewrite omap_app. Qed.

Lemma all_effects_snoc evs ev :
  all_effects (evs ++ [ev]) = all_effects evs ++ all_effects [ev].
Proof. unfold all_effects. by rewrite omap_app. Qed.

Lemma step_cases collab env tail i st :
  step_spec collab env tail i st (step collab env tail i st).
Proof.
  unfold step.
  destruct (pool st !! i) as [t|] eqn:Ht; [|apply step_idle; intros t'; by rewrite Ht].
  destruct (task_status t) as [|[|eff todo] [| err |]| |] eqn:Hs;
    try (apply step_idle; intros t' Ht'; rewrite Ht in Ht';
         injection Ht' as <-; unfold need; by rewrite Hs).
  - by apply step_invoke.
  - by apply step_done.
  - by apply step_throw.
  - by eapply step_effect.
  - by eapply step_effect.
  - by eapply step_effect.
Qed.

(** An invariant of every step is an invariant of every schedule. *)
Lemma run_invariant collab env tail (P : State -> Prop) :
  (forall i st, P st -> P (step collab env tail i st)) ->
  forall sched st, P st -> P (run collab env tail sched st).
Proof.
  intros Hstep sched. unfold run.
  induction sched as [|i sched IH]; intros st HP; simpl; [done|].
  apply IH, Hstep, HP.
Qed.

(** ** The stream stays wired to the display *)

Lemma perform_subscribed toISOString eff s c :
  reader s = Some (display toISOString) ->
  perform eff s c =
    (s, {| environment := environment c;
           log := log c ++ [line_of toISOString eff] |}).
Proof.
  intros Hr. destruct eff as [e|sec m]; simpl.
  - unfold write. by rewrite Hr.
  - done.
Qed.

Lemma wired_step toISOString c0 collab env tail i st :
  wired toISOString c0 st -> wired toISOString c0 (step collab env tail i st).
Proof.
  intros (Hr & Hw & He & Henv & Hlog).
  destruct (step_cases collab env tail i st) as [?|t ? ?|t eff todo fin ? ?|t ? ?|t err ? ?];
    unfold wired; rewrite ?stream_settle, ?ctx_settle, ?events_settle; simpl;
    rewrite ?all_effects_snoc, ?app_nil_r; try done.
  rewrite (perform_subscribed toISOString) by done. simpl.
  rewrite Hlog, map_app, app_assoc. done.
Qed.

(** ** The trace starts with the subscription *)

Lemma subscribed_first_step collab env tail i st :
  subscribed_first st -> subscribed_first (step collab env tail i st).
Proof.
  intros (evs & Hev & Hno).
  destruct (step_cases collab env tail i st) as [?|t ? ?|t eff todo fin ? ?|t ? ?|t err ? ?];
    unfold subscribed_first; rewrite ?events_settle; simpl; rewrite ?Hev;
    try (eexists; split; [reflexivity|]; by rewrite forallb_app, Hno).
  by exists evs.
Qed.

(** ** Every collector's trace is its handler's behaviour *)

Lemma life_snoc i evs ev :
  life i (evs ++ [ev]) = life i evs ++ (if owned_by i ev then [ev] else []).
Proof. unfold life. rewrite List.filter_app. simpl. by destruct (owned_by i ev). Qed.

Lemma map_task_service_insert i s t (p : list Task) :
  p !! i = Some t ->
  map task_service (<[i := {| task_service := task_service t; task_status := s |}]> p)
  = map task_service p.
Proof.
  revert i. induction p as [|a p IH]; intros [|i] H; simpl in *; try done.
  - by injection H as ->.
  - by rewrite IH.
Qed.

(** The shape shared by the four transitions: task [i] takes status
    [s'] and the event [ev], owned by [i], is appended. *)
Lemma pool_ok_set collab env tail services i t s' p ev sc st :
  pool_ok collab env tail services st ->
  pool st !! i = Some t ->
  owned_by i ev = true ->
  (forall j, j <> i -> owned_by j ev = false) ->
  (task_ok (collector collab env tail (task_service t)) i (task_status t)
     (life i (events st)) ->
   task_ok (collector collab env tail (task_service t)) i s'
     (life i (events st) ++ [ev])) ->
  pool_ok collab env tail services (set_task i s' t st p ev sc).
Proof.
  intros [Hsv Hok] Ht Hown Hother Hnext. split; simpl.
  - by rewrite map_task_service_insert.
  - intros j. destruct (decide (j = i)) as [->|Hne].
    + rewrite list_lookup_insert_eq by (by eapply lookup_lt_Some).
      simpl. rewrite life_snoc, Hown. apply Hnext.
      specialize (Hok i). by rewrite Ht in Hok.
    + rewrite list_lookup_insert_ne by done.
      rewrite life_snoc, (Hother j Hne), app_nil_r. apply Hok.
Qed.

Lemma pool_ok_settle collab env tail services st :
  pool_ok collab env tail services st ->
  pool_ok collab env tail services (settle st).
Proof. unfold pool_ok. by rewrite pool_settle, events_settle. Qed.

Lemma owned_by_other i j : j <> i -> Nat.eqb i j = false.
Proof. intros. apply Nat.eqb_neq. congruence. Qed.

Lemma pool_ok_step collab env tail services i st :
  pool_ok collab env tail services st ->
  pool_ok collab env tail services (step collab env tail i st).
Proof.
  intros Hok.
  destruct (step_cases collab env tail i st)
    as [?|t Ht Hs|t eff todo fin Ht Hs|t Ht Hs|t err Ht Hs]; [done|..];
    try apply pool_ok_settle;
    (eapply pool_ok_set; [done|done|simpl; apply Nat.eqb_refl
                         |intros j Hj; simpl; by apply owned_by_other|]);
    rewrite Hs; simpl.
  - intros ->. exists []. done.
  - intros (performed & -> & Heff & Hfin). exists (performed ++ [eff]).
    rewrite map_app, <- app_assoc. done.
  - intros (performed & -> & Heff & Hfin). rewrite app_nil_r in Heff.
    by subst performed.
  - intros (performed & -> & Heff & Hfin). rewrite app_nil_r in Heff.
    by subst performed.
Qed.

(** ** The promise of [Bluebird.map] agrees with the pool *)

Lemma forallb_is_Done_lookup (p : list Task) :
  forallb is_Done p = true <->
  forall i t, p !! i = Some t -> task_status t = Done.
Proof.
  rewrite forallb_forall. split.
  - intros H i t Hi. apply list_elem_of_lookup_2, list_elem_of_In, H in Hi.
    unfold is_Done in Hi. by destruct (task_status t).
  - intros H t Hin. apply list_elem_of_In, list_elem_of_lookup_1 in Hin as [i Hi].
    unfold is_Done. by rewrite (H i t Hi).
Qed.

Lemma forallb_is_Done_false (p : list Task) i t :
  p !! i = Some t -> task_status t <> Done -> forallb is_Done p = false.
Proof.
  intros Hi Hs. destruct (forallb is_Done p) eqn:E; [|done].
  rewrite forallb_is_Done_lookup in E. by apply E in Hi.
Qed.

Lemma promise_ok_settle st : weak_ok st -> promise_ok (settle st).
Proof.
  unfold promise_ok, weak_ok, settle. intros H.
  destruct (promise st) eqn:Hp.
  - destruct (forallb is_Done (pool st)) eqn:Hall; simpl; rewrite ?Hp.
    + split; [|done]. by apply forallb_is_Done_lookup.
    + done.
  - rewrite Hp. done.
  - rewrite Hp. done.
Qed.

Lemma weak_ok_set i t s' p' ev sc st :
  weak_ok st ->
  pool st !! i = Some t ->
  active (task_status t) ->
  match s' with
  | Failed e => p' = reject e (promise st)
  | _ => p' = promise st
  end ->
  weak_ok (set_task i s' t st p' ev sc).
Proof.
  intros Hok Ht Hact Hp'.
  assert (Hi : i < length (pool st)) by (by eapply lookup_lt_Some).
  assert (Hkeep : forall j t' e, pool st !! j = Some t' -> task_status t' = Failed e ->
            <[i:={| task_service := task_service t; task_status := s' |}]> (pool st) !! j
            = Some t').
  { intros j t' e Hj Hs. rewrite list_lookup_insert_ne; [done|].
    intros ->. rewrite Ht in Hj. injection Hj as ->. by rewrite Hs in Hact. }
  unfold weak_ok in *. simpl.
  destruct (promise st) eqn:Hprom.
  - (* pending *)
    destruct s'; subst p'; simpl.
    1-3: intros j t' Hj e; destruct (decide (j = i)) as [->|Hne];
      [rewrite list_lookup_insert_eq in Hj by done; by injection Hj as <-
      |rewrite list_lookup_insert_ne in Hj by done; by eapply Hok].
    exists i, {| task_service := task_service t; task_status := Failed err |}.
    by rewrite list_lookup_insert_eq.
  - (* fulfilled: no task was active *)
    apply Hok in Ht. by rewrite Ht in Hact.
  - destruct Hok as (j & t' & Hj & Hs).
    assert (p' = Rejected err) as -> by (by destruct s'; subst p').
    exists j, t'. split; [by eapply Hkeep|done].
Qed.

Lemma promise_ok_set i t s' p' ev sc st :
  promise_ok st ->
  pool st !! i = Some t ->
  active (task_status t) ->
  s' <> Done ->
  match s' with
  | Failed e => p' = reject e (promise st)
  | _ => p' = promise st
  end ->
  promise_ok (set_task i s' t st p' ev sc).
Proof.
  intros [Hok Hpend] Ht Hact Hs' Hp'. split; [by apply weak_ok_set|].
  simpl. intros _.
  eapply (forallb_is_Done_false _ i
            {| task_service := task_service t; task_status := s' |}); [|exact Hs'].
  apply list_lookup_insert_eq. by eapply lookup_lt_Some.
Qed.

Lemma promise_ok_step collab env tail i st :
  promise_ok st -> promise_ok (step collab env tail i st).
Proof.
  intros Hok.
  destruct (step_cases collab env tail i st)
    as [?|t Ht Hs|t eff todo fin Ht Hs|t Ht Hs|t err Ht Hs]; [done|..].
  - apply promise_ok_set; rewrite ?Hs; done.
  - apply promise_ok_set; rewrite ?Hs; done.
  - apply promise_ok_settle, weak_ok_set; rewrite ?Hs; try done. apply Hok.
  - apply promise_ok_set; rewrite ?Hs; done.
Qed.

(** ** Progress: an adequate schedule runs every collector to its end *)

Lemma need_set collab env tail i t s' p ev sc st j t' :
  pool st !! i = Some t ->
  S (need collab env tail {| task_service := task_service t; task_status := s' |})
  = need collab env tail t ->
  pool (set_task i s' t st p ev sc) !! j = Some t' ->
  exists t0, pool st !! j = Some t0
    /\ need collab env tail t' =
       if decide (j = i) then pred (need collab env tail t0)
       else need collab env tail t0.
Proof.
  intros Ht Hneed. simpl. destruct (decide (j = i)) as [->|Hne].
  - rewrite list_lookup_insert_eq by (by eapply lookup_lt_Some).
    intros [= <-]. exists t. split; [done|]. by rewrite <- Hneed.
  - rewrite list_lookup_insert_ne by done. intros Hj. by exists t'.
Qed.

Lemma step_need collab env tail i st j t' :
  pool (step collab env tail i st) !! j = Some t' ->
  exists t, pool st !! j = Some t
    /\ need collab env tail t' =
       if decide (j = i) then pred (need collab env tail t)
       else need collab env tail t.
Proof.
  destruct (step_cases collab env tail i st)
    as [Hidle|t Ht Hs|t eff todo fin Ht Hs|t Ht Hs|t err Ht Hs];
    rewrite ?pool_settle.
  - intros Hj. exists t'. split; [done|].
    destruct (decide (j = i)) as [->|]; [|done]. by rewrite (Hidle _ Hj).
  - apply need_set; [done|]. unfold need. rewrite Hs. simpl.
    unfold steps_needed. lia.
  - apply need_set; [done|]. unfold need. by rewrite Hs.
  - apply need_set; [done|]. unfold need. by rewrite Hs.
  - apply need_set; [done|]. unfold need. by rewrite Hs.
Qed.

Lemma run_exhausts collab env tail sched i :
  forall st,
    (forall t, pool st !! i = Some t ->
               need collab env tail t <= count_occ Nat.eq_dec sched i) ->
    forall t, pool (run collab env tail sched st) !! i = Some t ->
              need collab env tail t = 0.
Proof.
  induction sched as [|k sched IH]; intros st Hle t Hi.
  - specialize (Hle t Hi). simpl in Hle. lia.
  - simpl in Hi. eapply IH; [|exact Hi].
    intros t' Hj. apply step_need in Hj as (t0 & Hj0 & ->).
    specialize (Hle t0 Hj0). simpl in Hle.
    destruct (Nat.eq_dec k i) as [->|Hkj].
    + rewrite decide_True by done. lia.
    + rewrite decide_False by congruence. lia.
Qed.

Lemma adequate_from_spec collab env tail services sched :
  forall k,
    adequate_from collab env tail k services sched = true ->
    forall i s, services !! i = Some s ->
      steps_needed (collector collab env tail s)
      <= count_occ Nat.eq_dec sched (k + i).
Proof.
  induction services as [|s0 services IH]; intros k Had i s Hi; [done|].
  cbn [adequate_from] in Had. apply andb_true_iff in Had as [H0 Hrest].
  destruct i as [|i]; simpl in Hi.
  - injection Hi as <-. apply Nat.leb_le in H0. by rewrite Nat.add_0_r.
  - replace (k + S i) with (S k + i) by lia. by eapply IH.
Qed.

Lemma effects_of_map i (l : list Effect) (rest : list Event) :
  effects_of i (map (EvEffect i) l ++ rest) = l ++ effects_of i rest.
Proof.
  induction l as [|eff l IH]; [done|].
  simpl. unfold effects_of in *. simpl. rewrite Nat.eqb_refl. simpl. by rewrite IH.
Qed.

(** What a task that has nothing left to do looks like in the trace. *)
Lemma exhausted_task collab env tail i t evs :
  task_ok (collector collab env tail (task_service t)) i (task_status t) evs ->
  need collab env tail t = 0 ->
  effects_of i evs = effects (collector collab env tail (task_service t))
  /\ match ending (collector collab env tail (task_service t)) with
     | Finishes => task_status t = Done /\ In (EvDone i) evs
     | Throws err => task_status t = Failed err /\ In (EvThrow i err) evs
     | Hangs => task_status t = Running [] Hangs
     end.
Proof.
  unfold need, task_ok, steps_needed.
  destruct (task_status t) as [|todo fin| |err]; [lia|..].
  - intros (performed & -> & Heff & ->) Hn.
    destruct todo; [|simpl in Hn; lia].
    rewrite app_nil_r in Heff. subst performed.
    destruct (ending _); simpl in Hn; try lia.
    split; [|done].
    change (effects_of i (EvInvoke i :: ?l)) with (effects_of i l).
    rewrite <- (app_nil_r (map _ _)). by rewrite effects_of_map, app_nil_r.
  - intros [-> ->] _. split.
    + change (effects_of i (EvInvoke i :: ?l)) with (effects_of i l).
      by rewrite effects_of_map, app_nil_r.
    + split; [done|]. right. apply in_or_app. right. by left.
  - intros [-> ->] _. split.
    + change (effects_of i (EvInvoke i :: ?l)) with (effects_of i l).
      by rewrite effects_of_map, app_nil_r.
    + split; [done|]. right. apply in_or_app. right. by left.
Qed.

Lemma effects_of_life i evs : effects_of i (life i evs) = effects_of i evs.
Proof.
  induction evs as [|ev evs IH]; [done|].
  change (life i (ev :: evs))
    with (if owned_by i ev then ev :: life i evs else life i evs).
  destruct ev as [|j|j eff|j|j ?]; simpl; try destruct (Nat.eqb j i) eqn:E;
    try exact IH.
  unfold effects_of in *; simpl; rewrite E; simpl. f_equal. exact IH.
Qed.

Lemma in_life i ev evs : In ev (life i evs) -> In ev evs.
Proof. unfold life. rewrite filter_In. tauto. Qed.

(** ** [action], once the services are resolved *)

Lemma action_resolved toISOString collab args opts sched c services :
  getServices collab (names_of args) = inr services ->
  action toISOString collab args opts sched c =
    let st := run collab (env_of opts c) (opt_tail opts) sched
                (start toISOString services (prepared opts c)) in
    {| outcome := outcome_of (promise st); final_ctx := ctx st; final := Some st |}.
Proof.
  intros Hres. unfold action, names_of, env_of, prepared in *.
  rewrite Hres. simpl. unfold outcome_of. reflexivity.
Qed.

Lemma action_unresolved toISOString collab args opts sched c err :
  getServices collab (names_of args) = inl err ->
  action toISOString collab args opts sched c =
    {| outcome := Raised err; final_ctx := prepared opts c; final := None |}.
Proof.
  intros Hres. unfold action, names_of, prepared in *. by rewrite Hres.
Qed.

Lemma start_unfold toISOString services c :
  start toISOString services c
  = settle
      {| ctx := c;
         stream := {| reader := Some (display toISOString); ended := false;
                      waiting := [] |};
         pool := map (fun s => {| task_service := s; task_status := Unspawned |})
                   services;
         promise := Pending;
         events := [EvSubscribe] |}.
Proof. reflexivity. Qed.

Lemma start_pool_lookup toISOString services c i t :
  pool (start toISOString services c) !! i = Some t ->
  services !! i = Some (task_service t) /\ task_status t = Unspawned.
Proof.
  rewrite start_unfold, pool_settle. simpl. rewrite list_lookup_fmap.
  destruct (services !! i); simpl; [|done]. by intros [= <-].
Qed.

(** The invariants hold when the collectors are started... *)
Lemma start_ok toISOString collab env tail services c :
  let st := start toISOString services c in
  wired toISOString c st /\ subscribed_first st
  /\ pool_ok collab env tail services st /\ promise_ok st.
Proof.
  simpl. rewrite start_unfold. repeat split.
  - by rewrite stream_settle.
  - by rewrite stream_settle.
  - by rewrite stream_settle.
  - by rewrite ctx_settle.
  - rewrite ctx_settle, events_settle. simpl. by rewrite app_nil_r.
  - exists []. by rewrite events_settle.
  - rewrite pool_settle. simpl. rewrite map_map. simpl. apply map_id.
  - intros i. rewrite pool_settle, events_settle. simpl.
    rewrite list_lookup_fmap. by destruct (services !! i).
  - apply promise_ok_settle. simpl. intros i t. simpl.
    rewrite list_lookup_fmap. destruct (services !! i); simpl; [|done].
    by intros [= <-].
  - apply promise_ok_settle. simpl. intros i t. simpl.
    rewrite list_lookup_fmap. destruct (services !! i); simpl; [|done].
    by intros [= <-].
Qed.

(** ... and under every schedule. *)
Lemma run_ok toISOString collab env tail services c sched :
  let st := run collab env tail sched (start toISOString services c) in
  wired toISOString c st /\ subscribed_first st
  /\ pool_ok collab env tail services st /\ promise_ok st.
Proof.
  simpl.
  apply (run_invariant collab env tail
           (fun st => wired toISOString c st /\ subscribed_first st
                      /\ pool_ok collab env tail services st /\ promise_ok st)).
  - intros i st (H1 & H2 & H3 & H4).
    auto using wired_step, subscribed_first_step, pool_ok_step, promise_ok_step.
  - apply start_ok.
Qed.

(** The task of a resolved service, with the trace of its collector. *)
Lemma run_task toISOString collab env tail services c sched i s :
  services !! i = Some s ->
  let st := run collab env tail sched (start toISOString services c) in
  exists t, pool st !! i = Some t /\ task_service t = s
    /\ task_ok (collector collab env tail s) i (task_status t) (life i (events st)).
Proof.
  intros Hs. simpl.
  destruct (run_ok toISOString collab env tail services c sched)
    as (_ & _ & [Hsv Hok] & _).
  specialize (Hok i).
  assert (Hmap : map task_service
                   (pool (run collab env tail sched (start toISOString services c))) !! i
                 = Some s) by (by rewrite Hsv).
  rewrite list_lookup_fmap in Hmap.
  destruct (pool _ !! i) as [t|]; [|done]. simpl in Hmap. injection Hmap as <-.
  by exists t.
Qed.

(** With enough steps in the schedule, the collector of a resolved
    service runs to its end. *)
Lemma run_task_exhausted toISOString collab env tail services c sched i s :
  services !! i = Some s ->
  steps_needed (collector collab env tail s) <= count_occ Nat.eq_dec sched i ->
  let st := run collab env tail sched (start toISOString services c) in
  exists t, pool st !! i = Some t /\ task_service t = s
    /\ effects_of i (events st) = effects (collector collab env tail s)
    /\ match ending (collector collab env tail s) with
       | Finishes => task_status t = Done /\ In (EvDone i) (events st)
       | Throws err => task_status t = Failed err /\ In (EvThrow i err) (events st)
       | Hangs => task_status t = Running [] Hangs
       end.
Proof.
  intros Hs Hcount. simpl.
  destruct (run_task toISOString collab env tail services c sched i s Hs)
    as (t & Ht & Hsv & Hok).
  exists t. split; [done|]. split; [done|].
  assert (Hneed : need collab env tail t = 0).
  { eapply run_exhausts; [|exact Ht].
    intros t0 Ht0. apply start_pool_lookup in Ht0 as [Hs0 Hst].
    unfold need. rewrite Hst. rewrite Hs in Hs0. injection Hs0 as <-. done. }
  subst s. apply exhausted_task in Hok as [Heff Hend]; [|done].
  rewrite effects_of_life in Heff. split; [done|].
  destruct (ending _); [| |done].
  - destruct Hend. eauto using in_life.
  - destruct Hend. eauto using in_life.
Qed.

(** ** Consequences for whole dispatches *)

Lemma log_prepared opts c : log (prepared opts c) = log c.
Proof. unfold prepared. by destruct (JsString.truthy _). Qed.

Lemma adequate_spec collab env tail services sched i s :
  adequate collab env tail services sched = true ->
  services !! i = Some s ->
  steps_needed (collector collab env tail s) <= count_occ Nat.eq_dec sched i.
Proof. intros Had Hs. by apply (adequate_from_spec _ _ _ _ _ 0 Had i s). Qed.

Lemma pool_service toISOString collab env tail services c sched i t :
  pool (run collab env tail sched (start toISOString services c)) !! i = Some t ->
  services !! i = Some (task_service t).
Proof.
  intros Ht.
  destruct (run_ok toISOString collab env tail services c sched)
    as (_ & _ & [Hsv _] & _).
  rewrite <- Hsv, list_lookup_fmap, Ht. done.
Qed.

(** In every interleaving, what a collector has performed so far is a
    prefix of what its handler does, in the handler's order. *)
Lemma effects_prefix toISOString collab env tail services c sched i s :
  services !! i = Some s ->
  exists todo,
    effects_of i (events (run collab env tail sched (start toISOString services c)))
      ++ todo
    = effects (collector collab env tail s).
Proof.
  intros Hs.
  destruct (run_task toISOString collab env tail services c sched i s Hs)
    as (t & Ht & Hsv & Hok).
  rewrite <- effects_of_life. unfold task_ok in Hok.
  destruct (task_status t) as [|todo fin| |err].
  - rewrite Hok. by eexists.
  - destruct Hok as (performed & -> & Heff & _). exists todo.
    change (effects_of i (EvInvoke i :: ?l)) with (effects_of i l).
    rewrite <- (app_nil_r (map _ _)). by rewrite effects_of_map, app_nil_r.
  - destruct Hok as [-> _]. exists [].
    change (effects_of i (EvInvoke i :: ?l)) with (effects_of i l).
    by rewrite effects_of_map, !app_nil_r.
  - destruct Hok as [-> _]. exists [].
    change (effects_of i (EvInvoke i :: ?l)) with (effects_of i l).
    by rewrite effects_of_map, !app_nil_r.
Qed.

(** A collector is recorded as throwing only if its handler throws. *)
Lemma throw_recorded toISOString collab env tail services c sched i s err :
  services !! i = Some s ->
  In (EvThrow i err)
     (events (run collab env tail sched (start toISOString services c))) ->
  ending (collector collab env tail s) = Throws err.
Proof.
  intros Hs Hin.
  destruct (run_task toISOString collab env tail services c sched i s Hs)
    as (t & Ht & Hsv & Hok).
  assert (Hlife : In (EvThrow i err)
            (life i (events (run collab env tail sched
                               (start toISOString services c))))).
  { unfold life. apply filter_In. split; [done|]. simpl. apply Nat.eqb_refl. }
  unfold task_ok in Hok. destruct (task_status t) as [|todo fin| |err'].
  - by rewrite Hok in Hlife.
  - destruct Hok as (performed & Hev & _). rewrite Hev in Hlife.
    destruct Hlife as [|Hlife]; [done|].
    apply in_map_iff in Hlife as (? & ? & _). done.
  - destruct Hok as [Hev _]. rewrite Hev in Hlife.
    destruct Hlife as [|Hlife]; [done|].
    apply in_app_or in Hlife as [Hlife|[|[]]]; [|done].
    apply in_map_iff in Hlife as (? & ? & _). done.
  - destruct Hok as [Hev Hend]. rewrite Hev in Hlife.
    destruct Hlife as [|Hlife]; [done|].
    apply in_app_or in Hlife as [Hlife|[Heq|[]]].
    + apply in_map_iff in Hlife as (? & ? & _). done.
    + by injection Heq as <-.
Qed.

(** The promise is fulfilled only when every collector has resolved. *)
Lemma fulfilled_all_done toISOString collab env tail services c sched i s :
  promise (run collab env tail sched (start toISOString services c)) = Fulfilled ->
  services !! i = Some s ->
  ending (collector collab env tail s) = Finishes
  /\ In (EvDone i) (events (run collab env tail sched (start toISOString services c)))
  /\ effects_of i (events (run collab env tail sched (start toISOString services c)))
     = effects (collector collab env tail s).
Proof.
  intros Hp Hs.
  destruct (run_ok toISOString collab env tail services c sched)
    as (_ & _ & _ & [Hweak _]).
  destruct (run_task toISOString collab env tail services c sched i s Hs)
    as (t & Ht & Hsv & Hok).
  unfold weak_ok in Hweak. rewrite Hp in Hweak.
  rewrite (Hweak i t Ht) in Hok. destruct Hok as [Hev Hend].
  split; [done|]. split.
  - eapply in_life. rewrite Hev. right. apply in_or_app. right. by left.
  - rewrite <- effects_of_life, Hev.
    change (effects_of i (EvInvoke i :: ?l)) with (effects_of i l).
    by rewrite effects_of_map, app_nil_r.
Qed.

(** The promise is rejected only with the error of a handler that
    threw. *)
Lemma rejected_by_handler toISOString collab env tail services c sched err :
  promise (run collab env tail sched (start toISOString services c)) = Rejected err ->
  exists i s, services !! i = Some s
    /\ ending (collector collab env tail s) = Throws err.
Proof.
  intros Hp.
  destruct (run_ok toISOString collab env tail services c sched)
    as (_ & _ & [Hsv Hok] & [Hweak _]).
  unfold weak_ok in Hweak. rewrite Hp in Hweak.
  destruct Hweak as (i & t & Ht & Hst).
  exists i, (task_service t). split; [by eapply pool_service|].
  specialize (Hok i). rewrite Ht, Hst in Hok. apply Hok.
Qed.

(** When the schedule is adequate, the promise is settled unless a
    handler hangs. *)
Lemma adequate_settles toISOString collab env tail services c sched :
  adequate collab env tail services sched = true ->
  (forall i s, services !! i = Some s ->
               ending (collector collab env tail s) <> Hangs) ->
  promise (run collab env tail sched (start toISOString services c)) <> Pending.
Proof.
  intros Had Hnohang Hp.
  destruct (run_ok toISOString collab env tail services c sched)
    as (_ & _ & _ & [Hweak Hpend]).
  specialize (Hpend Hp). unfold weak_ok in Hweak. rewrite Hp in Hweak.
  assert (Hall : forallb is_Done
            (pool (run collab env tail sched (start toISOString services c))) = true);
    [|congruence].
  apply forallb_is_Done_lookup. intros i t Ht.
  pose proof (pool_service _ _ _ _ _ _ _ _ _ Ht) as Hs.
  destruct (run_task_exhausted toISOString collab env tail services c sched i
              (task_service t) Hs (adequate_spec _ _ _ _ _ _ _ Had Hs))
    as (t' & Ht' & _ & _ & Hend).
  rewrite Ht in Ht'. injection Ht' as <-.
  specialize (Hnohang i _ Hs).
  destruct (ending _); [by destruct Hend| |done].
  destruct Hend as [Hf _]. destruct (Hweak i t Ht _ Hf).
Qed.

(** ** The display receives the union of what the collectors perform *)

Lemma concat_map_miss (f : nat -> list Effect) eff j (l : list nat) :
  ~ In j l ->
  concat (map (fun i => if Nat.eqb j i then eff :: f i else f i) l)
  = concat (map f l).
Proof.
  induction l as [|i l IH]; [done|]. intros Hnot. simpl.
  assert (Nat.eqb j i = false) as ->.
  { apply Nat.eqb_neq. intros ->. apply Hnot. by left. }
  rewrite IH; [done|]. intros Hin. apply Hnot. by right.
Qed.

Lemma concat_map_hit (f : nat -> list Effect) eff j (l : list nat) :
  List.NoDup l -> In j l ->
  Permutation
    (concat (map (fun i => if Nat.eqb j i then eff :: f i else f i) l))
    (eff :: concat (map f l)).
Proof.
  induction 1 as [|i l Hnot Hnd IH]; [done|]. intros [->|Hin]; simpl.
  - rewrite Nat.eqb_refl, concat_map_miss by done. done.
  - assert (Nat.eqb j i = false) as ->.
    { apply Nat.eqb_neq. intros ->. done. }
    rewrite IH by done. by rewrite Permutation_middle.
Qed.

Lemma effects_of_cons_effect i j eff evs :
  effects_of i (EvEffect j eff :: evs)
  = if Nat.eqb j i then eff :: effects_of i evs else effects_of i evs.
Proof. unfold effects_of. simpl. by destruct (Nat.eqb j i). Qed.

(** Count-preserving: the effects of a trace are those of its
    collectors taken together. *)
Lemma all_effects_union n evs :
  (forall j eff, In (EvEffect j eff) evs -> j < n) ->
  Permutation (all_effects evs)
    (concat (map (fun i => effects_of i evs) (seq 0 n))).
Proof.
  induction evs as [|ev evs IH]; intros Hbound.
  - simpl. induction (seq 0 n) as [|i l IHl]; [done|]. simpl. exact IHl.
  - assert (IH' : Permutation (all_effects evs)
                    (concat (map (fun i => effects_of i evs) (seq 0 n)))).
    { apply IH. intros j eff Hin. apply (Hbound j eff). by right. }
    destruct ev as [|j|j eff|j|j err]; try exact IH'.
    change (all_effects (EvEffect j eff :: evs)) with (eff :: all_effects evs).
    rewrite IH'. symmetry.
    rewrite (map_ext _ _ (fun i => effects_of_cons_effect i j eff evs)).
    apply (concat_map_hit (fun i => effects_of i evs) eff j (seq 0 n)).
    + apply seq_NoDup.
    + apply in_seq. specialize (Hbound j eff (or_introl eq_refl)). lia.
Qed.

(** Every event of a collector belongs to a task of the pool. *)
Lemma effect_owner_bound toISOString collab env tail services c sched j eff :
  In (EvEffect j eff)
     (events (run collab env tail sched (start toISOString services c))) ->
  j < length services.
Proof.
  intros Hin.
  destruct (run_ok toISOString collab env tail services c sched)
    as (_ & _ & [Hsv Hok] & _).
  specialize (Hok j).
  destruct (pool _ !! j) as [t|] eqn:Ht.
  - apply lookup_lt_Some in Ht. by rewrite <- Hsv, length_map.
  - assert (Hlife : In (EvEffect j eff)
              (life j (events (run collab env tail sched
                                 (start toISOString services c))))).
    { unfold life. apply filter_In. split; [done|]. simpl. apply Nat.eqb_refl. }
    by rewrite Hok in Hlife.
Qed.

Lemma concat_map_services {A} (g : nat -> list A) (h : Service -> list A)
    (services : list Service) :
  forall k,
    (forall i s, services !! i = Some s -> g (k + i) = h s) ->
    concat (map g (seq k (length services))) = concat (map h services).
Proof.
  induction services as [|s services IH]; intros k Hg; [done|].
  simpl. f_equal.
  - rewrite <- (Hg 0 s eq_refl). f_equal. lia.
  - apply IH. intros i s' Hi. rewrite <- (Hg (S i) s' Hi). f_equal. lia.
Qed.

(** When every handler resolves and the schedule is adequate, what the
    display log received is, up to the interleaving, exactly what the
    handlers of the resolved services emit. *)
Lemma dispatch_displays_union toISOString collab env tail services c sched :
  (forall i s, services !! i = Some s ->
     steps_needed (collector collab env tail s) <= count_occ Nat.eq_dec sched i) ->
  Permutation
    (all_effects (events (run collab env tail sched (start toISOString services c))))
    (concat (map (fun s => effects (collector collab env tail s)) services)).
Proof.
  intros Had.
  rewrite (all_effects_union (length services)).
  - erewrite concat_map_services; [done|].
    intros i s Hs. simpl.
    destruct (run_task_exhausted toISOString collab env tail services c sched i s
                Hs (Had i s Hs)) as (t & _ & _ & Heff & _).
    exact Heff.
  - intros j eff Hin. by eapply effect_owner_bound.
Qed.

(** ** The call rejects with the first error thrown *)

Lemma first_throw_snoc evs ev :
  first_throw (evs ++ [ev])
  = match first_throw evs with
    | Some err => Some err
    | None => first_throw [ev]
    end.
Proof.
  induction evs as [|e evs IH]; [done|].
  destruct e; simpl; try exact IH. done.
Qed.

Lemma first_throw_in evs err :
  first_throw evs = Some err -> exists i, In (EvThrow i err) evs.
Proof.
  induction evs as [|e evs IH]; [done|].
  destruct e as [|j|j eff|j|j err0]; simpl;
    try (intros H; destruct (IH H) as [i Hi]; exists i; by right).
  intros [= ->]. exists j. by left.
Qed.

Lemma thrown_ok_step collab env tail i st :
  promise_ok st -> thrown_ok st -> thrown_ok (step collab env tail i st).
Proof.
  intros [Hweak _] Hth. unfold thrown_ok in *.
  destruct (step_cases collab env tail i st)
    as [?|t Ht Hs|t eff todo fin Ht Hs|t Ht Hs|t err Ht Hs]; [done|..];
    rewrite ?events_settle; cbn [events set_task]; rewrite first_throw_snoc;
    destruct (first_throw (events st)) as [err0|] eqn:Hfirst; cbn [first_throw];
    try done.
  - unfold settle. cbn [promise set_task]. by rewrite Hth.
  - unfold settle. cbn [promise set_task].
    destruct (promise st) eqn:Hp; [|done|by destruct (Hth err)].
    by destruct (forallb _ _).
  - cbn [promise]. by rewrite Hth.
  - cbn [promise]. unfold weak_ok in Hweak.
    destruct (promise st) eqn:Hp; [done| |by destruct (Hth err0)].
    apply Hweak in Ht. congruence.
Qed.

Lemma run_thrown_ok toISOString collab env tail services c sched :
  thrown_ok (run collab env tail sched (start toISOString services c)).
Proof.
  apply (run_invariant collab env tail (fun st => promise_ok st /\ thrown_ok st)).
  - intros i st [H1 H2]. split; [by apply promise_ok_step|by apply thrown_ok_step].
  - split; [apply (start_ok toISOString collab env tail services c)|].
    unfold thrown_ok. rewrite start_unfold, events_settle. simpl.
    intros err. unfold settle. simpl. by destruct (forallb _ _).
Qed.

(** ** The claims about [LogsCommand.action] *)

(** When every handler resolves and the schedule is adequate, the call
    returns, after every collector has resolved, and the display log
    has received every effect of every handler. *)
Lemma dispatch_all_succeed toISOString collab args opts sched c services :
  getServices collab (names_of args) = inr services ->
  (forall i s, services !! i = Some s ->
     ending (collector collab (env_of opts c) (opt_tail opts) s) = Finishes) ->
  adequate collab (env_of opts c) (opt_tail opts) services sched = true ->
  outcome (action toISOString collab args opts sched c) = Returned []
  /\ exists st,
      final (action toISOString collab args opts sched c) = Some st
      /\ log (ctx st) = log c ++ map (line_of toISOString) (all_effects (events st))
      /\ forall i s, services !! i = Some s ->
           In (EvDone i) (events st)
           /\ effects_of i (events st)
              = effects (collector collab (env_of opts c) (opt_tail opts) s).
Proof.
  intros Hres Hfin Had. rewrite (action_resolved _ _ _ _ _ _ _ Hres). simpl.
  set (st := run _ _ _ _ _).
  assert (Hp : promise st = Fulfilled).
  { destruct (promise st) eqn:Hp; [|done|].
    - exfalso. revert Hp. apply adequate_settles; [done|].
      intros i s Hs. by rewrite (Hfin i s Hs).
    - apply rejected_by_handler in Hp as (i & s & Hs & Hend).
      by rewrite (Hfin i s Hs) in Hend. }
  rewrite Hp. split; [done|]. exists st. split; [done|]. split.
  - destruct (run_ok toISOString collab (env_of opts c) (opt_tail opts) services
                (prepared opts c) sched) as ((_ & _ & _ & _ & Hlog) & _).
    fold st in Hlog. by rewrite Hlog, log_prepared.
  - intros i s Hs. by apply (fulfilled_all_done _ _ _ _ _ _ _ _ _ Hp Hs).
Qed.

(** C1 (the code departs from the claim): with one service whose
    handler writes two entries and resolves, the call returns after the
    collector has resolved, and both entries went through the stream,
    yet the returned sequence is empty instead of holding them. *)
Theorem logs_entries_not_returned :
  let r := action LogsSamples.iso (LogsSamples.resolving [LogsSamples.svcA])
             LogsSamples.no_args LogsSamples.no_opts [0; 0; 0; 0]
             LogsSamples.c0 in
  outcome r = Returned []
  /\ exists st, final r = Some st
      /\ In (EvDone 0) (events st)
      /\ entries_of (all_effects (events st))
         = [LogsSamples.entry LogsSamples.svcA 1%Z "hello";
            LogsSamples.entry LogsSamples.svcA 2%Z "world"].
Proof.
  split; [by vm_compute|].
  eexists. split; [by vm_compute|]. split; [|by vm_compute].
  vm_compute. tauto.
Qed.

(** C8: whatever the services, the handlers, the tail option and the
    interleaving, a list returned by [action] is empty; the entries
    only went to the display log. *)
Theorem logs_action_returns_empty toISOString collab args opts sched c result :
  outcome (action toISOString collab args opts sched c) = Returned result ->
  result = []
  /\ exists st,
      final (action toISOString collab args opts sched c) = Some st
      /\ log (final_ctx (action toISOString collab args opts sched c))
         = log c ++ map (line_of toISOString) (all_effects (events st)).
Proof.
  destruct (getServices collab (names_of args)) as [err|services] eqn:Hres.
  - by rewrite (action_unresolved _ _ _ _ _ _ _ Hres).
  - rewrite (action_resolved _ _ _ _ _ _ _ Hres). simpl.
    set (st := run _ _ _ _ _). intros Hout. split.
    + destruct (promise st); simpl in Hout; congruence.
    + exists st. split; [done|].
      destruct (run_ok toISOString collab (env_of opts c) (opt_tail opts) services
                  (prepared opts c) sched) as ((_ & _ & _ & _ & Hlog) & _).
      fold st in Hlog. by rewrite Hlog, log_prepared.
Qed.

Lemma logs_action_returns_empty_witness :
  let r := action LogsSamples.iso
             (LogsSamples.resolving [LogsSamples.svcA; LogsSamples.svcB])
             LogsSamples.no_args LogsSamples.no_opts [0; 1; 0; 1; 0; 1; 0]
             LogsSamples.c0 in
  outcome r = Returned []
  /\ (([] : list ServiceLogEntry) = []
      /\ exists st, final r = Some st
           /\ log (final_ctx r)
              = log LogsSamples.c0
                ++ map (line_of LogsSamples.iso) (all_effects (events st))).
Proof.
  split; [reflexivity|].
  apply (logs_action_returns_empty LogsSamples.iso
           (LogsSamples.resolving [LogsSamples.svcA; LogsSamples.svcB])
           LogsSamples.no_args LogsSamples.no_opts [0; 1; 0; 1; 0; 1; 0]
           LogsSamples.c0 []).
  reflexivity.
Defined.

(** C2, as stated, fails: with services [A] (two entries) and [C]
    (whose handler throws), the call raises the handler's error to the
    caller and returns no result at all. *)
Lemma logs_handler_error_aborts_caller :
  let r := action LogsSamples.iso
             (LogsSamples.resolving [LogsSamples.svcA; LogsSamples.svcC])
             LogsSamples.no_args LogsSamples.no_opts [0; 1; 0; 1; 0; 0]
             LogsSamples.c0 in
  outcome r = Raised "connection refused"
  /\ ~ exists result, outcome r = Returned result.
Proof.
  intros r.
  assert (H : outcome r = Raised "connection refused") by (by vm_compute).
  split; [done|]. intros [result Hr]. rewrite H in Hr. done.
Qed.

(** C2, amended: when the handler of a resolved service throws, the
    error is not caught: the call never returns a result, a raised
    error is always that of the first collector that threw, and as soon
    as the collector of the throwing service has had its steps the call
    has raised (also next to a sibling that stays pending).  The
    collectors of the other services are not cancelled: each one that
    is given its steps performs all the effects of its handler, in the
    handler's order. *)
Theorem logs_handler_error_propagates
    toISOString collab args opts sched c services k s err :
  getServices collab (names_of args) = inr services ->
  services !! k = Some s ->
  ending (collector collab (env_of opts c) (opt_tail opts) s) = Throws err ->
  exists st,
    final (action toISOString collab args opts sched c) = Some st
    /\ (forall result,
          outcome (action toISOString collab args opts sched c) <> Returned result)
    /\ (forall err',
          outcome (action toISOString collab args opts sched c) = Raised err' ->
          first_throw (events st) = Some err'
          /\ exists j s', services !! j = Some s'
               /\ ending (collector collab (env_of opts c) (opt_tail opts) s')
                  = Throws err')
    /\ (steps_needed (collector collab (env_of opts c) (opt_tail opts) s)
        <= count_occ Nat.eq_dec sched k ->
        exists err',
          outcome (action toISOString collab args opts sched c) = Raised err')
    /\ (forall i s', services !! i = Some s' ->
          steps_needed (collector collab (env_of opts c) (opt_tail opts) s')
          <= count_occ Nat.eq_dec sched i ->
          effects_of i (events st)
          = effects (collector collab (env_of opts c) (opt_tail opts) s')).
Proof.
  intros Hres Hs Hthrow. rewrite (action_resolved _ _ _ _ _ _ _ Hres). simpl.
  set (st := run _ _ _ _ _). exists st. split; [done|].
  assert (Hnot : promise st <> Fulfilled).
  { intros Hp. destruct (fulfilled_all_done _ _ _ _ _ _ _ _ _ Hp Hs) as [Hend _].
    congruence. }
  split; [|split; [|split]].
  - intros result Hout. destruct (promise st); simpl in Hout; congruence.
  - intros err' Hout.
    assert (Hp : promise st = Rejected err')
      by (destruct (promise st); simpl in Hout; congruence).
    split; [|by eapply rejected_by_handler].
    pose proof (run_thrown_ok toISOString collab (env_of opts c) (opt_tail opts)
                  services (prepared opts c) sched) as Hth.
    fold st in Hth. unfold thrown_ok in Hth.
    destruct (first_throw (events st)) as [e|]; [congruence|].
    by destruct (Hth err').
  - intros Hsteps.
    destruct (run_task_exhausted toISOString collab (env_of opts c) (opt_tail opts)
                services (prepared opts c) sched k s Hs Hsteps)
      as (t & Ht & _ & _ & Hend).
    fold st in Ht, Hend. rewrite Hthrow in Hend. destruct Hend as [Hfailed _].
    destruct (run_ok toISOString collab (env_of opts c) (opt_tail opts) services
                (prepared opts c) sched) as (_ & _ & _ & [Hweak _]).
    fold st in Hweak. unfold weak_ok in Hweak.
    destruct (promise st) eqn:Hp; [|done|by eexists].
    destruct (Hweak k t Ht err Hfailed).
  - intros i s' Hi Hsteps.
    destruct (run_task_exhausted toISOString collab (env_of opts c) (opt_tail opts)
                services (prepared opts c) sched i s' Hi Hsteps)
      as (t & _ & _ & Heff & _).
    exact Heff.
Qed.

Lemma logs_handler_error_propagates_witness :
  getServices (LogsSamples.resolving [LogsSamples.svcA; LogsSamples.svcC])
    (names_of LogsSamples.no_args) = inr [LogsSamples.svcA; LogsSamples.svcC]
  /\ [LogsSamples.svcA; LogsSamples.svcC] !! 1 = Some LogsSamples.svcC
  /\ ending (collector (LogsSamples.resolving [LogsSamples.svcA; LogsSamples.svcC])
               (env_of LogsSamples.no_opts LogsSamples.c0)
               (opt_tail LogsSamples.no_opts) LogsSamples.svcC)
     = Throws "connection refused"
  /\ steps_needed (collector (LogsSamples.resolving [LogsSamples.svcA; LogsSamples.svcC])
                     (env_of LogsSamples.no_opts LogsSamples.c0)
                     (opt_tail LogsSamples.no_opts) LogsSamples.svcC)
     <= count_occ Nat.eq_dec [0; 1; 1] 1
  /\ exists err',
      outcome (action LogsSamples.iso
                 (LogsSamples.resolving [LogsSamples.svcA; LogsSamples.svcC])
                 LogsSamples.no_args LogsSamples.no_opts [0; 1; 1]
                 LogsSamples.c0) = Raised err'.
Proof.
  split; [reflexivity|]. split; [reflexivity|]. split; [reflexivity|].
  split; [vm_compute; lia|].
  destruct (logs_handler_error_propagates LogsSamples.iso
              (LogsSamples.resolving [LogsSamples.svcA; LogsSamples.svcC])
              LogsSamples.no_args LogsSamples.no_opts [0; 1; 1]
              LogsSamples.c0 [LogsSamples.svcA; LogsSamples.svcC] 1
              LogsSamples.svcC "connection refused" eq_refl eq_refl eq_refl)
    as (st & _ & _ & _ & Hraised & _).
  apply Hraised. vm_compute. lia.
Defined.

Lemma effects_of_all i eff evs :
  In eff (effects_of i evs) -> In eff (all_effects evs).
Proof.
  unfold effects_of, all_effects. rewrite <- !list_elem_of_In, !list_elem_of_omap.
  intros (ev & Hin & Hev). exists ev. split; [done|].
  destruct ev as [|j|j eff'|j|j ?]; try done. by destruct (Nat.eqb j i).
Qed.

(** C3: a service whose module type has no registered handler is
    collected by [dummyLogStreamer].  In every interleaving its
    collector never throws and writes no entry to the stream, and it
    emits at most the one warning naming the service and the module
    type; given its three steps it has emitted exactly that warning,
    which is in [ctx.log], and has resolved.  It does not abort the
    dispatch: when the other handlers resolve and the schedule is
    adequate, the call returns. *)
Theorem logs_unsupported_module_kind
    toISOString collab args opts sched c services i s :
  getServices collab (names_of args) = inr services ->
  services !! i = Some s ->
  serviceLogHandlers collab !! module_type (service_module s) = None ->
  collector collab (env_of opts c) (opt_tail opts) s
  = dummyLogStreamer {| p_service := s; p_env := env_of opts c;
                        p_tail := opt_tail opts |}
  /\ exists st,
      final (action toISOString collab args opts sched c) = Some st
      /\ (forall err, ~ In (EvThrow i err) (events st))
      /\ entries_of (effects_of i (events st)) = []
      /\ (effects_of i (events st) = [] \/ effects_of i (events st) = [diagnostic s])
      /\ (3 <= count_occ Nat.eq_dec sched i ->
          effects_of i (events st) = [diagnostic s]
          /\ In (EvDone i) (events st)
          /\ In (line_of toISOString (diagnostic s)) (log (ctx st)))
      /\ ((forall j s', services !! j = Some s' -> j <> i ->
             ending (collector collab (env_of opts c) (opt_tail opts) s') = Finishes) ->
          adequate collab (env_of opts c) (opt_tail opts) services sched = true ->
          outcome (action toISOString collab args opts sched c) = Returned []).
Proof.
  intros Hres Hs Hnone.
  assert (Hcol : collector collab (env_of opts c) (opt_tail opts) s
                 = dummyLogStreamer {| p_service := s; p_env := env_of opts c;
                                       p_tail := opt_tail opts |}).
  { unfold collector, getActionHandler. by rewrite Hnone. }
  split; [done|].
  assert (Hall : (forall j s', services !! j = Some s' -> j <> i ->
             ending (collector collab (env_of opts c) (opt_tail opts) s') = Finishes) ->
          adequate collab (env_of opts c) (opt_tail opts) services sched = true ->
          outcome (action toISOString collab args opts sched c) = Returned []).
  { intros Hothers Had.
    apply (dispatch_all_succeed _ _ _ _ _ _ _ Hres); [|done].
    intros j s' Hj. destruct (decide (j = i)) as [->|Hne]; [|by apply (Hothers j s')].
    rewrite Hs in Hj. injection Hj as <-. by rewrite Hcol. }
  revert Hall. rewrite (action_resolved _ _ _ _ _ _ _ Hres). simpl.
  set (st := run _ _ _ _ _). intros Hall.
  exists st. split; [done|].
  destruct (effects_prefix toISOString collab (env_of opts c) (opt_tail opts)
              services (prepared opts c) sched i s Hs) as [todo Hpre].
  fold st in Hpre. rewrite Hcol in Hpre. simpl in Hpre. fold (diagnostic s) in Hpre.
  assert (Hcases : effects_of i (events st) = []
                   \/ effects_of i (events st) = [diagnostic s]).
  { destruct (effects_of i (events st)) as [|eff [|eff' rest]]; [by left| |].
    - right. simpl in Hpre. by injection Hpre as -> _.
    - simpl in Hpre. by injection Hpre. }
  split.
  { intros err Hin.
    apply (throw_recorded _ _ _ _ _ _ _ _ _ _ Hs) in Hin. by rewrite Hcol in Hin. }
  split. { by destruct Hcases as [-> | ->]. }
  split; [done|]. split; [|done].
  intros Hcount.
  assert (Hsteps : steps_needed (collector collab (env_of opts c) (opt_tail opts) s)
                   <= count_occ Nat.eq_dec sched i) by (by rewrite Hcol).
  destruct (run_task_exhausted toISOString collab (env_of opts c) (opt_tail opts)
              services (prepared opts c) sched i s Hs Hsteps)
    as (t & _ & _ & Heff & Hend).
  fold st in Heff, Hend. rewrite Hcol in Heff, Hend. simpl in Heff, Hend.
  fold (diagnostic s) in Heff.
  split; [done|]. split; [apply Hend|].
  destruct (run_ok toISOString collab (env_of opts c) (opt_tail opts) services
              (prepared opts c) sched) as ((_ & _ & _ & _ & Hlog) & _).
  fold st in Hlog. rewrite Hlog. apply in_or_app. right.
  apply (in_map (line_of toISOString) _ (diagnostic s)).
  apply (effects_of_all i). rewrite Heff. by left.
Qed.

Lemma logs_unsupported_module_kind_witness :
  getServices (LogsSamples.resolving [LogsSamples.svcA; LogsSamples.svcB])
    (names_of LogsSamples.no_args) = inr [LogsSamples.svcA; LogsSamples.svcB]
  /\ [LogsSamples.svcA; LogsSamples.svcB] !! 1 = Some LogsSamples.svcB
  /\ serviceLogHandlers (LogsSamples.resolving [LogsSamples.svcA; LogsSamples.svcB])
       !! module_type (service_module LogsSamples.svcB) = None
  /\ collector (LogsSamples.resolving [LogsSamples.svcA; LogsSamples.svcB])
       (env_of LogsSamples.no_opts LogsSamples.c0) (opt_tail LogsSamples.no_opts)
       LogsSamples.svcB
     = dummyLogStreamer {| p_service := LogsSamples.svcB;
                           p_env := env_of LogsSamples.no_opts LogsSamples.c0;
                           p_tail := opt_tail LogsSamples.no_opts |}.
Proof.
  split; [reflexivity|]. split; [reflexivity|]. split; [reflexivity|].
  apply (logs_unsupported_module_kind LogsSamples.iso
           (LogsSamples.resolving [LogsSamples.svcA; LogsSamples.svcB])
           LogsSamples.no_args LogsSamples.no_opts [0; 1; 0; 1; 0; 1; 0]
           LogsSamples.c0 [LogsSamples.svcA; LogsSamples.svcB] 1 LogsSamples.svcB);
    reflexivity.
Defined.

Lemma run_app collab env tail sched more st :
  run collab env tail (sched ++ more) st
  = run collab env tail more (run collab env tail sched st).
Proof. unfold run. apply foldl_app. Qed.

(** The trace only grows. *)
Lemma events_step collab env tail i st :
  exists more, events (step collab env tail i st) = events st ++ more.
Proof.
  destruct (step_cases collab env tail i st);
    rewrite ?events_settle; simpl; eauto.
  exists []. by rewrite app_nil_r.
Qed.

Lemma events_run collab env tail sched :
  forall st, exists more, events (run collab env tail sched st) = events st ++ more.
Proof.
  induction sched as [|i sched IH]; intros st.
  - exists []. simpl. by rewrite app_nil_r.
  - destruct (IH (step collab env tail i st)) as [more Hmore].
    destruct (events_step collab env tail i st) as [one Hone].
    exists (one ++ more).
    change (run collab env tail (i :: sched) st)
      with (run collab env tail sched (step collab env tail i st)).
    by rewrite Hmore, Hone, app_assoc.
Qed.

(** C4: in every interleaving the trace of a dispatch starts with the
    registration of the reader, which happens once; so every call of a
    handler and every effect of a collector comes after it, no entry
    was written to a stream without reader (nothing is waiting), and
    the reader is the display callback.  This holds at every moment of
    the dispatch, not only at its end: after every part of the
    schedule the reader is attached and nothing waits, in a trace that
    the rest of the schedule only extends. *)
Theorem logs_consumer_registered_first toISOString collab args opts sched c st :
  final (action toISOString collab args opts sched c) = Some st ->
  (exists evs, events st = EvSubscribe :: evs
               /\ forallb (fun ev => negb (is_subscribe ev)) evs = true)
  /\ (forall k ev, events st !! k = Some ev -> ev <> EvSubscribe ->
        0 < k /\ events st !! 0 = Some EvSubscribe)
  /\ reader (stream st) = Some (display toISOString)
  /\ waiting (stream st) = []
  /\ (forall sched1 sched2,
        sched = sched1 ++ sched2 ->
        exists st1 more,
          final (action toISOString collab args opts sched1 c) = Some st1
          /\ events st = events st1 ++ more
          /\ (exists evs1, events st1 = EvSubscribe :: evs1)
          /\ reader (stream st1) = Some (display toISOString)
          /\ waiting (stream st1) = []).
Proof.
  destruct (getServices collab (names_of args)) as [err|services] eqn:Hres.
  - by rewrite (action_unresolved _ _ _ _ _ _ _ Hres).
  - rewrite (action_resolved _ _ _ _ _ _ _ Hres). simpl. intros [= <-].
    destruct (run_ok toISOString collab (env_of opts c) (opt_tail opts) services
                (prepared opts c) sched)
      as ((Hr & Hw & _) & (evs & Hev & Hno) & _).
    split; [by exists evs|]. split; [|split; [done|split; [done|]]].
    + intros k ev Hk Hne. rewrite Hev in Hk |- *.
      destruct k as [|k]; [|split; [lia|done]].
      simpl in Hk. by injection Hk as <-.
    + intros sched1 sched2 ->.
      rewrite (action_resolved _ _ _ _ _ _ _ Hres). simpl.
      destruct (run_ok toISOString collab (env_of opts c) (opt_tail opts) services
                  (prepared opts c) sched1)
        as ((Hr1 & Hw1 & _) & (evs1 & Hev1 & _) & _).
      destruct (events_run collab (env_of opts c) (opt_tail opts) sched2
                  (run collab (env_of opts c) (opt_tail opts) sched1
                     (start toISOString services (prepared opts c))))
        as [more Hmore].
      eexists _, more. split; [done|]. rewrite run_app. split; [done|].
      split; [by exists evs1|]. done.
Qed.

Lemma logs_consumer_registered_first_witness :
  exists st,
    final (action LogsSamples.iso
             (LogsSamples.resolving [LogsSamples.svcA; LogsSamples.svcB])
             LogsSamples.no_args LogsSamples.no_opts [1; 0; 0; 1; 0]
             LogsSamples.c0) = Some st
    /\ waiting (stream st) = [].
Proof.
  eexists. split; [reflexivity|].
  eapply (logs_consumer_registered_first LogsSamples.iso
            (LogsSamples.resolving [LogsSamples.svcA; LogsSamples.svcB])
            LogsSamples.no_args LogsSamples.no_opts [1; 0; 0; 1; 0]
            LogsSamples.c0).
  reflexivity.
Defined.

(** C5: when the resolution of the services fails, the call raises
    that error; no stream was created, no handler was looked up or
    called, and nothing was logged. *)
Theorem logs_resolution_failure_aborts toISOString collab args opts sched c err :
  getServices collab (names_of args) = inl err ->
  outcome (action toISOString collab args opts sched c) = Raised err
  /\ final (action toISOString collab args opts sched c) = None
  /\ log (final_ctx (action toISOString collab args opts sched c)) = log c.
Proof.
  intros Hres. rewrite (action_unresolved _ _ _ _ _ _ _ Hres). simpl.
  by rewrite log_prepared.
Qed.

Lemma logs_resolution_failure_aborts_witness :
  getServices LogsSamples.not_resolving
    (names_of {| arg_service := Some "nope,nada" |})
  = inl "Could not find service(s)"
  /\ outcome (action LogsSamples.iso LogsSamples.not_resolving
                {| arg_service := Some "nope,nada" |} LogsSamples.no_opts
                [0; 1; 0] LogsSamples.c0)
     = Raised "Could not find service(s)"
  /\ final (action LogsSamples.iso LogsSamples.not_resolving
              {| arg_service := Some "nope,nada" |} LogsSamples.no_opts
              [0; 1; 0] LogsSamples.c0) = None
  /\ log (final_ctx (action LogsSamples.iso LogsSamples.not_resolving
                       {| arg_service := Some "nope,nada" |} LogsSamples.no_opts
                       [0; 1; 0] LogsSamples.c0))
     = log LogsSamples.c0.
Proof.
  split; [reflexivity|].
  apply (logs_resolution_failure_aborts LogsSamples.iso LogsSamples.not_resolving
           {| arg_service := Some "nope,nada" |} LogsSamples.no_opts [0; 1; 0]
           LogsSamples.c0 "Could not find service(s)").
  reflexivity.
Defined.

Lemma run_empty_pool collab env tail sched st :
  pool st = [] -> run collab env tail sched st = st.
Proof.
  intros Hp. induction sched as [|i sched IH]; [done|].
  change (run collab env tail sched (step collab env tail i st) = st).
  assert (step collab env tail i st = st) as ->; [|exact IH].
  unfold step. by rewrite Hp.
Qed.

(** C6, as stated, fails: with no service resolved the call returns the
    empty sequence, but the stream has not been ended. *)
Lemma logs_no_services_stream_left_open :
  let r := action LogsSamples.iso (LogsSamples.resolving [])
             LogsSamples.no_args LogsSamples.no_opts [] LogsSamples.c0 in
  getServices (LogsSamples.resolving []) (names_of LogsSamples.no_args) = inr []
  /\ ~ (outcome r = Returned []
        /\ exists st, final r = Some st /\ ended (stream st) = true).
Proof.
  intros r. split; [done|]. intros (_ & st & Hst & Hended).
  vm_compute in Hst. injection Hst as <-. done.
Qed.

(** C6, amended: when no service is resolved the call returns the
    empty sequence at once, whatever the schedule: no collector is
    called, nothing is logged, and the stream, with its reader attached,
    is left as it is (it is not ended). *)
Theorem logs_no_services toISOString collab args opts sched c :
  getServices collab (names_of args) = inr [] ->
  outcome (action toISOString collab args opts sched c) = Returned []
  /\ exists st,
      final (action toISOString collab args opts sched c) = Some st
      /\ events st = [EvSubscribe]
      /\ ended (stream st) = false
      /\ log (ctx st) = log c.
Proof.
  intros Hres. rewrite (action_resolved _ _ _ _ _ _ _ Hres). simpl.
  rewrite run_empty_pool by done. split; [done|].
  eexists. split; [done|]. simpl. by rewrite log_prepared.
Qed.

Lemma logs_no_services_witness :
  getServices (LogsSamples.resolving []) (names_of LogsSamples.no_args) = inr []
  /\ outcome (action LogsSamples.iso (LogsSamples.resolving [])
                LogsSamples.no_args LogsSamples.no_opts [2; 0; 1]
                LogsSamples.c0) = Returned [].
Proof.
  split; [reflexivity|].
  apply (logs_no_services LogsSamples.iso (LogsSamples.resolving [])
           LogsSamples.no_args LogsSamples.no_opts [2; 0; 1] LogsSamples.c0).
  reflexivity.
Defined.

(** * Facts about the debug-logfile helpers *)

Lemma string_app_cons a (s1 s2 : string) :
  String a s1 +:+ s2 = String a (s1 +:+ s2).
Proof. reflexivity. Qed.

Lemma string_app_nil_r (s : string) : s +:+ "" = s.
Proof. induction s as [|a s IH]; [done|]. by rewrite string_app_cons, IH. Qed.

Lemma string_app_assoc (s1 s2 s3 : string) : (s1 +:+ s2) +:+ s3 = s1 +:+ s2 +:+ s3.
Proof. induction s1 as [|a s1 IH]; [done|]. by rewrite !string_app_cons, IH. Qed.

Lemma includes_char_app c (s1 s2 : string) :
  JsString.includes_char c (s1 +:+ s2)
  = JsString.includes_char c s1 || JsString.includes_char c s2.
Proof.
  induction s1 as [|a s1 IH]; [done|].
  rewrite string_app_cons. simpl. by destruct (Ascii.eqb a c).
Qed.

Lemma count_char_app c (s1 s2 : string) :
  JsString.count_char c (s1 +:+ s2)
  = JsString.count_char c s1 + JsString.count_char c s2.
Proof.
  induction s1 as [|a s1 IH]; [done|].
  rewrite string_app_cons. simpl. rewrite IH. lia.
Qed.

Lemma includes_char_count c s :
  JsString.includes_char c s = true <-> 0 < JsString.count_char c s.
Proof.
  induction s as [|a s IH]; simpl; [split; [done|lia]|].
  destruct (Ascii.eqb a c); [split; [lia|done]|]. by rewrite IH.
Qed.

(** [replace] rewrites the first occurrence and leaves the rest of the
    string as it is. *)
Lemma replace_char_first c r (pre post : string) :
  JsString.includes_char c pre = false ->
  JsString.replace_char c r (pre +:+ String c post) = pre +:+ r +:+ post.
Proof.
  induction pre as [|a pre IH]; simpl; intros Hpre.
  - change (EmptyString +:+ String c post) with (String c post). simpl.
    by rewrite Ascii.eqb_refl.
  - rewrite !string_app_cons. simpl.
    destruct (Ascii.eqb a c); [done|]. by rewrite IH.
Qed.

Lemma replace_char_none c r s :
  JsString.includes_char c s = false -> JsString.replace_char c r s = s.
Proof.
  induction s as [|a s IH]; simpl; [done|].
  destruct (Ascii.eqb a c); [done|]. intros H. by rewrite IH.
Qed.


(** A string that holds the character [c] is cut at its first [c]. *)
Lemma first_occurrence c (s : string) :
  JsString.includes_char c s = true ->
  exists pre post,
    s = pre +:+ String c post /\ JsString.includes_char c pre = false.
Proof.
  induction s as [|a s IH]; simpl; [done|].
  destruct (Ascii.eqb a c) eqn:E.
  - intros _. apply Ascii.eqb_eq in E as ->. by exists EmptyString, s.
  - intros Hs. destruct (IH Hs) as (pre & post & -> & Hpre).
    exists (String a pre), post. split; [done|]. simpl. by rewrite E.
Qed.

(** C9: [makeLogfileName] replaces the first space of the command name
    by a hyphen and nothing else: for a command name with two or more
    spaces, cut at its first space, the logfile name is what precedes
    that space, a hyphen, what follows it unchanged, and the level,
    timestamp and extension; what follows the first space holds a
    space, so the logfile name still contains a space, and it has
    exactly one space less than its parts together. *)
Theorem makeLogfileName_keeps_later_spaces nowISO logLevel commandFullName extension :
  2 <= JsString.count_char " " commandFullName ->
  exists pre post,
    commandFullName = pre +:+ " " +:+ post
    /\ JsString.includes_char " " pre = false
    /\ JsString.includes_char " " post = true
    /\ Logfiles.makeLogfileName nowISO logLevel commandFullName extension
       = pre +:+ "-" +:+ post +:+ "." +:+ logLevel +:+ "." +:+ nowISO
           +:+ "." +:+ extension
    /\ JsString.includes_char " "
         (Logfiles.makeLogfileName nowISO logLevel commandFullName extension) = true
    /\ JsString.count_char " "
         (Logfiles.makeLogfileName nowISO logLevel commandFullName extension)
       = JsString.count_char " " commandFullName - 1
         + JsString.count_char " " logLevel + JsString.count_char " " nowISO
         + JsString.count_char " " extension.
Proof.
  intros Htwo.
  assert (Hin : JsString.includes_char " " commandFullName = true)
    by (apply includes_char_count; lia).
  destruct (first_occurrence _ _ Hin) as (pre & post & -> & Hpre).
  assert (Hpre0 : JsString.count_char " " pre = 0).
  { destruct (JsString.count_char " " pre) eqn:E; [done|].
    assert (0 < JsString.count_char " " pre) as H%includes_char_count by lia.
    congruence. }
  assert (Hpost : 1 <= JsString.count_char " " post).
  { rewrite count_char_app in Htwo. simpl in Htwo. lia. }
  exists pre, post. split; [done|]. split; [done|].
  split; [apply includes_char_count; lia|].
  assert (Hname : Logfiles.makeLogfileName nowISO logLevel (pre +:+ String " " post)
                    extension
                  = pre +:+ "-" +:+ post +:+ "." +:+ logLevel +:+ "." +:+ nowISO
                      +:+ "." +:+ extension).
  { unfold Logfiles.makeLogfileName. rewrite replace_char_first by done.
    by rewrite !string_app_assoc. }
  split; [exact Hname|]. rewrite Hname. split.
  - rewrite !includes_char_app. simpl.
    assert (JsString.includes_char " " post = true) as ->
      by (apply includes_char_count; lia).
    by rewrite orb_true_r.
  - rewrite !count_char_app. simpl. lia.
Qed.

Lemma makeLogfileName_keeps_later_spaces_witness :
  2 <= JsString.count_char " " "deploy my service"
  /\ exists pre post,
      "deploy my service" = pre +:+ " " +:+ post
      /\ JsString.includes_char " " pre = false
      /\ JsString.includes_char " " post = true
      /\ Logfiles.makeLogfileName "2022-01-31T09:33:55.001Z" "debug"
           "deploy my service" "log"
         = pre +:+ "-" +:+ post +:+ "." +:+ "debug" +:+ "."
             +:+ "2022-01-31T09:33:55.001Z" +:+ "." +:+ "log".
Proof.
  split; [vm_compute; lia|].
  destruct (makeLogfileName_keeps_later_spaces "2022-01-31T09:33:55.001Z" "debug"
              "deploy my service" "log") as (pre & post & H1 & H2 & H3 & H4 & _).
  - vm_compute. lia.
  - by exists pre, post.
Defined.

(** ** The retention job *)

Lemma elem_of_listDirectory (d : gmap string Logfiles.Stats) f :
  f ∈ Logfiles.listDirectory d <-> is_Some (d !! f).
Proof.
  unfold Logfiles.listDirectory. rewrite list_elem_of_fmap. split.
  - intros ([k v] & -> & Hin). apply elem_of_map_to_list in Hin. by exists v.
  - intros [v Hv]. exists (f, v). split; [done|]. by apply elem_of_map_to_list.
Qed.

Lemma listDirectory_NoDup (d : gmap string Logfiles.Stats) :
  NoDup (Logfiles.listDirectory d).
Proof. apply NoDup_fst_map_to_list. Qed.

Lemma count_occ_snoc (sched : list nat) i k :
  count_occ Nat.eq_dec (sched ++ [i]) k
  = (count_occ Nat.eq_dec sched k + if decide (i = k) then 1 else 0)%nat.
Proof.
  rewrite count_occ_app. simpl.
  destruct (Nat.eq_dec i k), (decide (i = k)); done.
Qed.

Section RetentionFacts.

Variable add_days : Z -> Z -> Z.
Variable clock : string -> Z.
Variable lstat_error remove_error : string -> option string.
Variable no_entry : string -> string.

Local Abbreviation clean_step :=
  (Logfiles.clean_step add_days clock lstat_error remove_error no_entry).
Local Abbreviation clean_run :=
  (Logfiles.clean_run add_days clock lstat_error remove_error no_entry).
Local Abbreviation phase_after :=
  (Logfiles.phase_after add_days clock lstat_error remove_error).
Local Abbreviation removed_after :=
  (Logfiles.removed_after add_days clock lstat_error remove_error).
Local Abbreviation cleanup_ok :=
  (Logfiles.cleanup_ok add_days clock lstat_error remove_error).

Lemma start_cleanup_ok d lg : cleanup_ok d [] (Logfiles.start_cleanup d lg).
Proof.
  split; [|split].
  - simpl. by rewrite length_map.
  - intros i f Hi.
    assert (is_Some (d !! f)) as [stat Hstat].
    { apply elem_of_listDirectory. by eapply list_elem_of_lookup_2. }
    exists stat. split; [done|]. split.
    + simpl. change (map ?g ?l) with (g <$> l). by rewrite list_lookup_fmap, Hi.
    + simpl. unfold Logfiles.removed_after. simpl.
      by rewrite andb_false_r.
  - done.
Qed.

(** A step that moves the [i]-th mapper one step on, and removes its
    file or leaves the directory alone as [removed_after] says, keeps
    the cleanup in order. *)
Lemma cleanup_ok_advance d sched cl cl' i f stat :
  cleanup_ok d sched cl ->
  Logfiles.listDirectory d !! i = Some f ->
  d !! f = Some stat ->
  Logfiles.jobs cl'
  = <[i := {| Logfiles.job_file := f;
              Logfiles.job_phase :=
                phase_after (S (count_occ Nat.eq_dec sched i)) f stat |}]>
      (Logfiles.jobs cl) ->
  (Logfiles.dir cl' = Logfiles.dir cl
   /\ removed_after (S (count_occ Nat.eq_dec sched i)) f stat
      = removed_after (count_occ Nat.eq_dec sched i) f stat)
  \/ (Logfiles.dir cl' = delete f (Logfiles.dir cl)
      /\ removed_after (S (count_occ Nat.eq_dec sched i)) f stat = true) ->
  cleanup_ok d (sched ++ [i]) cl'.
Proof.
  intros (Hlen & Hjobs & Hnone) Hi Hstat Hjobs' Hdir.
  split; [|split].
  - by rewrite Hjobs', length_insert.
  - intros k g Hk.
    destruct (Hjobs k g Hk) as (stat' & Hg & Hjob & Hdirg).
    exists stat'. split; [done|].
    rewrite count_occ_snoc. destruct (decide (i = k)) as [->|Hne].
    + assert (g = f) as -> by congruence.
      assert (stat' = stat) as -> by congruence.
      rewrite Nat.add_1_r. split.
      * rewrite Hjobs'. apply list_lookup_insert_eq.
        rewrite Hlen. by eapply lookup_lt_Some.
      * destruct Hdir as [[-> ->]|[-> ->]]; [done|]. apply lookup_delete_eq.
    + rewrite Nat.add_0_r. split.
      * rewrite Hjobs'. by rewrite list_lookup_insert_ne.
      * assert (f <> g) as Hfg.
        { intros ->. apply Hne.
          eapply NoDup_lookup; [apply listDirectory_NoDup|done..]. }
        destruct Hdir as [[-> _]|[-> _]]; [done|].
        by rewrite lookup_delete_ne.
  - intros g Hg. destruct Hdir as [[-> _]|[-> _]]; [by apply Hnone|].
    rewrite lookup_delete_ne; [by apply Hnone|]. intros ->. congruence.
Qed.

(** A step of the handler of [.catch], or of no one, keeps it too. *)
Lemma cleanup_ok_idle d sched cl cl' i :
  cleanup_ok d sched cl ->
  Logfiles.listDirectory d !! i = None ->
  Logfiles.jobs cl' = Logfiles.jobs cl ->
  Logfiles.dir cl' = Logfiles.dir cl ->
  cleanup_ok d (sched ++ [i]) cl'.
Proof.
  intros (Hlen & Hjobs & Hnone) Hi Hjobs' Hdir.
  split; [|split].
  - by rewrite Hjobs'.
  - intros k g Hk. destruct (Hjobs k g Hk) as (stat & Hg & Hjob & Hdirg).
    exists stat. split; [done|]. rewrite count_occ_snoc.
    destruct (decide (i = k)) as [->|Hne]; [congruence|].
    rewrite Nat.add_0_r, Hjobs', Hdir. done.
  - intros g Hg. rewrite Hdir. by apply Hnone.
Qed.

Lemma clean_step_ok d sched cl i :
  cleanup_ok d sched cl -> cleanup_ok d (sched ++ [i]) (clean_step i cl).
Proof.
  intros Hok. pose proof Hok as (Hlen & Hjobs & Hnone).
  unfold Logfiles.clean_step.
  destruct (Logfiles.listDirectory d !! i) as [f|] eqn:Hi.
  - destruct (Hjobs i f Hi) as (stat & Hstat & Hjob & Hdir).
    rewrite Hjob. unfold Logfiles.mapper_step.
    cbn [Logfiles.job_file Logfiles.job_phase].
    pose proof (cleanup_ok_advance d sched cl) as Hadv.
    specialize (fun cl' => Hadv cl' i f stat Hok Hi Hstat).
    assert (forall cl',
              cl' = cl ->
              phase_after (S (count_occ Nat.eq_dec sched i)) f stat
              = phase_after (count_occ Nat.eq_dec sched i) f stat ->
              removed_after (S (count_occ Nat.eq_dec sched i)) f stat
              = removed_after (count_occ Nat.eq_dec sched i) f stat ->
              cleanup_ok d (sched ++ [i]) cl') as Hstay.
    { intros cl' -> Hph Hrm. apply Hadv.
      - rewrite Hph. symmetry. by apply list_insert_id.
      - by left. }
    unfold Logfiles.removed_after, Logfiles.doomed, Logfiles.succeeds
      in Hdir, Hadv, Hstay.
    destruct (count_occ Nat.eq_dec sched i) as [|[|[|n]]];
      cbn [Logfiles.phase_after Nat.leb] in Hdir, Hadv, Hstay |- *;
      destruct (Logfiles.matches_debug f), (Logfiles.matches_json f);
      cbn [negb andb orb] in Hdir, Hadv, Hstay |- *;
      try (apply Hadv; [done|by left]);
      try (by apply Hstay);
      destruct (lstat_error f);
      destruct (Logfiles.expired add_days clock f stat) eqn:He;
      destruct (remove_error f);
      cbn [negb andb orb] in Hdir, Hadv, Hstay |- *;
      rewrite ?Hdir; cbn [negb andb orb]; rewrite ?He;
      try (apply Hadv; [done|by left]);
      try (apply Hadv; [done|by right]);
      try (by apply Hstay).
  - assert (Logfiles.jobs cl !! i = None) as ->.
    { apply lookup_ge_None. rewrite Hlen. by apply lookup_ge_None. }
    destruct (i =? length (Logfiles.jobs cl))%nat.
    + apply (cleanup_ok_idle d sched cl); try done;
        unfold Logfiles.catch_step; by destruct (Logfiles.caught cl).
    + by apply (cleanup_ok_idle d sched cl).
Qed.

Lemma clean_run_snoc sched i cl :
  clean_run (sched ++ [i]) cl = clean_step i (clean_run sched cl).
Proof. unfold Logfiles.clean_run. by rewrite foldl_app. Qed.

(** Whatever the order in which the mappers take their steps, and
    whichever calls fail, the cleanup stays in order. *)
Lemma clean_run_ok d lg sched :
  cleanup_ok d sched (clean_run sched (Logfiles.start_cleanup d lg)).
Proof.
  induction sched as [|i sched IH] using rev_ind.
  - apply start_cleanup_ok.
  - rewrite clean_run_snoc. by apply clean_step_ok.
Qed.

End RetentionFacts.

(** The directory while the cleanup runs: an entry is gone exactly when
    its mapper has removed it. *)
Lemma clean_run_dir add_days clock lstat_error remove_error no_entry d lg sched f stat :
  d !! f = Some stat ->
  exists i,
    Logfiles.listDirectory d !! i = Some f
    /\ Logfiles.dir
         (Logfiles.clean_run add_days clock lstat_error remove_error no_entry sched
            (Logfiles.start_cleanup d lg)) !! f
       = if Logfiles.removed_after add_days clock lstat_error remove_error
              (count_occ Nat.eq_dec sched i) f stat
         then None else Some stat.
Proof.
  intros Hf.
  assert (f ∈ Logfiles.listDirectory d) as [i Hi]%list_elem_of_lookup_1
    by (apply elem_of_listDirectory; by exists stat).
  exists i. split; [done|].
  destruct (clean_run_ok add_days clock lstat_error remove_error no_entry d lg sched)
    as (_ & Hjobs & _).
  destruct (Hjobs i f Hi) as (stat' & Hf' & _ & Hdir).
  by assert (stat' = stat) as -> by congruence.
Qed.

(** C7: the retention job removes a file of the logs directory only if
    its name matches [/debug.*\.log/] or [/json.*\.log/] and its birth
    time plus [logfileExpiryDays] = 7 days lies before the current
    time; every other file is still there with the stats it had, and
    no file appears.  When the directory does not exist nothing
    changes.  This holds at every moment of the cleanup, in whatever
    order the mappers take their steps and whichever calls of [lstat]
    and [remove] fail. *)
Theorem prepareDebugLogfiles_removes_only_expired
    add_days clock lstat_error remove_error no_entry sched
    nowISO1 nowISO2 w commandFullName :
  Logfiles.logfileExpiryDays = 7%Z
  /\ match Logfiles.logsDir w with
     | None =>
         (Logfiles.prepareDebugLogfiles add_days clock lstat_error remove_error
            no_entry sched nowISO1 nowISO2 w commandFullName).1 = w
     | Some d =>
         exists d',
           Logfiles.logsDir
             (Logfiles.prepareDebugLogfiles add_days clock lstat_error remove_error
                no_entry sched nowISO1 nowISO2 w commandFullName).1 = Some d'
           /\ (forall f stat,
                 d !! f = Some stat -> d' !! f = None ->
                 (Logfiles.matches_debug f || Logfiles.matches_json f) = true
                 /\ (add_days 7 (Logfiles.birthtime stat) < clock f)%Z)
           /\ (forall f stat,
                 d !! f = Some stat ->
                 (Logfiles.matches_debug f || Logfiles.matches_json f) = false
                 \/ (clock f <= add_days 7 (Logfiles.birthtime stat))%Z ->
                 d' !! f = Some stat)
           /\ (forall f, d !! f = None -> d' !! f = None)
     end.
Proof.
  split; [done|].
  destruct (Logfiles.logsDir w) as [d|] eqn:Hd.
  - unfold Logfiles.prepareDebugLogfiles. rewrite Hd. cbn [fst Logfiles.logsDir].
    eexists. split; [done|].
    split; [|split].
    + intros f stat Hf Hgone.
      destruct (clean_run_dir add_days clock lstat_error remove_error no_entry d
                  (Logfiles.fs_log w) sched f stat Hf) as (i & _ & Hdir).
      rewrite Hgone in Hdir.
      unfold Logfiles.removed_after, Logfiles.doomed, Logfiles.expired,
        Logfiles.logfileExpiryDays in Hdir.
      destruct (_ || _); [|done]. split; [done|].
      destruct (Z.ltb_spec (add_days 7%Z (Logfiles.birthtime stat)) (clock f)); done.
    + intros f stat Hf Hkeep.
      destruct (clean_run_dir add_days clock lstat_error remove_error no_entry d
                  (Logfiles.fs_log w) sched f stat Hf) as (i & _ & ->).
      unfold Logfiles.removed_after, Logfiles.doomed, Logfiles.expired,
        Logfiles.logfileExpiryDays.
      destruct Hkeep as [-> | Hle]; [done|].
      destruct (Z.ltb_spec (add_days 7%Z (Logfiles.birthtime stat)) (clock f));
        [lia|]. by rewrite andb_false_r.
    + intros f Hf.
      by apply (clean_run_ok add_days clock lstat_error remove_error no_entry d
                  (Logfiles.fs_log w) sched).
  - unfold Logfiles.prepareDebugLogfiles. rewrite Hd. simpl. by destruct w.
Qed.

Lemma lookup_of_Some {A} (o : option (gmap string A)) d f r :
  o = Some d ->
  match o with Some d => d !! f | None => None end = r ->
  d !! f = r.
Proof. by intros -> <-. Qed.

Lemma prepareDebugLogfiles_removes_only_expired_witness :
  exists d',
    Logfiles.logsDir
      (Logfiles.prepareDebugLogfiles Logfiles.add_days_utc Samples.at_day_eight
         (fun _ => None) (fun _ => None) (fun f => f) Samples.cleanup_schedule
         "2023-01-09T02:26:40.000Z" "2023-01-09T02:26:40.001Z"
         {| Logfiles.logsDir := Some Samples.logs_dir; Logfiles.fs_log := [] |}
         "deploy").1 = Some d'
    /\ d' !! "deploy.debug.2023-01-01T00:00:00.000Z.log" = None
    /\ d' !! "deploy.debug.2023-02-01T00:00:00.000Z.log"
       = Some {| Logfiles.birthtime := 1000000000 |}
    /\ d' !! "notes.txt" = Some {| Logfiles.birthtime := 0 |}.
Proof.
  destruct (prepareDebugLogfiles_removes_only_expired Logfiles.add_days_utc
              Samples.at_day_eight (fun _ => None) (fun _ => None) (fun f => f)
              Samples.cleanup_schedule "2023-01-09T02:26:40.000Z"
              "2023-01-09T02:26:40.001Z"
              {| Logfiles.logsDir := Some Samples.logs_dir; Logfiles.fs_log := [] |}
              "deploy") as (_ & d' & Hd' & _ & Hkept & _).
  exists d'. split; [exact Hd'|]. split; [|split].
  - apply (lookup_of_Some _ _ _ _ Hd'). vm_compute. reflexivity.
  - apply Hkept; [reflexivity|]. right. vm_compute. discriminate.
  - apply Hkept; [reflexivity|]. left. reflexivity.
Defined.

(** * Facts about [UsersListCommand.action] *)

Lemma name_le_trans u v w : Users.name_le u v -> Users.name_le v w -> Users.name_le u w.
Proof.
  unfold Users.name_le. intros Huv Hvw.
  pose proof (@transitivity _ String.le _ (Users.name u) (Users.name v) (Users.name w))
    as Htrans.
  unfold String.le in Htrans.
  apply Is_true_true, Htrans; by apply Is_true_true.
Qed.

Lemma name_le_total u v : Users.name_le u v \/ Users.name_le v u.
Proof. unfold Users.name_le. apply String.leb_total. Qed.

Lemma insert_by_name_perm u l : Permutation (Users.insert_by_name u l) (u :: l).
Proof.
  induction l as [|v l IH]; simpl; [done|].
  destruct (String.leb _ _); [done|].
  rewrite IH. apply perm_swap.
Qed.

Lemma sortBy_name_perm l : Permutation (Users.sortBy_name l) l.
Proof.
  induction l as [|u l IH]; simpl; [done|].
  rewrite insert_by_name_perm. by constructor.
Qed.

Lemma insert_by_name_sorted u l :
  StronglySorted Users.name_le l -> StronglySorted Users.name_le (Users.insert_by_name u l).
Proof.
  induction l as [|v l IH]; simpl; intros Hs.
  - by repeat constructor.
  - apply StronglySorted_inv in Hs as [Hl Hv].
    destruct (String.leb (Users.name u) (Users.name v)) eqn:Huv.
    + constructor; [by constructor|]. constructor; [done|].
      eapply Forall_impl; [exact Hv|]. intros w Hw. by eapply name_le_trans.
    + constructor; [by apply IH|].
      rewrite insert_by_name_perm. constructor; [|done].
      destruct (name_le_total u v) as [H|H]; [|done]. unfold Users.name_le in H. congruence.
Qed.

Lemma sortBy_name_sorted l : StronglySorted Users.name_le (Users.sortBy_name l).
Proof.
  induction l as [|u l IH]; simpl; [constructor|]. by apply insert_by_name_sorted.
Qed.

Lemma filter_sorted (f : Users.UserResult -> bool) l :
  StronglySorted Users.name_le l -> StronglySorted Users.name_le (List.filter f l).
Proof.
  induction 1 as [|u l Hs IH Hall]; simpl; [constructor|].
  destruct (f u); [|done]. constructor; [done|].
  rewrite List.Forall_forall in *. intros v [Hv _]%filter_In. by apply Hall.
Qed.

(** [sortBy] is stable: users of the same name keep their order. *)
Lemma insert_by_name_stable n u l :
  List.filter (fun v => String.eqb (Users.name v) n) (Users.insert_by_name u l)
  = List.filter (fun v => String.eqb (Users.name v) n) (u :: l).
Proof.
  induction l as [|v l IH]; [done|].
  cbn [Users.insert_by_name].
  destruct (String.leb (Users.name u) (Users.name v)) eqn:Huv; [done|].
  cbn [List.filter] in *. rewrite IH.
  destruct (String.eqb (Users.name u) n) eqn:Hu,
           (String.eqb (Users.name v) n) eqn:Hv; try done.
  apply String.eqb_eq in Hu, Hv. rewrite Hu, Hv in Huv.
  destruct (String.leb_total n n); congruence.
Qed.

Lemma sortBy_name_stable n l :
  List.filter (fun v => String.eqb (Users.name v) n) (Users.sortBy_name l)
  = List.filter (fun v => String.eqb (Users.name v) n) l.
Proof.
  induction l as [|u l IH]; [done|].
  cbn [Users.sortBy_name foldr]. rewrite insert_by_name_stable.
  cbn [List.filter]. fold (Users.sortBy_name l). by rewrite IH.
Qed.

Section UsersListFacts.

Context {UserResponse : Type}.
Variable makeUserFromResponse : UserResponse -> Users.UserResult.
Variable applyFilter : list string -> Users.FilterValue -> bool.
Variable noApiMsg : string -> string -> string.
Variable getCloudDistributionName : string -> string.
Variable renderTable : list (list string) -> string.
Variable toUTCString : string -> string.
Variable bold : string -> string.
Variable cyan_bold : string -> string.
Variable max_arguments : nat.

(** The loop stops at the first empty page, with the users of all the
    pages before it, in order, having requested each page up to it
    once. *)
Lemma fetch_first_empty (api : Users.CloudApi UserResponse) n :
  Users.first_empty_page UserResponse max_arguments api n ->
  forall fuel page users lg,
    page <= n -> n - page < fuel ->
    Users.fetch UserResponse makeUserFromResponse max_arguments api fuel page users lg
    = (Users.Fetched
         (users
            ++ flat_map (fun p =>
                           match Users.get_users _ api p with
                           | inr res => map makeUserFromResponse res
                           | inl _ => []
                           end) (seq page (n - page))),
       lg ++ map Reading.fetch_line (seq page (S (n - page)))).
Proof.
  intros [Hempty Hbefore] fuel.
  induction fuel as [|fuel IH]; intros page users lg Hle Hfuel; [lia|].
  cbn [Users.fetch].
  destruct (decide (page = n)) as [->|Hne].
  - rewrite Hempty, Nat.sub_diag. simpl. by rewrite app_nil_r.
  - destruct (Hbefore page) as (res & Hres & Hnonempty & Hsize); [lia|].
    rewrite Hres. destruct res as [|r rs]; [done|].
    assert ((max_arguments <? length (r :: rs))%nat = false) as ->
      by (apply Nat.ltb_ge; exact Hsize).
    rewrite IH by lia.
    replace (n - page) with (S (n - S page)) by lia.
    cbn [seq flat_map map]. rewrite Hres, <- !app_assoc. done.
Qed.

Lemma length_zero_nil {A} (l : list A) : Nat.eqb (length l) 0 = true -> l = [].
Proof. by destruct l. Qed.

(** The project is looked up when the project id is not empty. *)
Lemma project_of_found garden (api : Users.CloudApi UserResponse) pid project :
  Users.projectId _ garden = Some pid ->
  pid <> "" ->
  Users.getProjectById _ api pid = inr (Some project) ->
  Users.project_of _ garden api = inr (Some project).
Proof.
  intros Hpid Hne Hproj. unfold Users.project_of. rewrite Hpid.
  destruct pid; [done|]. exact Hproj.
Qed.

(** What [action] gives once the project is found and the pages are
    fetched: the listing of the users fetched, and the log of the
    requests followed by the report. *)
Lemma action_fetched fuel garden opts lg api project n :
  Users.cloudApi _ garden = Some api ->
  Users.project_of _ garden api = inr (Some project) ->
  Users.first_empty_page UserResponse max_arguments api n ->
  n < fuel ->
  let users := Users.fetched _ makeUserFromResponse api n in
  let result := Users.listing applyFilter opts users in
  Users.action UserResponse makeUserFromResponse applyFilter noApiMsg
    getCloudDistributionName renderTable toUTCString bold cyan_bold max_arguments
    fuel garden opts lg
  = (Users.Resolved result,
     lg ++ map Reading.fetch_line (seq 0 (S n)) ++ (Users.LInfo, "")
       :: match users, result with
          | [], _ => [(Users.LInfo, "No users found in project.")]
          | _ :: _, [] =>
              [(Users.LInfo, "No users found in project that match filters.")]
          | _ :: _, _ :: _ =>
              [(Users.LDebug,
                "Found " +:+ pretty (length result) +:+ " users that match filters");
               (Users.LInfo,
                renderTable
                  (map bold ["Name"; "ID"; Users.vcs_title project +:+ " Username";
                             "Groups"; "Created At"]
                     :: map (Users.row toUTCString cyan_bold) result))]
          end).
Proof.
  intros Hapi Hproj Hn Hfuel. unfold Users.action, Users.project_of in *.
  rewrite Hapi, Hproj.
  rewrite (fetch_first_empty api n Hn fuel 0 [] lg) by lia.
  rewrite Nat.sub_0_r. cbn [app].
  fold (Users.fetched _ makeUserFromResponse api n).
  fold (Users.listing applyFilter opts (Users.fetched _ makeUserFromResponse api n)).
  fold (Users.vcs_title project).
  cbv zeta.
  destruct (Users.fetched _ makeUserFromResponse api n) as [|u users] eqn:Hf.
  - cbn [length Nat.eqb]. by rewrite <- !app_assoc.
  - cbn [length Nat.eqb].
    destruct (Users.listing applyFilter opts (u :: users)) as [|v result] eqn:Hl.
    + cbn [length Nat.eqb]. by rewrite <- !app_assoc.
    + cbn [length Nat.eqb]. by rewrite <- !app_assoc.
Qed.

(** C10: once the project is found and the pages are fetched, [action]
    resolves, and every user of its result passes the name filter and
    the group filter and is one of the users fetched; the result is
    sorted by name; when no fetched user passes both filters the result
    is empty. *)
Theorem users_list_result_filtered_sorted fuel garden opts lg api project pid n :
  Users.cloudApi _ garden = Some api ->
  Users.projectId _ garden = Some pid ->
  pid <> "" ->
  Users.getProjectById _ api pid = inr (Some project) ->
  Users.first_empty_page UserResponse max_arguments api n ->
  n < fuel ->
  exists result,
    (Users.action UserResponse makeUserFromResponse applyFilter noApiMsg
       getCloudDistributionName renderTable toUTCString bold cyan_bold max_arguments
       fuel garden opts lg).1 = Users.Resolved result
    /\ Forall (fun u =>
                 applyFilter (default [] (Users.filter_names opts))
                   (Users.One (Users.name u)) = true
                 /\ applyFilter (default [] (Users.filter_groups opts))
                      (Users.Many (map Users.group_name (Users.groups u))) = true
                 /\ In u (Users.fetched _ makeUserFromResponse api n)) result
    /\ StronglySorted
         (fun u v => String.leb (Users.name u) (Users.name v) = true) result
    /\ (Forall (fun u =>
                  ~ (applyFilter (default [] (Users.filter_names opts))
                       (Users.One (Users.name u)) = true
                     /\ applyFilter (default [] (Users.filter_groups opts))
                          (Users.Many (map Users.group_name (Users.groups u))) = true))
          (Users.fetched _ makeUserFromResponse api n) ->
        result = []).
Proof.
  intros Hapi Hpid Hne Hproj Hn Hfuel.
  exists (Users.listing applyFilter opts (Users.fetched _ makeUserFromResponse api n)).
  split.
  { rewrite (action_fetched fuel garden opts lg api project n); try done.
    by eapply project_of_found. }
  split; [|split].
  - apply List.Forall_forall. intros u Hu. unfold Users.listing in Hu.
    apply filter_In in Hu as [Hu Hgroups]. apply filter_In in Hu as [Hu Hnames].
    split; [done|]. split; [done|].
    eapply Permutation_in; [apply sortBy_name_perm|done].
  - apply filter_sorted, filter_sorted, sortBy_name_sorted.
  - intros Hnone. unfold Users.listing.
    destruct (List.filter _ _) as [|u rest] eqn:Hlist; [done|].
    assert (Hu : In u (u :: rest)) by (by left). rewrite <- Hlist in Hu.
    apply filter_In in Hu as [Hu Hgroups]. apply filter_In in Hu as [Hu Hnames].
    apply (Permutation_in _ (sortBy_name_perm _)) in Hu.
    rewrite List.Forall_forall in Hnone. by destruct (Hnone u Hu).
Qed.

(** Whatever the API answers and whatever the bound on the pages, a
    result that [action] resolves with is filtered and sorted. *)
Lemma users_list_result_partial fuel garden opts lg result :
  (Users.action UserResponse makeUserFromResponse applyFilter noApiMsg
     getCloudDistributionName renderTable toUTCString bold cyan_bold max_arguments
     fuel garden opts lg).1 = Users.Resolved result ->
  Forall (fun u =>
            Users.passes_names applyFilter (default [] (Users.filter_names opts)) u = true
            /\ Users.passes_groups applyFilter (default [] (Users.filter_groups opts)) u
               = true) result
  /\ StronglySorted Users.name_le result.
Proof.
  unfold Users.action.
  destruct (Users.cloudApi _ garden) as [api|]; [|done].
  destruct (match JsString.truthy (Users.projectId _ garden) with
            | Some _ => _ | None => _ end) as [m|[project|]]; [done| |done].
  destruct (Users.fetch _ _ _ _ _ _ _ _) as [[users|err|] lg']; [|done|done].
  destruct (Nat.eqb (length users) 0); [intros [= <-]; by split; constructor|].
  fold (Users.listing applyFilter opts users).
  destruct (Nat.eqb (length (Users.listing applyFilter opts users)) 0);
    [intros [= <-]; by split; constructor|].
  simpl. intros [= <-]. split.
  - apply List.Forall_forall. intros u Hu. unfold Users.listing in Hu.
    apply filter_In in Hu as [Hu Hgroups]. by apply filter_In in Hu as [Hu Hnames].
  - apply filter_sorted, filter_sorted, sortBy_name_sorted.
Qed.

End UsersListFacts.

Lemma sample_first_empty_page : Users.first_empty_page _ 1000 Samples.api 2.
Proof.
  split; [reflexivity|]. intros [|[|k]] Hk; [| |lia].
  - eexists. split; [reflexivity|]. split; [done|]. simpl. lia.
  - eexists. split; [reflexivity|]. split; [done|]. simpl. lia.
Defined.

Lemma users_list_result_filtered_sorted_witness :
  Users.projectId _ Samples.garden = Some "p1"
  /\ "p1" <> ""
  /\ Users.first_empty_page _ 1000 Samples.api 2
  /\ 2 < 5
  /\ exists result,
      (Samples.run_list 5).1 = Users.Resolved result
      /\ StronglySorted
           (fun u v => String.leb (Users.name u) (Users.name v) = true) result.
Proof.
  split; [reflexivity|]. split; [discriminate|].
  split; [exact sample_first_empty_page|]. split; [lia|].
  destruct (users_list_result_filtered_sorted (fun u => u) Samples.listed
              (fun _ _ => "no api") (fun _ => "Garden Cloud")
              (String.concat ";" ∘ map (String.concat ",")) (fun s => s)
              (fun s => s) (fun s => s) 1000 5 Samples.garden Samples.only_devs []
              Samples.api
              {| Users.repositoryUrl := "https://github.com/garden-io/garden" |}
              "p1" 2 eq_refl eq_refl ltac:(discriminate) eq_refl
              sample_first_empty_page ltac:(lia))
    as (result & Hres & _ & Hsorted & _).
  exists result. split; [exact Hres|exact Hsorted].
Defined.

(** * Further facts about [LogsCommand.action] *)

(** X1: when every handler resolves and the schedule is adequate, the
    call returns, and what the collectors performed on the stream and
    the logger is, taken together, exactly what the handlers of the
    resolved services do: nothing is lost or duplicated by the
    interleaving, and each collector kept the order of its handler. *)
Theorem logs_collectors_perform_union toISOString collab args opts sched c services :
  getServices collab (names_of args) = inr services ->
  (forall i s, services !! i = Some s ->
     ending (collector collab (env_of opts c) (opt_tail opts) s) = Finishes) ->
  adequate collab (env_of opts c) (opt_tail opts) services sched = true ->
  exists st,
    final (action toISOString collab args opts sched c) = Some st
    /\ outcome (action toISOString collab args opts sched c) = Returned []
    /\ Permutation (all_effects (events st))
         (concat (map (fun s => effects (collector collab (env_of opts c)
                                           (opt_tail opts) s)) services))
    /\ forall i s, services !! i = Some s ->
         In (EvDone i) (events st)
         /\ effects_of i (events st)
            = effects (collector collab (env_of opts c) (opt_tail opts) s).
Proof.
  intros Hres Hfin Had.
  destruct (dispatch_all_succeed toISOString collab args opts sched c services
              Hres Hfin Had) as (Hout & st & Hst & Hlog & Hdone).
  exists st. split; [done|]. split; [done|].
  revert Hst Hlog Hdone. rewrite (action_resolved _ _ _ _ _ _ _ Hres). simpl.
  intros [= <-] Hlog Hdone. split.
  - apply dispatch_displays_union. intros i s Hs. by eapply adequate_spec.
  - intros i s Hs. by apply Hdone.
Qed.

Lemma logs_collectors_perform_union_witness :
  getServices (LogsSamples.resolving [LogsSamples.svcA; LogsSamples.svcB])
    (names_of LogsSamples.no_args) = inr [LogsSamples.svcA; LogsSamples.svcB]
  /\ adequate (LogsSamples.resolving [LogsSamples.svcA; LogsSamples.svcB])
       (env_of LogsSamples.no_opts LogsSamples.c0) (opt_tail LogsSamples.no_opts)
       [LogsSamples.svcA; LogsSamples.svcB] [0; 1; 0; 1; 0; 1; 0] = true
  /\ exists st,
      final (action LogsSamples.iso
               (LogsSamples.resolving [LogsSamples.svcA; LogsSamples.svcB])
               LogsSamples.no_args LogsSamples.no_opts [0; 1; 0; 1; 0; 1; 0]
               LogsSamples.c0) = Some st
      /\ outcome (action LogsSamples.iso
                    (LogsSamples.resolving [LogsSamples.svcA; LogsSamples.svcB])
                    LogsSamples.no_args LogsSamples.no_opts [0; 1; 0; 1; 0; 1; 0]
                    LogsSamples.c0) = Returned [].
Proof.
  split; [reflexivity|]. split; [reflexivity|].
  destruct (logs_collectors_perform_union LogsSamples.iso
              (LogsSamples.resolving [LogsSamples.svcA; LogsSamples.svcB])
              LogsSamples.no_args LogsSamples.no_opts [0; 1; 0; 1; 0; 1; 0]
              LogsSamples.c0 [LogsSamples.svcA; LogsSamples.svcB] eq_refl)
    as (st & Hst & Hout & _).
  - intros [|[|i]] s Hi; simpl in Hi; [| |discriminate];
      injection Hi as <-; reflexivity.
  - reflexivity.
  - exists st. split; [exact Hst|exact Hout].
Defined.

(** X2: in every interleaving, and whether or not the call has
    settled, what the collector of a resolved service has performed is
    an initial part of what its handler does, in the handler's order:
    the entries of one service are never reordered. *)
Theorem logs_collector_order_kept toISOString collab args opts sched c services i s :
  getServices collab (names_of args) = inr services ->
  services !! i = Some s ->
  exists st todo,
    final (action toISOString collab args opts sched c) = Some st
    /\ effects_of i (events st) ++ todo
       = effects (collector collab (env_of opts c) (opt_tail opts) s).
Proof.
  intros Hres Hs. rewrite (action_resolved _ _ _ _ _ _ _ Hres). simpl.
  destruct (effects_prefix toISOString collab (env_of opts c) (opt_tail opts)
              services (prepared opts c) sched i s Hs) as [todo Htodo].
  by eexists _, todo.
Qed.

Lemma logs_collector_order_kept_witness :
  getServices (LogsSamples.resolving [LogsSamples.svcA; LogsSamples.svcB])
    (names_of LogsSamples.no_args) = inr [LogsSamples.svcA; LogsSamples.svcB]
  /\ [LogsSamples.svcA; LogsSamples.svcB] !! 0 = Some LogsSamples.svcA
  /\ exists st todo,
      final (action LogsSamples.iso
               (LogsSamples.resolving [LogsSamples.svcA; LogsSamples.svcB])
               LogsSamples.no_args LogsSamples.no_opts [0; 1; 0]
               LogsSamples.c0) = Some st
      /\ effects_of 0 (events st) ++ todo
         = effects (collector (LogsSamples.resolving [LogsSamples.svcA; LogsSamples.svcB])
                      (env_of LogsSamples.no_opts LogsSamples.c0)
                      (opt_tail LogsSamples.no_opts) LogsSamples.svcA).
Proof.
  split; [reflexivity|]. split; [reflexivity|].
  apply (logs_collector_order_kept LogsSamples.iso
           (LogsSamples.resolving [LogsSamples.svcA; LogsSamples.svcB])
           LogsSamples.no_args LogsSamples.no_opts [0; 1; 0] LogsSamples.c0
           [LogsSamples.svcA; LogsSamples.svcB] 0 LogsSamples.svcA); reflexivity.
Defined.

(** ** One call of the handler per resolved service *)

Lemma invocations_life i evs :
  Reading.invocations i (life i evs) = Reading.invocations i evs.
Proof.
  unfold Reading.invocations, life.
  induction evs as [|ev evs IH]; [done|]. simpl.
  destruct ev as [|j|j eff|j|j err]; simpl; try destruct (Nat.eqb j i) eqn:E;
    simpl; rewrite ?E; by rewrite ?IH.
Qed.

Lemma invocations_effects i (l : list Effect) (rest : list Event) :
  Reading.invocations i (map (EvEffect i) l ++ rest) = Reading.invocations i rest.
Proof. induction l as [|eff l IH]; [done|]. exact IH. Qed.

Lemma invocations_task_ok b i s evs :
  task_ok b i s evs ->
  Reading.invocations i evs
  = match s with Unspawned => [] | _ => [EvInvoke i] end.
Proof.
  unfold task_ok. destruct s as [|todo fin| |err].
  - by intros ->.
  - intros (performed & -> & _).
    unfold Reading.invocations. simpl. rewrite Nat.eqb_refl. f_equal.
    rewrite <- (app_nil_r (map _ _)). apply invocations_effects.
  - intros [-> _]. unfold Reading.invocations. simpl. rewrite Nat.eqb_refl.
    f_equal. apply invocations_effects.
  - intros [-> _]. unfold Reading.invocations. simpl. rewrite Nat.eqb_refl.
    f_equal. apply invocations_effects.
Qed.

(** How far a task has come is what it needed less the steps it was
    given. *)
Lemma run_need collab env tail sched i :
  forall st t',
    pool (run collab env tail sched st) !! i = Some t' ->
    exists t, pool st !! i = Some t
      /\ need collab env tail t'
         = need collab env tail t - count_occ Nat.eq_dec sched i.
Proof.
  induction sched as [|k sched IH]; intros st t' Ht'.
  - exists t'. simpl. split; [done|lia].
  - simpl in Ht'. apply IH in Ht' as (t1 & Ht1 & Hn1).
    apply step_need in Ht1 as (t & Ht & Hn).
    exists t. split; [done|]. rewrite Hn1, Hn. simpl.
    destruct (Nat.eq_dec k i) as [->|Hne].
    + rewrite decide_True by done. lia.
    + rewrite decide_False by congruence. lia.
Qed.

(** X3: the handler of a resolved service is called at most once,
    whatever the interleaving, and exactly once as soon as the schedule
    gives its collector a step; no handler is called for anything but a
    resolved service. *)
Theorem logs_one_call_per_service toISOString collab args opts sched c services :
  getServices collab (names_of args) = inr services ->
  exists st,
    final (action toISOString collab args opts sched c) = Some st
    /\ forall i,
        length (Reading.invocations i (events st)) <= 1
        /\ (length services <= i -> Reading.invocations i (events st) = [])
        /\ (i < length services -> 1 <= count_occ Nat.eq_dec sched i ->
            Reading.invocations i (events st) = [EvInvoke i]).
Proof.
  intros Hres. rewrite (action_resolved _ _ _ _ _ _ _ Hres). simpl.
  eexists. split; [done|]. intros i.
  set (st := run _ _ _ _ _).
  destruct (run_ok toISOString collab (env_of opts c) (opt_tail opts) services
              (prepared opts c) sched) as (_ & _ & [Hsv Hok] & _).
  fold st in Hsv, Hok. specialize (Hok i).
  assert (Hlen : length (pool st) = length services)
    by (by rewrite <- Hsv, length_map).
  destruct (pool st !! i) as [t|] eqn:Ht.
  - apply invocations_task_ok in Hok. rewrite invocations_life in Hok.
    pose proof (lookup_lt_Some _ _ _ Ht) as Hi.
    split; [rewrite Hok; destruct (task_status t); simpl; lia|].
    split; [lia|]. intros _ Hcount. rewrite Hok.
    destruct (task_status t) eqn:Hstatus; try done.
    exfalso.
    destruct (run_need _ _ _ _ _ _ _ Ht) as (t0 & Ht0 & Hneed).
    apply start_pool_lookup in Ht0 as [Hs0 Hst0].
    assert (Hsame : services !! i = Some (task_service t))
      by (by rewrite <- Hsv, list_lookup_fmap, Ht).
    rewrite Hs0 in Hsame. injection Hsame as Hsame.
    unfold need in Hneed. rewrite Hstatus, Hst0, Hsame in Hneed.
    unfold steps_needed in Hneed. lia.
  - rewrite <- invocations_life, Hok.
    apply lookup_ge_None in Ht. split; [simpl; lia|]. split; [done|lia].
Qed.

Lemma logs_one_call_per_service_witness :
  getServices (LogsSamples.resolving [LogsSamples.svcA; LogsSamples.svcB])
    (names_of LogsSamples.no_args) = inr [LogsSamples.svcA; LogsSamples.svcB]
  /\ exists st,
      final (action LogsSamples.iso
               (LogsSamples.resolving [LogsSamples.svcA; LogsSamples.svcB])
               LogsSamples.no_args LogsSamples.no_opts [1; 1; 1; 1]
               LogsSamples.c0) = Some st
      /\ Reading.invocations 1 (events st) = [EvInvoke 1]
      /\ Reading.invocations 0 (events st) = [].
Proof.
  split; [reflexivity|].
  destruct (logs_one_call_per_service LogsSamples.iso
              (LogsSamples.resolving [LogsSamples.svcA; LogsSamples.svcB])
              LogsSamples.no_args LogsSamples.no_opts [1; 1; 1; 1]
              LogsSamples.c0 [LogsSamples.svcA; LogsSamples.svcB] eq_refl)
    as (st & Hst & Hcalls).
  exists st. split; [exact Hst|]. split.
  - apply (Hcalls 1); simpl; lia.
  - vm_compute in Hst. injection Hst as <-. reflexivity.
Defined.



(** ** A settled call stays settled *)

Lemma promise_settle_kept st : promise st <> Pending -> promise (settle st) = promise st.
Proof.
  intros Hp. unfold settle. destruct (promise st) eqn:E; [done|exact E|exact E].
Qed.

Lemma promise_step_kept collab env tail i st :
  promise st <> Pending -> promise (step collab env tail i st) = promise st.
Proof.
  intros Hp.
  destruct (step_cases collab env tail i st)
    as [?|t Ht Hs|t eff todo fin Ht Hs|t Ht Hs|t err Ht Hs]; try done.
  - by rewrite promise_settle_kept.
  - simpl. by destruct (promise st).
Qed.

Lemma promise_run_kept collab env tail sched :
  forall st, promise st <> Pending ->
             promise (run collab env tail sched st) = promise st.
Proof.
  induction sched as [|i sched IH]; intros st Hp; [done|].
  change (promise (run collab env tail sched (step collab env tail i st)) = promise st).
  rewrite IH; rewrite promise_step_kept; done.
Qed.

(** X5: once the call has returned or raised, letting the collectors
    run on does not change what it returned or raised: the first error
    is the one the caller gets, and a later error or a late resolution
    never replaces it. *)
Theorem logs_outcome_settled_once toISOString collab args opts sched more c :
  outcome (action toISOString collab args opts sched c) <> Awaiting ->
  outcome (action toISOString collab args opts (sched ++ more) c)
  = outcome (action toISOString collab args opts sched c).
Proof.
  destruct (getServices collab (names_of args)) as [err|services] eqn:Hres.
  - by rewrite !(action_unresolved _ _ _ _ _ _ _ Hres).
  - rewrite !(action_resolved _ _ _ _ _ _ _ Hres). simpl. intros Hout.
    rewrite run_app, promise_run_kept; [done|].
    intros Hp. by rewrite Hp in Hout.
Qed.

Lemma logs_outcome_settled_once_witness :
  outcome (action LogsSamples.iso
             (LogsSamples.resolving [LogsSamples.svcC; LogsSamples.svcC])
             LogsSamples.no_args LogsSamples.no_opts ([0; 0] ++ [1; 1; 1])
             LogsSamples.c0)
  = outcome (action LogsSamples.iso
               (LogsSamples.resolving [LogsSamples.svcC; LogsSamples.svcC])
               LogsSamples.no_args LogsSamples.no_opts [0; 0] LogsSamples.c0).
Proof.
  apply (logs_outcome_settled_once LogsSamples.iso
           (LogsSamples.resolving [LogsSamples.svcC; LogsSamples.svcC])
           LogsSamples.no_args LogsSamples.no_opts [0; 0] [1; 1; 1] LogsSamples.c0).
  vm_compute. discriminate.
Defined.

(** ** The service argument *)

Lemma string_rev_app (s1 s2 : string) :
  String.rev_app s1 s2 = String.rev s1 +:+ s2.
Proof.
  unfold String.rev. revert s2.
  induction s1 as [|a s1 IH]; intros s2; [done|].
  simpl. rewrite IH, (IH (String a "")), string_app_assoc. done.
Qed.

Lemma string_rev_cons a (s : string) :
  String.rev (String a s) = String.rev s +:+ String a "".
Proof. unfold String.rev at 1. simpl. apply string_rev_app. Qed.

Lemma includes_char_rev c (s : string) :
  JsString.includes_char c (String.rev s) = JsString.includes_char c s.
Proof.
  induction s as [|a s IH]; [done|].
  rewrite string_rev_cons, includes_char_app, IH. simpl.
  destruct (Ascii.eqb a c); [apply orb_true_r|]. by rewrite orb_false_r.
Qed.

Lemma split_go_nonempty c cur s : JsString.split_go c cur s <> [].
Proof.
  revert cur. induction s as [|a s IH]; intros cur; simpl; [done|].
  destruct (Ascii.eqb a c); [done|apply IH].
Qed.

Lemma concat_cons_nonempty sep x (l : list string) :
  l <> [] -> String.concat sep (x :: l) = x +:+ sep +:+ String.concat sep l.
Proof. by destruct l. Qed.

(** Joining the pieces with the separator gives the string back. *)
Lemma split_go_join c (s : string) :
  forall cur,
    String.concat (String c "") (JsString.split_go c cur s) = String.rev cur +:+ s.
Proof.
  induction s as [|a s IH]; intros cur; simpl.
  - by rewrite string_app_nil_r.
  - destruct (Ascii.eqb a c) eqn:E.
    + apply Ascii.eqb_eq in E as ->.
      rewrite concat_cons_nonempty by apply split_go_nonempty.
      by rewrite IH.
    + rewrite IH, string_rev_cons, string_app_assoc. done.
Qed.

Lemma split_go_length c (s : string) :
  forall cur, length (JsString.split_go c cur s) = S (JsString.count_char c s).
Proof.
  induction s as [|a s IH]; intros cur; simpl; [done|].
  destruct (Ascii.eqb a c); simpl; by rewrite IH.
Qed.

Lemma split_go_pieces c (s : string) :
  forall cur,
    JsString.includes_char c cur = false ->
    Forall (fun piece => JsString.includes_char c piece = false)
      (JsString.split_go c cur s).
Proof.
  induction s as [|a s IH]; intros cur Hcur; simpl.
  - constructor; [by rewrite includes_char_rev|constructor].
  - destruct (Ascii.eqb a c) eqn:E.
    + constructor; [by rewrite includes_char_rev|]. by apply IH.
    + apply IH. simpl. by rewrite E.
Qed.

(** X6: the names handed to the service resolution.  Without a
    [service] argument, or with an empty one, no names are given (all
    services are meant).  Otherwise the argument is cut at its commas:
    there is one name more than there are commas, no name contains a
    comma, and the names joined by commas are the argument again (so
    ["a,,b"] and a trailing comma give an empty name). *)
Theorem logs_service_names_parsed (args : Args) :
  match arg_service args with
  | None | Some EmptyString => names_of args = None
  | Some s =>
      exists names,
        names_of args = Some names
        /\ String.concat "," names = s
        /\ length names = S (JsString.count_char "," s)
        /\ Forall (fun n => JsString.includes_char "," n = false) names
  end.
Proof.
  destruct args as [[s|]]; simpl; [|done].
  destruct s as [|a s]; [done|].
  exists (JsString.split "," (String a s)). split; [done|].
  unfold JsString.split. split; [|split].
  - by rewrite split_go_join.
  - apply split_go_length.
  - by apply split_go_pieces.
Qed.

(** * Further facts about the debug-logfile helpers *)

(** X7: the retention job misses nothing it can remove.  An entry of
    the logs directory whose name matches one of the two patterns and
    whose birth time plus 7 days lies before the current time is gone
    once its mapper has taken its three steps (the call, the completion
    of [lstat], the completion of [remove]), if neither call failed for
    it, in whatever order the other mappers ran; until then, and when
    one of the two calls fails, it is still there. *)
Theorem prepareDebugLogfiles_removes_every_expired
    add_days clock lstat_error remove_error no_entry sched
    nowISO1 nowISO2 w commandFullName d f stat :
  Logfiles.logsDir w = Some d ->
  d !! f = Some stat ->
  (Logfiles.matches_debug f || Logfiles.matches_json f) = true ->
  (add_days 7%Z (Logfiles.birthtime stat) < clock f)%Z ->
  exists i d',
    Logfiles.listDirectory d !! i = Some f
    /\ Logfiles.logsDir
         (Logfiles.prepareDebugLogfiles add_days clock lstat_error remove_error
            no_entry sched nowISO1 nowISO2 w commandFullName).1 = Some d'
    /\ (3 <= count_occ Nat.eq_dec sched i ->
        lstat_error f = None -> remove_error f = None ->
        d' !! f = None)
    /\ (count_occ Nat.eq_dec sched i < 3
        \/ lstat_error f <> None \/ remove_error f <> None ->
        d' !! f = Some stat).
Proof.
  intros Hd Hf Hmatch Hold.
  destruct (clean_run_dir add_days clock lstat_error remove_error no_entry d
              (Logfiles.fs_log w) sched f stat Hf) as (i & Hi & Hdir).
  exists i. unfold Logfiles.prepareDebugLogfiles. rewrite Hd.
  cbn [fst Logfiles.logsDir]. eexists. split; [done|]. split; [done|].
  rewrite Hdir.
  unfold Logfiles.removed_after, Logfiles.doomed, Logfiles.expired,
    Logfiles.logfileExpiryDays, Logfiles.succeeds.
  rewrite Hmatch.
  destruct (Z.ltb_spec (add_days 7%Z (Logfiles.birthtime stat)) (clock f)); [|lia].
  cbn [andb]. split.
  - intros Hsteps -> ->. by destruct (Nat.leb_spec 3 (count_occ Nat.eq_dec sched i)); [|lia].
  - intros [Hsteps|[Hl|Hr]].
    + by destruct (Nat.leb_spec 3 (count_occ Nat.eq_dec sched i)); [lia|].
    + destruct (lstat_error f); [|done]. by rewrite andb_false_r.
    + destruct (remove_error f); [|done]. by rewrite andb_false_r.
Qed.

Lemma prepareDebugLogfiles_removes_every_expired_witness :
  exists i d',
    Logfiles.listDirectory Samples.logs_dir !! i
    = Some "deploy.debug.2023-01-01T00:00:00.000Z.log"
    /\ Logfiles.logsDir
         (Logfiles.prepareDebugLogfiles Logfiles.add_days_utc Samples.at_day_eight
            (fun _ => None) (fun _ => None) (fun f => f) Samples.cleanup_schedule
            "2023-01-09T02:26:40.000Z" "2023-01-09T02:26:40.001Z"
            {| Logfiles.logsDir := Some Samples.logs_dir; Logfiles.fs_log := [] |}
            "deploy").1 = Some d'
    /\ d' !! "deploy.debug.2023-01-01T00:00:00.000Z.log" = None.
Proof.
  destruct (prepareDebugLogfiles_removes_every_expired Logfiles.add_days_utc
              Samples.at_day_eight (fun _ => None) (fun _ => None) (fun f => f)
              Samples.cleanup_schedule "2023-01-09T02:26:40.000Z"
              "2023-01-09T02:26:40.001Z"
              {| Logfiles.logsDir := Some Samples.logs_dir; Logfiles.fs_log := [] |}
              "deploy" Samples.logs_dir "deploy.debug.2023-01-01T00:00:00.000Z.log"
              {| Logfiles.birthtime := 0 |})
    as (i & d' & Hi & Hd' & Hgone & _); [reflexivity..|].
  exists i, d'. split; [exact Hi|]. split; [exact Hd'|].
  apply Hgone; [|reflexivity..].
  assert (i = 1%nat) as ->.
  { eapply NoDup_lookup; [apply listDirectory_NoDup|exact Hi|reflexivity]. }
  vm_compute. lia.
Defined.

(** X9: once a cleanup has run to its end and no call of [lstat] or
    [remove] has failed, a later cleanup at the same times removes
    nothing more, in whatever order its mappers run: the directory after
    the second job is the directory after the first. *)
Theorem prepareDebugLogfiles_idempotent
    add_days clock lstat_error remove_error no_entry sched
    lstat_error' remove_error' no_entry' sched'
    nowISO1 nowISO2 nowISO3 nowISO4 w commandFullName commandFullName' :
  (forall d,
     Logfiles.logsDir w = Some d ->
     Logfiles.complete (length (Logfiles.listDirectory d)) sched = true) ->
  (forall f, lstat_error f = None) ->
  (forall f, remove_error f = None) ->
  Logfiles.logsDir
    (Logfiles.prepareDebugLogfiles add_days clock lstat_error' remove_error'
       no_entry' sched' nowISO3 nowISO4
       (Logfiles.prepareDebugLogfiles add_days clock lstat_error remove_error
          no_entry sched nowISO1 nowISO2 w commandFullName).1 commandFullName').1
  = Logfiles.logsDir
      (Logfiles.prepareDebugLogfiles add_days clock lstat_error remove_error
         no_entry sched nowISO1 nowISO2 w commandFullName).1.
Proof.
  intros Hcomplete Hlstat Hremove.
  unfold Logfiles.prepareDebugLogfiles at 2 3.
  destruct (Logfiles.logsDir w) as [d|] eqn:Hd.
  2:{ unfold Logfiles.prepareDebugLogfiles. cbn [fst]. by rewrite Hd. }
  specialize (Hcomplete d eq_refl).
  unfold Logfiles.prepareDebugLogfiles. cbn [fst Logfiles.logsDir Logfiles.fs_log].
  f_equal. apply map_eq. intros f.
  set (cl := Logfiles.clean_run add_days clock lstat_error remove_error no_entry sched
               (Logfiles.start_cleanup d (Logfiles.fs_log w))).
  destruct (Logfiles.dir cl !! f) as [stat|] eqn:Hf.
  - destruct (clean_run_dir add_days clock lstat_error' remove_error' no_entry'
                (Logfiles.dir cl) (Logfiles.lines cl) sched' f stat Hf)
      as (k & _ & ->).
    destruct (d !! f) as [stat'|] eqn:Hdf.
    + destruct (clean_run_dir add_days clock lstat_error remove_error no_entry d
                  (Logfiles.fs_log w) sched f stat' Hdf) as (i & Hi & Hdir).
      fold cl in Hdir. rewrite Hf in Hdir.
      assert (3 <= count_occ Nat.eq_dec sched i) as Hsteps.
      { unfold Logfiles.complete in Hcomplete.
        rewrite forallb_forall in Hcomplete.
        apply Nat.leb_le, Hcomplete, in_seq. split; [lia|]. simpl.
        by eapply lookup_lt_Some. }
      unfold Logfiles.removed_after, Logfiles.succeeds in Hdir |- *.
      rewrite Hlstat, Hremove, !andb_true_r in Hdir.
      destruct (Nat.leb_spec 3 (count_occ Nat.eq_dec sched i)); [|lia].
      rewrite andb_true_r in Hdir.
      destruct (Logfiles.doomed add_days clock f stat') eqn:Hdoom; [done|].
      injection Hdir as ->. by rewrite Hdoom.
    + pose proof (clean_run_ok add_days clock lstat_error remove_error no_entry d
                    (Logfiles.fs_log w) sched) as (_ & _ & Hnone).
      fold cl in Hnone. rewrite Hnone in Hf; done.
  - by apply (clean_run_ok add_days clock lstat_error' remove_error' no_entry'
                (Logfiles.dir cl) (Logfiles.lines cl) sched').
Qed.

Lemma prepareDebugLogfiles_idempotent_witness :
  Logfiles.logsDir
    (Logfiles.prepareDebugLogfiles Logfiles.add_days_utc Samples.at_day_eight
       (fun _ => Some "EPERM") (fun _ => Some "EBUSY") (fun f => f) [1; 0; 1; 1; 0]%nat
       "2023-01-09T02:26:41.000Z" "2023-01-09T02:26:41.001Z"
       (Logfiles.prepareDebugLogfiles Logfiles.add_days_utc Samples.at_day_eight
          (fun _ => None) (fun _ => None) (fun f => f) Samples.cleanup_schedule
          "2023-01-09T02:26:40.000Z" "2023-01-09T02:26:40.001Z"
          {| Logfiles.logsDir := Some Samples.logs_dir; Logfiles.fs_log := [] |}
          "deploy").1 "build").1
  = Logfiles.logsDir
      (Logfiles.prepareDebugLogfiles Logfiles.add_days_utc Samples.at_day_eight
         (fun _ => None) (fun _ => None) (fun f => f) Samples.cleanup_schedule
         "2023-01-09T02:26:40.000Z" "2023-01-09T02:26:40.001Z"
         {| Logfiles.logsDir := Some Samples.logs_dir; Logfiles.fs_log := [] |}
         "deploy").1.
Proof.
  apply (prepareDebugLogfiles_idempotent Logfiles.add_days_utc Samples.at_day_eight
           (fun _ => None) (fun _ => None) (fun f => f) Samples.cleanup_schedule
           (fun _ => Some "EPERM") (fun _ => Some "EBUSY") (fun f => f)
           [1; 0; 1; 1; 0]%nat).
  - intros d [= <-]. vm_compute. reflexivity.
  - reflexivity.
  - reflexivity.
Defined.

(** ** What the retention job logs *)

Section RetentionLog.

Variable add_days : Z -> Z -> Z.
Variable clock : string -> Z.
Variable lstat_error remove_error : string -> option string.
Variable no_entry : string -> string.

Local Abbreviation clean_step :=
  (Logfiles.clean_step add_days clock lstat_error remove_error no_entry).
Local Abbreviation clean_run :=
  (Logfiles.clean_run add_days clock lstat_error remove_error no_entry).
Local Abbreviation phase_after :=
  (Logfiles.phase_after add_days clock lstat_error remove_error).
Local Abbreviation removed_after :=
  (Logfiles.removed_after add_days clock lstat_error remove_error).
Local Abbreviation cleanup_ok :=
  (Logfiles.cleanup_ok add_days clock lstat_error remove_error).
Local Abbreviation logged := (Reading.logged add_days clock lstat_error).
Local Abbreviation failure := (Reading.failure lstat_error remove_error).
Local Abbreviation lines_ok :=
  (Reading.lines_ok add_days clock lstat_error remove_error).

Lemma start_lines_ok d lg : lines_ok d lg [] (Logfiles.start_cleanup d lg).
Proof.
  exists [], []. simpl. rewrite app_nil_r.
  split; [done|]. split; [done|]. split; [constructor|]. split; [|done].
  intros f. split; [by intros ?%elem_of_nil|].
  intros (i & stat & _ & _ & _ & _ & Hsteps). simpl in Hsteps. lia.
Qed.

(** Who has logged does not change with a step of the [i]-th mapper,
    unless it is the second step of the mapper of a matching, expired
    file for which [lstat] succeeds. *)
Lemma logged_snoc_other d sched i :
  (forall f stat,
     Logfiles.listDirectory d !! i = Some f -> d !! f = Some stat ->
     count_occ Nat.eq_dec sched i <> 1
     \/ Logfiles.doomed add_days clock f stat = false
     \/ lstat_error f <> None) ->
  forall g, logged d (sched ++ [i]) g <-> logged d sched g.
Proof.
  intros Hquiet g. unfold Reading.logged. split.
  - intros (k & stat & Hk & Hg & Hdoom & Hl & Hsteps).
    exists k, stat. repeat (split; [done|]).
    rewrite count_occ_snoc in Hsteps.
    destruct (decide (i = k)) as [->|Hne]; [|lia].
    destruct (Hquiet g stat Hk Hg) as [?|[?|?]]; [lia|congruence|done].
  - intros (k & stat & Hk & Hg & Hdoom & Hl & Hsteps).
    exists k, stat. repeat (split; [done|]).
    rewrite count_occ_snoc. lia.
Qed.

(** At that step, the mapper's file joins those that have logged. *)
Lemma logged_snoc_same d sched i f stat :
  Logfiles.listDirectory d !! i = Some f ->
  d !! f = Some stat ->
  count_occ Nat.eq_dec sched i = 1 ->
  Logfiles.doomed add_days clock f stat = true ->
  lstat_error f = None ->
  ~ logged d sched f
  /\ forall g, logged d (sched ++ [i]) g <-> logged d sched g \/ g = f.
Proof.
  intros Hi Hf Hone Hdoom Hl. split.
  - intros (k & stat' & Hk & _ & _ & _ & Hsteps).
    assert (k = i) as ->
      by (eapply NoDup_lookup; [apply listDirectory_NoDup|done..]).
    lia.
  - intros g. unfold Reading.logged. split.
    + intros (k & stat' & Hk & Hg & Hdoom' & Hl' & Hsteps).
      rewrite count_occ_snoc in Hsteps.
      destruct (decide (i = k)) as [->|Hne].
      * right. congruence.
      * left. exists k, stat'. repeat (split; [done|]). lia.
    + intros [(k & stat' & Hk & Hg & Hdoom' & Hl' & Hsteps)| ->].
      * exists k, stat'. repeat (split; [done|]). rewrite count_occ_snoc. lia.
      * exists i, stat. repeat (split; [done|]). rewrite count_occ_snoc.
        rewrite decide_True by done. lia.
Qed.

Lemma filter_snoc {A} (p : A -> bool) l x :
  List.filter p (l ++ [x]) = List.filter p l ++ (if p x then [x] else []).
Proof. rewrite List.filter_app. simpl. by destruct (p x). Qed.

(** The three ways in which a step acts on the log. *)
Lemma lines_ok_silent d lg sched cl cl' i :
  lines_ok d lg sched cl ->
  (forall f stat,
     Logfiles.listDirectory d !! i = Some f -> d !! f = Some stat ->
     count_occ Nat.eq_dec sched i <> 1
     \/ Logfiles.doomed add_days clock f stat = false
     \/ lstat_error f <> None) ->
  Logfiles.lines cl' = Logfiles.lines cl ->
  Logfiles.caught cl' = Logfiles.caught cl
  \/ (exists message,
        failure d message
        /\ Logfiles.caught cl'
           = match Logfiles.caught cl with
             | Logfiles.Quiet => Logfiles.Raised message
             | c => c
             end) ->
  lines_ok d lg (sched ++ [i]) cl'.
Proof.
  intros (ls & fs & Hlines & Hdebug & Hnd & Hfs & Hcaught) Hquiet Hl Hc.
  exists ls, fs. rewrite Hl. repeat (split; [done|]). split.
  - intros g. rewrite Hfs. symmetry. by apply logged_snoc_other.
  - destruct Hc as [->|(m & Hm & ->)]; [done|].
    by destruct (Logfiles.caught cl).
Qed.

Lemma lines_ok_logging d lg sched cl cl' i f stat :
  lines_ok d lg sched cl ->
  Logfiles.listDirectory d !! i = Some f ->
  d !! f = Some stat ->
  count_occ Nat.eq_dec sched i = 1 ->
  Logfiles.doomed add_days clock f stat = true ->
  lstat_error f = None ->
  Logfiles.lines cl' = Logfiles.lines cl ++ [Reading.deleting_line f] ->
  Logfiles.caught cl' = Logfiles.caught cl ->
  lines_ok d lg (sched ++ [i]) cl'.
Proof.
  intros (ls & fs & Hlines & Hdebug & Hnd & Hfs & Hcaught) Hi Hf Hone Hdoom Hl
    Hlines' Hc.
  destruct (logged_snoc_same d sched i f stat Hi Hf Hone Hdoom Hl) as [Hnot Hlogged].
  exists (ls ++ [Reading.deleting_line f]), (fs ++ [f]).
  split; [by rewrite Hlines', Hlines, app_assoc|].
  split; [by rewrite filter_snoc, Hdebug, map_app|].
  split.
  { apply NoDup_app. split; [done|]. split; [|apply NoDup_singleton].
    intros g Hg ->%list_elem_of_singleton. by apply Hnot, Hfs. }
  split.
  { intros g. rewrite Hlogged, <- Hfs, elem_of_app, list_elem_of_singleton. done. }
  rewrite Hc, filter_snoc. simpl. rewrite app_nil_r. done.
Qed.

Lemma lines_ok_catch d lg sched cl i :
  lines_ok d lg sched cl ->
  Logfiles.listDirectory d !! i = None ->
  lines_ok d lg (sched ++ [i]) (Logfiles.catch_step cl).
Proof.
  intros (ls & fs & Hlines & Hdebug & Hnd & Hfs & Hcaught) Hi.
  assert (forall g, g ∈ fs <-> logged d (sched ++ [i]) g) as Hfs'.
  { intros g. rewrite Hfs. symmetry. apply logged_snoc_other.
    intros f stat Hf. congruence. }
  unfold Logfiles.catch_step.
  destruct (Logfiles.caught cl) as [|m|] eqn:Hc.
  - exists ls, fs. by rewrite Hc.
  - exists (ls ++ [Reading.warning_line m]), fs. simpl.
    split; [by rewrite Hlines, app_assoc|].
    split; [by rewrite filter_snoc; simpl; rewrite app_nil_r|].
    repeat (split; [done|]).
    exists m. destruct Hcaught as [Hw Hm]. split; [|done].
    by rewrite filter_snoc, Hw.
  - exists ls, fs. by rewrite Hc.
Qed.

Lemma clean_step_lines_ok d lg sched cl i :
  cleanup_ok d sched cl ->
  lines_ok d lg sched cl ->
  lines_ok d lg (sched ++ [i]) (clean_step i cl).
Proof.
  intros (Hlen & Hjobs & Hnone) Hlines.
  unfold Logfiles.clean_step.
  destruct (Logfiles.listDirectory d !! i) as [f|] eqn:Hi.
  - destruct (Hjobs i f Hi) as (stat & Hstat & Hjob & Hdir).
    rewrite Hjob. unfold Logfiles.mapper_step.
    cbn [Logfiles.job_file Logfiles.job_phase].
    assert (f ∈ Logfiles.listDirectory d) as Hin
      by (by eapply list_elem_of_lookup_2).
    pose proof (lines_ok_silent d lg sched cl) as Hsilent.
    specialize (fun cl' => Hsilent cl' i Hlines).
    pose proof (lines_ok_logging d lg sched cl) as Hlog.
    specialize (fun cl' => Hlog cl' i f stat Hlines Hi Hstat).
    assert (forall f' stat',
              Logfiles.listDirectory d !! i = Some f' -> d !! f' = Some stat' ->
              f' = f /\ stat' = stat) as Hsame.
    { intros f' stat' Hf' Hs'. rewrite Hi in Hf'. injection Hf' as <-.
      split; [done|]. congruence. }
    unfold Logfiles.removed_after, Logfiles.doomed, Logfiles.succeeds in Hdir.
    unfold Logfiles.doomed in Hsilent, Hlog.
    destruct (count_occ Nat.eq_dec sched i) as [|[|[|n]]];
      cbn [Logfiles.phase_after Nat.leb] in Hdir |- *;
      destruct (Logfiles.matches_debug f) eqn:Hmd,
               (Logfiles.matches_json f) eqn:Hmj;
      destruct (lstat_error f) as [ml|] eqn:Hle;
      destruct (Logfiles.expired add_days clock f stat) eqn:He;
      destruct (remove_error f) as [mr|] eqn:Hre;
      cbn [negb andb orb] in Hdir, Hsilent, Hlog |- *;
      rewrite ?Hdir; cbn [negb andb orb]; rewrite ?He;
      try (apply Hlog; done);
      try (apply Hsilent;
           [intros f' stat' Hf' Hs';
            destruct (Hsame f' stat' Hf' Hs') as [-> ->];
            rewrite ?Hmd, ?Hmj, ?He, ?Hle; cbn [negb andb orb];
            first [left; lia | right; left; done | right; right; done]
           |done
           |first [by left
                  |right; eexists; split; [|done]; exists f; split; [done|];
                   first [by left | by right]]]).
  - assert (Logfiles.jobs cl !! i = None) as ->.
    { apply lookup_ge_None. rewrite Hlen. by apply lookup_ge_None. }
    destruct (i =? length (Logfiles.jobs cl))%nat.
    + by apply lines_ok_catch.
    + apply (lines_ok_silent d lg sched cl); [done| |done|by left].
      intros f stat Hf. congruence.
Qed.

Lemma clean_run_lines_ok d lg sched :
  lines_ok d lg sched (clean_run sched (Logfiles.start_cleanup d lg)).
Proof.
  induction sched as [|i sched IH] using rev_ind.
  - apply start_lines_ok.
  - rewrite clean_run_snoc. apply clean_step_lines_ok; [|done].
    apply clean_run_ok.
Qed.

End RetentionLog.

Lemma NoDup_list_filter {A} (p : A -> bool) (l : list A) :
  NoDup l -> NoDup (List.filter p l).
Proof.
  induction 1 as [|x l Hx Hnd IH]; simpl; [constructor|].
  destruct (p x); [|done]. constructor; [|done].
  rewrite list_elem_of_In, List.filter_In, <- list_elem_of_In. tauto.
Qed.

(** X8: what the retention job has logged at any moment, beside the
    lines the log held before.  Its debug lines are one line for each
    file of a list without repetition; every file of that list matches
    a pattern and is expired; a file that is gone is in the list, so
    that its line was logged before it was removed; and once every
    mapper has taken its steps and no [lstat] has failed, the list is
    a rearrangement of the matching, expired entries of the directory
    listing. *)
Theorem prepareDebugLogfiles_log
    add_days clock lstat_error remove_error no_entry sched
    nowISO1 nowISO2 w commandFullName d :
  Logfiles.logsDir w = Some d ->
  exists ls fs d',
    Logfiles.logsDir
      (Logfiles.prepareDebugLogfiles add_days clock lstat_error remove_error
         no_entry sched nowISO1 nowISO2 w commandFullName).1 = Some d'
    /\ Logfiles.fs_log
         (Logfiles.prepareDebugLogfiles add_days clock lstat_error remove_error
            no_entry sched nowISO1 nowISO2 w commandFullName).1
       = Logfiles.fs_log w ++ ls
    /\ List.filter Reading.is_debug ls = map Reading.deleting_line fs
    /\ NoDup fs
    /\ (forall f, f ∈ fs -> Reading.doomed_in add_days clock d f = true)
    /\ (forall f stat, d !! f = Some stat -> d' !! f = None -> f ∈ fs)
    /\ (Logfiles.complete (length (Logfiles.listDirectory d)) sched = true ->
        (forall f, lstat_error f = None) ->
        fs ≡ₚ List.filter (Reading.doomed_in add_days clock d)
                (Logfiles.listDirectory d)).
Proof.
  intros Hd.
  destruct (clean_run_lines_ok add_days clock lstat_error remove_error no_entry d
              (Logfiles.fs_log w) sched)
    as (ls & fs & Hlines & Hdebug & Hnd & Hfs & _).
  exists ls, fs. unfold Logfiles.prepareDebugLogfiles. rewrite Hd.
  cbn [fst Logfiles.logsDir Logfiles.fs_log].
  eexists. split; [done|]. repeat (split; [done|]). split; [|split].
  - intros f (i & stat & _ & Hf & Hdoom & _)%Hfs.
    unfold Reading.doomed_in. by rewrite Hf.
  - intros f stat Hf Hgone. apply Hfs.
    destruct (clean_run_dir add_days clock lstat_error remove_error no_entry d
                (Logfiles.fs_log w) sched f stat Hf) as (i & Hi & Hdir).
    rewrite Hgone in Hdir. exists i, stat.
    unfold Logfiles.removed_after, Logfiles.succeeds in Hdir.
    destruct (Logfiles.doomed add_days clock f stat); [|done].
    destruct (Nat.leb_spec 3 (count_occ Nat.eq_dec sched i)); [|done].
    destruct (lstat_error f); [done|].
    repeat (split; [done|]). lia.
  - intros Hcomplete Hlstat. apply NoDup_Permutation; [done| |].
    { apply NoDup_list_filter, listDirectory_NoDup. }
    intros f. rewrite Hfs, list_elem_of_In, List.filter_In, <- list_elem_of_In.
    unfold Reading.doomed_in, Reading.logged. split.
    + intros (i & stat & Hi & Hf & Hdoom & _).
      split; [by eapply list_elem_of_lookup_2|]. by rewrite Hf.
    + intros [[i Hi]%list_elem_of_lookup_1 Hdoom].
      destruct (d !! f) as [stat|] eqn:Hf; [|done].
      exists i, stat. repeat (split; [done|]).
      unfold Logfiles.complete in Hcomplete. rewrite forallb_forall in Hcomplete.
      assert (3 <= count_occ Nat.eq_dec sched i); [|lia].
      apply Nat.leb_le, Hcomplete, in_seq. split; [lia|]. simpl.
      by eapply lookup_lt_Some.
Qed.

Lemma prepareDebugLogfiles_log_witness :
  exists ls fs d',
    Logfiles.logsDir
      (Logfiles.prepareDebugLogfiles Logfiles.add_days_utc Samples.at_day_eight
         (fun _ => None) (fun _ => None) (fun f => f) Samples.cleanup_schedule
         "2023-01-09T02:26:40.000Z" "2023-01-09T02:26:40.001Z"
         {| Logfiles.logsDir := Some Samples.logs_dir; Logfiles.fs_log := [] |}
         "deploy").1 = Some d'
    /\ Logfiles.fs_log
         (Logfiles.prepareDebugLogfiles Logfiles.add_days_utc Samples.at_day_eight
            (fun _ => None) (fun _ => None) (fun f => f) Samples.cleanup_schedule
            "2023-01-09T02:26:40.000Z" "2023-01-09T02:26:40.001Z"
            {| Logfiles.logsDir := Some Samples.logs_dir; Logfiles.fs_log := [] |}
            "deploy").1
       = [] ++ ls
    /\ List.filter Reading.is_debug ls = map Reading.deleting_line fs
    /\ fs ≡ₚ List.filter
               (Reading.doomed_in Logfiles.add_days_utc Samples.at_day_eight
                  Samples.logs_dir)
               (Logfiles.listDirectory Samples.logs_dir).
Proof.
  destruct (prepareDebugLogfiles_log Logfiles.add_days_utc Samples.at_day_eight
              (fun _ => None) (fun _ => None) (fun f => f) Samples.cleanup_schedule
              "2023-01-09T02:26:40.000Z" "2023-01-09T02:26:40.001Z"
              {| Logfiles.logsDir := Some Samples.logs_dir; Logfiles.fs_log := [] |}
              "deploy" Samples.logs_dir eq_refl)
    as (ls & fs & d' & Hd' & Hlog & Hdebug & _ & _ & _ & Hall).
  exists ls, fs, d'. split; [exact Hd'|]. split; [exact Hlog|].
  split; [exact Hdebug|]. apply Hall; [vm_compute|]; reflexivity.
Defined.

(** X19: the retention job warns at most once, however many calls
    fail: the warnings it has logged at any moment are none, or the one
    warning of the handler of [.catch], with the message of a call of
    [lstat] or [remove] that fails for an entry of the directory; when
    no call fails for any entry, there is none. *)
Theorem prepareDebugLogfiles_warns_once
    add_days clock lstat_error remove_error no_entry sched
    nowISO1 nowISO2 w commandFullName d :
  Logfiles.logsDir w = Some d ->
  exists ls,
    Logfiles.fs_log
      (Logfiles.prepareDebugLogfiles add_days clock lstat_error remove_error
         no_entry sched nowISO1 nowISO2 w commandFullName).1
    = Logfiles.fs_log w ++ ls
    /\ (List.filter Reading.is_warning ls = []
        \/ exists message,
             List.filter Reading.is_warning ls = [Reading.warning_line message]
             /\ Reading.failure lstat_error remove_error d message)
    /\ ((forall f,
           f ∈ Logfiles.listDirectory d ->
           lstat_error f = None /\ remove_error f = None) ->
        List.filter Reading.is_warning ls = []).
Proof.
  intros Hd.
  destruct (clean_run_lines_ok add_days clock lstat_error remove_error no_entry d
              (Logfiles.fs_log w) sched)
    as (ls & fs & Hlines & _ & _ & _ & Hcaught).
  exists ls. unfold Logfiles.prepareDebugLogfiles. rewrite Hd.
  cbn [fst Logfiles.fs_log]. split; [done|].
  assert (List.filter Reading.is_warning ls = []
          \/ exists message,
               List.filter Reading.is_warning ls = [Reading.warning_line message]
               /\ Reading.failure lstat_error remove_error d message) as Hw.
  { destruct (Logfiles.caught _) as [|m|]; [by left|left; by destruct Hcaught|].
    by right. }
  split; [done|]. intros Hfine.
  destruct Hw as [Hw|(m & _ & f & Hin & Hfail)]; [done|].
  destruct (Hfine f Hin) as [Hl Hr]. rewrite Hl, Hr in Hfail.
  by destruct Hfail.
Qed.

Lemma prepareDebugLogfiles_warns_once_witness :
  exists ls,
    Logfiles.fs_log
      (Logfiles.prepareDebugLogfiles Logfiles.add_days_utc Samples.at_day_eight
         (fun _ => None) (fun _ => Some "EBUSY") (fun f => f)
         [0; 1; 2; 2; 1; 1; 3]%nat
         "2023-01-09T02:26:40.000Z" "2023-01-09T02:26:40.001Z"
         {| Logfiles.logsDir := Some Samples.logs_dir; Logfiles.fs_log := [] |}
         "deploy").1
    = [] ++ ls
    /\ List.filter Reading.is_warning ls = [Reading.warning_line "EBUSY"].
Proof.
  destruct (prepareDebugLogfiles_warns_once Logfiles.add_days_utc
              Samples.at_day_eight (fun _ => None) (fun _ => Some "EBUSY")
              (fun f => f) [0; 1; 2; 2; 1; 1; 3]%nat
              "2023-01-09T02:26:40.000Z" "2023-01-09T02:26:40.001Z"
              {| Logfiles.logsDir := Some Samples.logs_dir; Logfiles.fs_log := [] |}
              "deploy" Samples.logs_dir eq_refl)
    as (ls & Hlog & _ & _).
  exists ls. split; [exact Hlog|].
  vm_compute in Hlog. by subst ls.
Defined.

(** ** The logfile names against the retention patterns *)

Lemma prefix_app (p s : string) : String.prefix p (p +:+ s) = true.
Proof.
  induction p as [|a p IH]; [by destruct s|].
  rewrite string_app_cons. simpl. by destruct (ascii_dec a a).
Qed.

Lemma strip_prefix_app (p s : string) : JsString.strip_prefix p (p +:+ s) = Some s.
Proof.
  induction p as [|a p IH]; [by destruct s|].
  rewrite string_app_cons. simpl. by rewrite Ascii.eqb_refl.
Qed.

(** A match found in a suffix is a match of the whole string. *)
Lemma matches_suffix pre post (a s : string) :
  JsString.matches_pre_any_post pre post s = true ->
  JsString.matches_pre_any_post pre post (a +:+ s) = true.
Proof.
  intros Hs. induction a as [|x a IH]; [done|].
  rewrite string_app_cons. cbn [JsString.matches_pre_any_post].
  rewrite IH. apply orb_true_r.
Qed.

Lemma matches_here pre post (s rest : string) :
  JsString.strip_prefix pre s = Some rest ->
  JsString.dot_star_then post rest = true ->
  JsString.matches_pre_any_post pre post s = true.
Proof. intros Hs Hrest. destruct s; simpl in *; by rewrite Hs, Hrest. Qed.

Lemma dot_star_then_prefix post (s : string) :
  String.prefix post s = true -> JsString.dot_star_then post s = true.
Proof. intros H. destruct s; simpl in *; by rewrite H. Qed.

Lemma dot_star_then_app post (mid : string) :
  Reading.no_line_terminator mid = true ->
  forall rest, JsString.dot_star_then post (mid +:+ post +:+ rest) = true.
Proof.
  induction mid as [|x mid IH]; intros Hmid rest.
  - change ("" +:+ post +:+ rest) with (post +:+ rest).
    apply dot_star_then_prefix, prefix_app.
  - simpl in Hmid. apply andb_true_iff in Hmid as [Hx Hmid].
    rewrite string_app_cons. cbn [JsString.dot_star_then].
    rewrite Hx, IH by done. apply orb_true_r.
Qed.

(** X10: the debug logfile that [prepareDebugLogfiles] names for the
    running command is one the retention job recognises: whatever the
    command name, the name matches [/debug.*\.log/], as long as the
    timestamp holds no line terminator. *)
Theorem debug_logfile_name_recognised
    add_days clock lstat_error remove_error no_entry sched nowISO1 nowISO2 w commandFullName :
  Reading.no_line_terminator nowISO1 = true ->
  Logfiles.matches_debug
    (Logfiles.debugLogfileName
       (Logfiles.prepareDebugLogfiles add_days clock lstat_error remove_error no_entry sched nowISO1 nowISO2 w
          commandFullName).2) = true.
Proof.
  intros Hiso. unfold Logfiles.prepareDebugLogfiles. simpl.
  unfold Logfiles.makeLogfileName, Logfiles.matches_debug.
  apply matches_suffix.
  change ("." +:+ "debug" +:+ "." +:+ nowISO1 +:+ "." +:+ "log")
    with (String "." ("debug" +:+ ("." +:+ nowISO1) +:+ ".log" +:+ "")).
  cbn [JsString.matches_pre_any_post]. apply orb_true_iff. right.
  apply (matches_here _ _ _ _ (strip_prefix_app _ _)).
  apply dot_star_then_app. simpl. exact Hiso.
Qed.

Lemma debug_logfile_name_recognised_witness :
  Reading.no_line_terminator "2022-01-31T09:33:55.001Z" = true
  /\ Logfiles.matches_debug
       (Logfiles.debugLogfileName
          (Logfiles.prepareDebugLogfiles Logfiles.add_days_utc Samples.at_day_eight
             (fun _ => None) (fun _ => None) (fun f => f) []
             "2022-01-31T09:33:55.001Z" "2022-01-31T09:33:55.002Z"
             {| Logfiles.logsDir := None; Logfiles.fs_log := [] |}
             "deploy my service").2) = true.
Proof.
  split; [reflexivity|].
  apply (debug_logfile_name_recognised Logfiles.add_days_utc Samples.at_day_eight
           (fun _ => None) (fun _ => None) (fun f => f) []
           "2022-01-31T09:33:55.001Z" "2022-01-31T09:33:55.002Z"
           {| Logfiles.logsDir := None; Logfiles.fs_log := [] |}
           "deploy my service").
  reflexivity.
Defined.

(** A string matched by [/pre.*\.log/] has a dot directly followed by
    the letter [l]. *)
Lemma prefix_dot_log_has_dot_l (s : string) :
  String.prefix ".log" s = true -> Reading.has_dot_l s = true.
Proof.
  destruct s as [|a s]; [done|]. cbn [String.prefix].
  destruct (ascii_dec "."%char a) as [<-|]; [|done].
  destruct s as [|b s]; [done|]. cbn [String.prefix].
  destruct (ascii_dec "l"%char b) as [<-|]; [|done].
  done.
Qed.

Lemma dot_star_then_has_dot_l (s : string) :
  JsString.dot_star_then ".log" s = true -> Reading.has_dot_l s = true.
Proof.
  induction s as [|a s IH].
  - simpl. done.
  - intros H.
    change (JsString.dot_star_then ".log" (String a s))
      with (String.prefix ".log" (String a s)
            || negb (JsString.is_line_terminator a)
               && JsString.dot_star_then ".log" s) in H.
    apply orb_true_iff in H as [H|H].
    + by apply prefix_dot_log_has_dot_l.
    + apply andb_true_iff in H as [_ H]. cbn [Reading.has_dot_l].
      rewrite (IH H). apply orb_true_r.
Qed.

Lemma strip_prefix_has_dot_l (p s rest : string) :
  JsString.strip_prefix p s = Some rest ->
  Reading.has_dot_l rest = true -> Reading.has_dot_l s = true.
Proof.
  revert s. induction p as [|a p IH]; intros s Hs Hrest.
  - destruct s; simpl in Hs; by injection Hs as ->.
  - destruct s as [|b s]; [done|]. simpl in Hs.
    destruct (Ascii.eqb a b); [|done].
    cbn [Reading.has_dot_l]. rewrite (IH s Hs Hrest). apply orb_true_r.
Qed.

Lemma matches_has_dot_l pre (s : string) :
  JsString.matches_pre_any_post pre ".log" s = true -> Reading.has_dot_l s = true.
Proof.
  induction s as [|a s IH]; intros H.
  - simpl in H. rewrite orb_false_r in H.
    destruct (JsString.strip_prefix pre "") as [rest|] eqn:Hp; [|done].
    eapply strip_prefix_has_dot_l; [exact Hp|]. by apply dot_star_then_has_dot_l.
  - cbn [JsString.matches_pre_any_post] in H. apply orb_true_iff in H as [H|H].
    + destruct (JsString.strip_prefix pre (String a s)) as [rest|] eqn:Hp; [|done].
      eapply strip_prefix_has_dot_l; [exact Hp|]. by apply dot_star_then_has_dot_l.
    + cbn [Reading.has_dot_l]. rewrite (IH H). apply orb_true_r.
Qed.

Lemma has_dot_l_no_dot (a b : string) :
  JsString.includes_char "." a = false ->
  Reading.has_dot_l (a +:+ b) = Reading.has_dot_l b.
Proof.
  induction a as [|x a IH]; [done|]. intros Hx.
  rewrite string_app_cons. cbn [Reading.has_dot_l].
  simpl in Hx. destruct (Ascii.eqb x "."); [done|]. simpl. by apply IH.
Qed.

Lemma starts_with_l_no_l (a b : string) :
  JsString.includes_char "l" a = false ->
  Reading.starts_with_l b = false ->
  Reading.starts_with_l (a +:+ b) = false.
Proof.
  destruct a as [|x a]; [done|]. simpl. intros Hx _.
  by destruct (Ascii.eqb x "l").
Qed.

Lemma has_dot_l_no_l (a b : string) :
  JsString.includes_char "l" a = false ->
  Reading.starts_with_l b = false ->
  Reading.has_dot_l (a +:+ b) = Reading.has_dot_l b.
Proof.
  induction a as [|x a IH]; [done|]. intros Hx Hb.
  assert (Ha : JsString.includes_char "l" a = false).
  { simpl in Hx. by destruct (Ascii.eqb x "l"). }
  rewrite string_app_cons. cbn [Reading.has_dot_l].
  rewrite (starts_with_l_no_l a b Ha Hb), andb_false_r. simpl. by apply IH.
Qed.

Lemma includes_char_replace c c' r (s : string) :
  JsString.includes_char c' s = false ->
  JsString.includes_char c' r = false ->
  JsString.includes_char c' (JsString.replace_char c r s) = false.
Proof.
  induction s as [|a s IH]; [done|]. intros Hs Hr. simpl in Hs.
  destruct (Ascii.eqb a c') eqn:E'; [discriminate|].
  simpl. destruct (Ascii.eqb a c) eqn:E.
  - by rewrite includes_char_app, Hr, Hs.
  - simpl. rewrite E'. by apply IH.
Qed.

(** X11: the JSON logfile that [prepareDebugLogfiles] names for the
    running command (level [silly], extension [jsonl]) matches neither
    retention pattern, so the retention job never deletes it: this
    holds for every command name without a dot and every timestamp
    without the letter [l]. *)
Theorem json_logfile_name_never_matched
    add_days clock lstat_error remove_error no_entry sched nowISO1 nowISO2 w commandFullName :
  JsString.includes_char "." commandFullName = false ->
  JsString.includes_char "l" nowISO2 = false ->
  Logfiles.matches_debug
    (Logfiles.jsonLogfileName
       (Logfiles.prepareDebugLogfiles add_days clock lstat_error remove_error no_entry sched nowISO1 nowISO2 w
          commandFullName).2) = false
  /\ Logfiles.matches_json
       (Logfiles.jsonLogfileName
          (Logfiles.prepareDebugLogfiles add_days clock lstat_error remove_error no_entry sched nowISO1 nowISO2 w
             commandFullName).2) = false.
Proof.
  intros Hcmd Hiso. unfold Logfiles.prepareDebugLogfiles. simpl.
  assert (Hno : Reading.has_dot_l
                  (Logfiles.makeLogfileName nowISO2 "silly" commandFullName "jsonl")
                = false).
  { unfold Logfiles.makeLogfileName.
    rewrite has_dot_l_no_dot by (by apply includes_char_replace).
    change ("." +:+ "silly" +:+ "." +:+ nowISO2 +:+ "." +:+ "jsonl")
      with (String "." (String "s" (String "i" (String "l" (String "l" (String "y"
              (String "." (nowISO2 +:+ ".jsonl")))))))).
    cbn [Reading.has_dot_l Reading.starts_with_l]. simpl.
    rewrite (starts_with_l_no_l nowISO2 ".jsonl" Hiso eq_refl).
    rewrite (has_dot_l_no_l nowISO2 ".jsonl" Hiso eq_refl). done. }
  unfold Logfiles.matches_debug, Logfiles.matches_json. split.
  - destruct (JsString.matches_pre_any_post "debug" ".log" _) eqn:E; [|done].
    apply matches_has_dot_l in E. congruence.
  - destruct (JsString.matches_pre_any_post "json" ".log" _) eqn:E; [|done].
    apply matches_has_dot_l in E. congruence.
Qed.

Lemma json_logfile_name_never_matched_witness :
  JsString.includes_char "." "deploy my service" = false
  /\ JsString.includes_char "l" "2022-01-31T09:33:55.002Z" = false
  /\ Logfiles.matches_json
       (Logfiles.jsonLogfileName
          (Logfiles.prepareDebugLogfiles Logfiles.add_days_utc Samples.at_day_eight
             (fun _ => None) (fun _ => None) (fun f => f) []
             "2022-01-31T09:33:55.001Z" "2022-01-31T09:33:55.002Z"
             {| Logfiles.logsDir := None; Logfiles.fs_log := [] |}
             "deploy my service").2) = false.
Proof.
  split; [reflexivity|]. split; [reflexivity|].
  apply (json_logfile_name_never_matched Logfiles.add_days_utc Samples.at_day_eight
           (fun _ => None) (fun _ => None) (fun f => f) []
           "2022-01-31T09:33:55.001Z" "2022-01-31T09:33:55.002Z"
           {| Logfiles.logsDir := None; Logfiles.fs_log := [] |}
           "deploy my service"); reflexivity.
Defined.



(** * Further facts about [UsersListCommand.action] *)

Section UsersListMore.

Context {UserResponse : Type}.
Variable makeUserFromResponse : UserResponse -> Users.UserResult.
Variable applyFilter : list string -> Users.FilterValue -> bool.
Variable noApiMsg : string -> string -> string.
Variable getCloudDistributionName : string -> string.
Variable renderTable : list (list string) -> string.
Variable toUTCString : string -> string.
Variable bold : string -> string.
Variable cyan_bold : string -> string.
Variable max_arguments : nat.

Lemma fetch_never_empty (api : Users.CloudApi UserResponse) :
  (forall k, exists res, Users.get_users _ api k = inr res /\ res <> []
                         /\ length res <= max_arguments) ->
  forall fuel page users lg,
    (Users.fetch UserResponse makeUserFromResponse max_arguments api fuel page
       users lg).1 = Users.Unfinished.
Proof.
  intros Hpages fuel.
  induction fuel as [|fuel IH]; intros page users lg; [done|].
  cbn [Users.fetch]. destruct (Hpages page) as (res & -> & Hne & Hsize).
  destruct res as [|r rs]; [done|].
  assert ((max_arguments <? length (r :: rs))%nat = false) as ->
    by (apply Nat.ltb_ge; exact Hsize).
  apply IH.
Qed.

(** X14: the pagination stops only at an empty page: when the project
    is found and the API answers every page request with users, [action]
    never resolves and never throws, however many pages are
    requested. *)
Theorem users_list_never_ends fuel garden opts lg api project pid :
  Users.cloudApi _ garden = Some api ->
  Users.projectId _ garden = Some pid ->
  pid <> "" ->
  Users.getProjectById _ api pid = inr (Some project) ->
  (forall k, exists res, Users.get_users _ api k = inr res /\ res <> []
                         /\ length res <= max_arguments) ->
  (Users.action UserResponse makeUserFromResponse applyFilter noApiMsg
     getCloudDistributionName renderTable toUTCString bold cyan_bold max_arguments
     fuel garden opts lg).1 = Users.Fetching.
Proof.
  intros Hapi Hpid Hne Hproj Hpages.
  pose proof (project_of_found garden api pid project Hpid Hne Hproj) as Hfound.
  unfold Users.action, Users.project_of in *. rewrite Hapi, Hfound.
  pose proof (fetch_never_empty api Hpages fuel 0 [] lg) as Hfetch.
  destruct (Users.fetch _ _ _ _ _ _ _ _) as [[users|err|] lg']; simpl in Hfetch; done.
Qed.

(** X15: what a listing logs once the project is found.  The pages 0 to
    [n] are requested in order, one line each, and none after the first
    empty page [n]; then comes an empty line and the report: that there
    are no users when nothing was fetched, that no users match when
    users were fetched and none passes the filters, and otherwise the
    number of users of the result followed by the table rendered from
    the heading, whose user name column is titled after the repository
    URL of the project, and one row per user of the result. *)
Theorem users_list_log fuel garden opts lg api project pid n :
  Users.cloudApi _ garden = Some api ->
  Users.projectId _ garden = Some pid ->
  pid <> "" ->
  Users.getProjectById _ api pid = inr (Some project) ->
  Users.first_empty_page UserResponse max_arguments api n ->
  n < fuel ->
  (Users.action UserResponse makeUserFromResponse applyFilter noApiMsg
     getCloudDistributionName renderTable toUTCString bold cyan_bold max_arguments
     fuel garden opts lg).2
  = lg ++ map Reading.fetch_line (seq 0 (S n)) ++ (Users.LInfo, "")
      :: match Users.fetched _ makeUserFromResponse api n,
               Users.listing applyFilter opts
                 (Users.fetched _ makeUserFromResponse api n)
         with
         | [], _ => [(Users.LInfo, "No users found in project.")]
         | _ :: _, [] =>
             [(Users.LInfo, "No users found in project that match filters.")]
         | _ :: _, (_ :: _) as result =>
             [(Users.LDebug,
               "Found " +:+ pretty (length result) +:+ " users that match filters");
              (Users.LInfo,
               renderTable
                 (map bold ["Name"; "ID";
                            (if JsString.includes "github.com"
                                  (Users.repositoryUrl project) then "GitHub"
                             else if JsString.includes "gitlab.com"
                                       (Users.repositoryUrl project) then "GitLab"
                             else "VCS") +:+ " Username";
                            "Groups"; "Created At"]
                    :: map (fun u =>
                              [cyan_bold (Users.name u);
                               pretty (Users.user_id u);
                               default "" (Users.vcsUsername u);
                               String.concat ", "
                                 (map Users.group_name (Users.groups u));
                               toUTCString (Users.createdAt u)]) result))]
         end.
Proof.
  intros Hapi Hpid Hne Hproj Hn Hfuel.
  rewrite (action_fetched makeUserFromResponse applyFilter noApiMsg
             getCloudDistributionName renderTable toUTCString bold cyan_bold
             max_arguments fuel garden opts lg api project n Hapi
             (project_of_found garden api pid project Hpid Hne Hproj) Hn Hfuel).
  cbv zeta. cbn [snd]. unfold Users.vcs_title, Users.row.
  destruct (Users.fetched _ makeUserFromResponse api n) as [|u users]; [done|].
  by destruct (Users.listing applyFilter opts (u :: users)).
Qed.

(** X18: a rejected page request ends the listing with that error:
    when the pages before page [k] were fetched and the request of
    page [k] is rejected, [action] throws the rejection, having logged
    the requests of the pages 0 to [k] and nothing else; the users
    fetched so far are not reported. *)
Theorem users_list_page_rejected fuel garden opts lg api project pid k message :
  Users.cloudApi _ garden = Some api ->
  Users.projectId _ garden = Some pid ->
  pid <> "" ->
  Users.getProjectById _ api pid = inr (Some project) ->
  (forall j, j < k ->
     exists res, Users.get_users _ api j = inr res /\ res <> []
                 /\ length res <= max_arguments) ->
  Users.get_users _ api k = inl message ->
  k < fuel ->
  Users.action UserResponse makeUserFromResponse applyFilter noApiMsg
    getCloudDistributionName renderTable toUTCString bold cyan_bold max_arguments
    fuel garden opts lg
  = (Users.Thrown (Users.Rejection message),
     lg ++ map Reading.fetch_line (seq 0 (S k))).
Proof.
  intros Hapi Hpid Hne Hproj Hbefore Hk Hfuel.
  pose proof (project_of_found garden api pid project Hpid Hne Hproj) as Hfound.
  unfold Users.action, Users.project_of in *. rewrite Hapi, Hfound.
  assert (Hfetch : forall fuel page users lg,
             page <= k -> k - page < fuel ->
             Users.fetch UserResponse makeUserFromResponse max_arguments api fuel
               page users lg
             = (Users.Failed (Users.Rejection message),
                lg ++ map Reading.fetch_line (seq page (S (k - page))))).
  { clear fuel lg Hfuel. intros fuel.
    induction fuel as [|fuel IH]; intros page users lg Hle Hfuel; [lia|].
    cbn [Users.fetch].
    destruct (decide (page = k)) as [->|Hnek].
    - by rewrite Hk, Nat.sub_diag.
    - destruct (Hbefore page) as (res & -> & Hnonempty & Hsize); [lia|].
      destruct res as [|r rs]; [done|].
      assert ((max_arguments <? length (r :: rs))%nat = false) as ->
        by (apply Nat.ltb_ge; exact Hsize).
      rewrite IH by lia.
      replace (S (k - page)) with (S (S (k - S page))) by lia.
      cbn [seq map]. by rewrite <- app_assoc. }
  rewrite Hfetch by lia. by rewrite Nat.sub_0_r.
Qed.

Lemma filter_filter_comm {A} (f g : A -> bool) (l : list A) :
  List.filter f (List.filter g l) = List.filter g (List.filter f l).
Proof.
  induction l as [|x l IH]; [done|]. simpl.
  destruct (f x) eqn:Hf, (g x) eqn:Hg; simpl; rewrite ?Hf, ?Hg, ?IH; done.
Qed.

Lemma filter_filter_and {A} (f g : A -> bool) (l : list A) :
  List.filter g (List.filter f l) = List.filter (fun x => f x && g x) l.
Proof.
  induction l as [|x l IH]; [done|]. simpl.
  destruct (f x) eqn:Hf; simpl; [|done]. destruct (g x); by rewrite IH.
Qed.

Lemma filter_perm {A} (f : A -> bool) (l l' : list A) :
  Permutation l l' -> Permutation (List.filter f l) (List.filter f l').
Proof.
  induction 1 as [|x l l' _ IH|x y l|l l' l'' _ IH1 _ IH2]; simpl.
  - done.
  - destruct (f x); [by constructor|done].
  - destruct (f x), (f y); try done. apply perm_swap.
  - by etrans.
Qed.

Lemma filter_all {A} (f : A -> bool) (l : list A) :
  Forall (fun x => f x = true) l -> List.filter f l = l.
Proof. induction 1 as [|x l Hx _ IH]; [done|]. simpl. by rewrite Hx, IH. Qed.

Lemma listing_as_filter opts (users : list Users.UserResult) :
  Users.listing applyFilter opts users
  = List.filter (Reading.passes_both applyFilter opts) (Users.sortBy_name users).
Proof. unfold Users.listing. by rewrite filter_filter_and. Qed.

(** X16: once the project is found and the pages are fetched, the
    listing drops nobody who passes the filters and repeats nobody: its
    result holds the fetched users that pass both filters, each as often
    as it was fetched.  When every fetched user passes, the result is a
    rearrangement of the users fetched. *)
Theorem users_list_keeps_all_passing fuel garden opts lg api project pid n :
  Users.cloudApi _ garden = Some api ->
  Users.projectId _ garden = Some pid ->
  pid <> "" ->
  Users.getProjectById _ api pid = inr (Some project) ->
  Users.first_empty_page UserResponse max_arguments api n ->
  n < fuel ->
  exists result,
    (Users.action UserResponse makeUserFromResponse applyFilter noApiMsg
       getCloudDistributionName renderTable toUTCString bold cyan_bold max_arguments
       fuel garden opts lg).1 = Users.Resolved result
    /\ Permutation result
         (List.filter (Reading.passes_both applyFilter opts)
            (Users.fetched _ makeUserFromResponse api n))
    /\ (Forall (fun u => Reading.passes_both applyFilter opts u = true)
          (Users.fetched _ makeUserFromResponse api n) ->
        Permutation result (Users.fetched _ makeUserFromResponse api n)).
Proof.
  intros Hapi Hpid Hne Hproj Hn Hfuel.
  exists (Users.listing applyFilter opts (Users.fetched _ makeUserFromResponse api n)).
  split.
  { rewrite (action_fetched makeUserFromResponse applyFilter noApiMsg
               getCloudDistributionName renderTable toUTCString bold cyan_bold
               max_arguments fuel garden opts lg api project n Hapi
               (project_of_found garden api pid project Hpid Hne Hproj) Hn Hfuel).
    done. }
  assert (Hperm : Permutation
            (Users.listing applyFilter opts (Users.fetched _ makeUserFromResponse api n))
            (List.filter (Reading.passes_both applyFilter opts)
               (Users.fetched _ makeUserFromResponse api n))).
  { rewrite listing_as_filter. apply filter_perm, sortBy_name_perm. }
  split; [done|]. intros Hall. rewrite Hperm. by rewrite filter_all.
Qed.

(** X17: the sort by name is stable through the listing: once the
    project is found and the pages are fetched, those users of the
    result that have the same name are in the order in which they were
    fetched. *)
Theorem users_list_same_name_order_kept fuel garden opts lg api project pid n name :
  Users.cloudApi _ garden = Some api ->
  Users.projectId _ garden = Some pid ->
  pid <> "" ->
  Users.getProjectById _ api pid = inr (Some project) ->
  Users.first_empty_page UserResponse max_arguments api n ->
  n < fuel ->
  exists result,
    (Users.action UserResponse makeUserFromResponse applyFilter noApiMsg
       getCloudDistributionName renderTable toUTCString bold cyan_bold max_arguments
       fuel garden opts lg).1 = Users.Resolved result
    /\ List.filter (fun u => String.eqb (Users.name u) name) result
       = List.filter (fun u => String.eqb (Users.name u) name)
           (List.filter (Reading.passes_both applyFilter opts)
              (Users.fetched _ makeUserFromResponse api n)).
Proof.
  intros Hapi Hpid Hne Hproj Hn Hfuel.
  exists (Users.listing applyFilter opts (Users.fetched _ makeUserFromResponse api n)).
  split.
  { rewrite (action_fetched makeUserFromResponse applyFilter noApiMsg
               getCloudDistributionName renderTable toUTCString bold cyan_bold
               max_arguments fuel garden opts lg api project n Hapi
               (project_of_found garden api pid project Hpid Hne Hproj) Hn Hfuel).
    done. }
  rewrite listing_as_filter.
  rewrite (filter_filter_comm (fun u => String.eqb (Users.name u) name)
             (Reading.passes_both applyFilter opts) (Users.sortBy_name _)).
  rewrite sortBy_name_stable. apply filter_filter_comm.
Qed.

End UsersListMore.

Lemma users_list_never_ends_witness :
  Users.projectId _ (UsersSamples.garden_of UsersSamples.endless) = Some "p1"
  /\ "p1" <> ""
  /\ (UsersSamples.list_users 40 (UsersSamples.garden_of UsersSamples.endless)
        UsersSamples.no_filters).1 = Users.Fetching.
Proof.
  split; [reflexivity|]. split; [discriminate|].
  apply (users_list_never_ends (fun u => u) Samples.listed (fun _ _ => "no api")
           (fun _ => "Garden Cloud") UsersSamples.table
           (fun s => s) (fun s => s) (fun s => s) 1000 40
           (UsersSamples.garden_of UsersSamples.endless)
           UsersSamples.no_filters [] UsersSamples.endless UsersSamples.project "p1");
    [reflexivity|reflexivity|discriminate|reflexivity|].
  intros k. eexists. split; [reflexivity|]. split; [discriminate|]. simpl. lia.
Defined.

Lemma users_list_log_witness :
  Users.projectId _ Samples.garden = Some "p1"
  /\ "p1" <> ""
  /\ Users.first_empty_page _ 1000 Samples.api 2
  /\ 2 < 5
  /\ exists report,
      (Samples.run_list 5).2
      = [] ++ map Reading.fetch_line (seq 0 3) ++ (Users.LInfo, "") :: report.
Proof.
  split; [reflexivity|]. split; [discriminate|].
  split; [exact sample_first_empty_page|]. split; [lia|].
  eexists.
  apply (users_list_log (fun u => u) Samples.listed (fun _ _ => "no api")
           (fun _ => "Garden Cloud") (String.concat ";" ∘ map (String.concat ","))
           (fun s => s) (fun s => s) (fun s => s) 1000 5 Samples.garden
           Samples.only_devs [] Samples.api
           {| Users.repositoryUrl := "https://github.com/garden-io/garden" |}
           "p1" 2 eq_refl eq_refl ltac:(discriminate) eq_refl
           sample_first_empty_page ltac:(lia)).
Defined.

Lemma users_list_page_rejected_witness :
  Users.get_users _ UsersSamples.failing 1 = inl "503 Service Unavailable"
  /\ 1 < 5
  /\ UsersSamples.list_users 5 (UsersSamples.garden_of UsersSamples.failing)
       UsersSamples.no_filters
     = (Users.Thrown (Users.Rejection "503 Service Unavailable"),
        [] ++ map Reading.fetch_line (seq 0 2)).
Proof.
  split; [reflexivity|]. split; [lia|].
  apply (users_list_page_rejected (fun u => u) Samples.listed (fun _ _ => "no api")
           (fun _ => "Garden Cloud") UsersSamples.table
           (fun s => s) (fun s => s) (fun s => s) 1000 5
           (UsersSamples.garden_of UsersSamples.failing)
           UsersSamples.no_filters [] UsersSamples.failing UsersSamples.project "p1"
           1 "503 Service Unavailable");
    [reflexivity|reflexivity|discriminate|reflexivity| |reflexivity|lia].
  intros [|j] Hj; [|lia].
  eexists. split; [reflexivity|]. split; [discriminate|]. simpl. lia.
Defined.

Lemma users_list_keeps_all_passing_witness :
  Users.projectId _ Samples.garden = Some "p1"
  /\ "p1" <> ""
  /\ Users.first_empty_page _ 1000 Samples.api 2
  /\ 2 < 5
  /\ exists result,
      (Samples.run_list 5).1 = Users.Resolved result
      /\ Permutation result
           (List.filter (Reading.passes_both Samples.listed Samples.only_devs)
              (Users.fetched _ (fun u => u) Samples.api 2)).
Proof.
  split; [reflexivity|]. split; [discriminate|].
  split; [exact sample_first_empty_page|]. split; [lia|].
  destruct (users_list_keeps_all_passing (fun u => u) Samples.listed
              (fun _ _ => "no api") (fun _ => "Garden Cloud")
              (String.concat ";" ∘ map (String.concat ",")) (fun s => s)
              (fun s => s) (fun s => s) 1000 5 Samples.garden Samples.only_devs []
              Samples.api
              {| Users.repositoryUrl := "https://github.com/garden-io/garden" |}
              "p1" 2 eq_refl eq_refl ltac:(discriminate) eq_refl
              sample_first_empty_page ltac:(lia)) as (result & Hres & Hperm & _).
  exists result. split; [exact Hres|exact Hperm].
Defined.

Lemma users_list_same_name_order_kept_witness :
  Users.projectId _ Samples.garden = Some "p1"
  /\ "p1" <> ""
  /\ Users.first_empty_page _ 1000 Samples.api 2
  /\ 2 < 5
  /\ exists result,
      (Samples.run_list 5).1 = Users.Resolved result
      /\ List.filter (fun u => String.eqb (Users.name u) "Gordon") result
         = List.filter (fun u => String.eqb (Users.name u) "Gordon")
             (List.filter (Reading.passes_both Samples.listed Samples.only_devs)
                (Users.fetched _ (fun u => u) Samples.api 2)).
Proof.
  split; [reflexivity|]. split; [discriminate|].
  split; [exact sample_first_empty_page|]. split; [lia|].
  apply (users_list_same_name_order_kept (fun u => u) Samples.listed
           (fun _ _ => "no api") (fun _ => "Garden Cloud")
           (String.concat ";" ∘ map (String.concat ",")) (fun s => s)
           (fun s => s) (fun s => s) 1000 5 Samples.garden Samples.only_devs []
           Samples.api
           {| Users.repositoryUrl := "https://github.com/garden-io/garden" |}
           "p1" 2 "Gordon" eq_refl eq_refl ltac:(discriminate) eq_refl
           sample_first_empty_page ltac:(lia)).
Defined.
